(** * MCP server and client: a shallow embedding of [server.py] and [client.py]

    The development follows the two Python programs of [src/mcp_server],
    and the task store of [src/asyncio_test]:

    - [Py]      the Python primitives the programs call: [bytes.decode],
                [str.encode], [str.strip], [str.split(sep, 1)], [str.upper],
                [in], and the exception classes that the handlers tell apart;
    - [Client]  [MCPClient._receive_messages], the receive loop with its
                line buffer;
    - [Server]  [MCPServer] ([_send_response], the four command handlers,
                [_handle_client], [stop], [start]) and [main];
    - [Threads] the registry accesses of the handler threads and of [stop]
                as interleaved atomic dict operations;
    - [Effects] what a handler may change, and other notions that the
                properties are stated with;
    - [Faults]  the handler of [Server] once more, on a connection on which
                [sendall] may fail because the peer is gone;
    - [Session] the main thread of the client: [connect], [send_command],
                [disconnect] and [main];
    - [Tasks]   the handlers of [data.py] over the list [tasks_db].

    Python [bytes] are lists of [byte], Python [str] are lists of code
    points, the [clients] dict is a [gmap] from peer addresses to socket
    handles, and a socket is what the server can observe of it: whether it
    has been closed and which payloads were written to it. *)

From Stdlib Require Import NArith ZArith Lia Strings.Byte Strings.String Strings.Ascii.
From stdpp Require Import base option list gmap strings.
From Equations Require Import Equations.

Local Open Scope N_scope.

(** ** Python primitives *)

Module Py.

(** [bytes] and [str].  A code point is a natural number; [decode_utf8]
    only ever produces Unicode scalar values. *)
Definition bytes := list byte.
Definition str := list N.

(** A byte-string literal and a text literal (the literals of the two
    programs are ASCII, where code point and byte value agree). *)
Definition b (s : string) : bytes := String.list_byte_of_string s.
Definition u (s : string) : str := map Byte.to_N (String.list_byte_of_string s).

Definition byte_of (n : N) : byte := default x00 (Byte.of_N n).

Definition LF : N := 10.
Definition CR : N := 13.
Definition SPACE : N := 32.

(** The byte of a line feed: a Rocq string literal has no escape for it. *)
Definition nl : bytes := [x0a].

(** *** [bytes.decode('utf-8')] (strict) *)

Definition in_range (lo hi : N) (x : byte) : bool :=
  (lo <=? Byte.to_N x) && (Byte.to_N x <=? hi).

Definition cont (x : byte) : N := Byte.to_N x - 0x80.

(** [None] stands for [UnicodeDecodeError].  The ranges are those of
    well-formed UTF-8: no overlong forms, no surrogates, nothing above
    U+10FFFF, no truncated sequence. *)
Fixpoint decode_utf8 (bs : bytes) : option str :=
  match bs with
  | [] => Some []
  | b0 :: r0 =>
    let n0 := Byte.to_N b0 in
    if n0 <? 0x80 then cons n0 <$> decode_utf8 r0
    else if in_range 0xC2 0xDF b0 then
      match r0 with
      | b1 :: r1 =>
        if in_range 0x80 0xBF b1
        then cons ((n0 - 0xC0) * 64 + cont b1) <$> decode_utf8 r1
        else None
      | _ => None
      end
    else if in_range 0xE0 0xEF b0 then
      match r0 with
      | b1 :: b2 :: r2 =>
        let lo := if n0 =? 0xE0 then 0xA0 else 0x80 in
        let hi := if n0 =? 0xED then 0x9F else 0xBF in
        if in_range lo hi b1 && in_range 0x80 0xBF b2
        then cons ((n0 - 0xE0) * 4096 + cont b1 * 64 + cont b2) <$> decode_utf8 r2
        else None
      | _ => None
      end
    else if in_range 0xF0 0xF4 b0 then
      match r0 with
      | b1 :: b2 :: b3 :: r3 =>
        let lo := if n0 =? 0xF0 then 0x90 else 0x80 in
        let hi := if n0 =? 0xF4 then 0x8F else 0xBF in
        if in_range lo hi b1 && in_range 0x80 0xBF b2 && in_range 0x80 0xBF b3
        then cons ((n0 - 0xF0) * 262144 + cont b1 * 4096 + cont b2 * 64 + cont b3)
               <$> decode_utf8 r3
        else None
      | _ => None
      end
    else None
  end.

(** *** [str.encode('utf-8')] *)

(** [None] stands for [UnicodeEncodeError] (a lone surrogate). *)
Definition encode_char (c : N) : option bytes :=
  if c <? 0x80 then Some [byte_of c]
  else if c <? 0x800 then
    Some [byte_of (0xC0 + c / 64); byte_of (0x80 + c mod 64)]
  else if c <? 0x10000 then
    if (0xD800 <=? c) && (c <=? 0xDFFF) then None
    else Some [byte_of (0xE0 + c / 4096); byte_of (0x80 + (c / 64) mod 64);
               byte_of (0x80 + c mod 64)]
  else if c <? 0x110000 then
    Some [byte_of (0xF0 + c / 262144); byte_of (0x80 + (c / 4096) mod 64);
          byte_of (0x80 + (c / 64) mod 64); byte_of (0x80 + c mod 64)]
  else None.

Fixpoint encode_utf8 (s : str) : option bytes :=
  match s with
  | [] => Some []
  | c :: r =>
    match encode_char c, encode_utf8 r with
    | Some x, Some y => Some (x ++ y)
    | _, _ => None
    end
  end.

(** *** [str.strip()] *)

(** The code points for which [str.isspace] holds. *)
Definition isspace (c : N) : bool :=
  ((9 <=? c) && (c <=? 13)) || ((28 <=? c) && (c <=? 32))
  || (c =? 0x85) || (c =? 0xA0) || (c =? 0x1680)
  || ((0x2000 <=? c) && (c <=? 0x200A))
  || (c =? 0x2028) || (c =? 0x2029) || (c =? 0x202F) || (c =? 0x205F)
  || (c =? 0x3000).

Fixpoint lstrip (s : str) : str :=
  match s with
  | c :: r => if isspace c then lstrip r else s
  | [] => []
  end.

Definition rstrip (s : str) : str := reverse (lstrip (reverse s)).

Definition strip (s : str) : str := rstrip (lstrip s).

(** *** [sep in s] and [s.split(sep, 1)] for a one-character [sep] *)

Definition contains (sep : N) (s : str) : bool := existsb (N.eqb sep) s.

(** The text before and the text after the first [sep], when there is one. *)
Fixpoint partition (sep : N) (s : str) : option (str * str) :=
  match s with
  | [] => None
  | c :: r =>
    if c =? sep then Some ([], r)
    else match partition sep r with
         | Some (x, y) => Some (c :: x, y)
         | None => None
         end
  end.

(** [s.split(sep, 1)]: a list of one or two parts. *)
Definition split1 (sep : N) (s : str) : list str :=
  match partition sep s with
  | Some (x, y) => [x; y]
  | None => [s]
  end.

(** *** [str.upper()] *)

(** [str.upper] maps every code point through the full upper-case mapping
    of the Unicode database, which may yield several code points.  On ASCII
    it turns [a-z] into [A-Z]; beyond ASCII the table belongs to the
    interpreter, and so do the texts of [UnicodeDecodeError] and
    [UnicodeEncodeError]. *)
Class Runtime := {
  upper_nonascii : N -> list N;
  decode_error_text : bytes -> str;
  encode_error_text : str -> str
}.

(** An interpreter whose table has no case pairs beyond ASCII and whose
    error texts are empty; used to run the programs on ASCII input, where
    neither matters. *)
Definition bare : Runtime :=
  {| upper_nonascii c := [c];
     decode_error_text _ := [];
     encode_error_text _ := [] |}.

(** An interpreter whose table has, beyond ASCII, the two entries of the
    Unicode database for the sharp s: the upper-case form of the small
    letter U+00DF is [SS], and the capital letter U+1E9E is its own. *)
Definition sharp_s : Runtime :=
  {| upper_nonascii c := if c =? 0xDF then [83; 83] else [c];
     decode_error_text _ := [];
     encode_error_text _ := [] |}.

Definition upper_ascii (c : N) : N :=
  if (97 <=? c) && (c <=? 122) then c - 32 else c.

Definition upper_char `{Runtime} (c : N) : list N :=
  if c <? 128 then [upper_ascii c] else upper_nonascii c.

Definition upper `{Runtime} (s : str) : str := flat_map upper_char s.

(** *** Exceptions *)

(** The exception classes the programs distinguish, each with the text
    that [str(e)] gives. *)
Inductive exn :=
| OSError (text : str)
| ConnectionResetError (text : str)
| UnicodeDecodeError (text : str)
| UnicodeEncodeError (text : str)
| RuntimeError (text : str)
| KeyError (text : str)
| KeyboardInterrupt.

Definition exc_str (e : exn) : str :=
  match e with
  | OSError t | ConnectionResetError t | UnicodeDecodeError t
  | UnicodeEncodeError t | RuntimeError t | KeyError t => t
  | KeyboardInterrupt => []
  end.

(** [isinstance(e, OSError)]: [ConnectionResetError] is a subclass. *)
Definition is_OSError (e : exn) : bool :=
  match e with
  | OSError _ | ConnectionResetError _ => true
  | _ => false
  end.

(** [isinstance(e, Exception)]: [KeyboardInterrupt] is not. *)
Definition is_Exception (e : exn) : bool :=
  match e with
  | KeyboardInterrupt => false
  | _ => true
  end.

(** [needle in haystack] for two strings. *)
Fixpoint starts_with (p s : str) : bool :=
  match p, s with
  | [], _ => true
  | x :: p', y :: s' => (x =? y) && starts_with p' s'
  | _ :: _, [] => false
  end.

Fixpoint str_in (needle haystack : str) : bool :=
  starts_with needle haystack ||
  match haystack with
  | [] => false
  | _ :: r => str_in needle r
  end.

End Py.

(** ** The client's receive loop *)

Module Client.
Import Py.

(** What [recv(1024)] does on one call: it returns bytes (none at end of
    stream) or raises. *)
Inductive recv_result :=
| Data (data : bytes)
| Raise (e : exn).

(** What the loop prints. *)
Inductive output :=
| Line (line : str)
| Disconnected
| ResetNotice
| ErrorNotice (text : str).

(** The characters that reach the terminal. *)
Definition render (o : output) : str :=
  match o with
  | Line line => [CR] ++ line ++ [LF] ++ u "> "
  | Disconnected => [LF] ++ u "Disconnected from server." ++ [LF]
  | ResetNotice => [LF] ++ u "Connection to server was reset." ++ [LF]
  | ErrorNotice text => [LF] ++ u "Error receiving message: " ++ text ++ [LF]
  end.

(** [self.running], the local [buffer], and standard output. *)
Record state := {
  running : bool;
  buffer : str;
  stdout : list output
}.

Definition initial : state := {| running := true; buffer := []; stdout := [] |}.

Definition inspect {A} (a : A) : {x | a = x} := exist _ a eq_refl.

(** [while '\n' in buffer: line, buffer = buffer.split('\n', 1); print(...)].
    Returns the remaining buffer and the extended output. *)
Equations? print_lines (buf : str) (out : list output) : str * list output
  by wf (length buf) lt :=
  print_lines buf out with inspect (partition LF buf) := {
    | exist _ (Some (line, rest)) _ => print_lines rest (out ++ [Line line]);
    | exist _ None _ => (buf, out) }.
Proof.
  clear print_lines. revert line rest e.
  induction buf as [|c r IH]; intros line rest; simpl; [discriminate|].
  destruct (c =? LF).
  - intros [= <- <-]. lia.
  - destruct (partition LF r) as [[x y]|]; [|discriminate].
    intros [= <- <-]. specialize (IH x y eq_refl). lia.
Qed.

(** The loop of [_receive_messages], run on the results of its successive
    [recv] calls.  When they are used up the loop is blocked in [recv] with
    [running] still set. *)
Fixpoint receive_loop `{Runtime} (recvs : list recv_result) (st : state) : state :=
  if negb (running st) then st
  else match recvs with
  | [] => st
  | Data data :: recvs' =>
    match data with
    | [] =>
      {| running := false; buffer := buffer st;
         stdout := stdout st ++ [Disconnected] |}
    | _ =>
      match decode_utf8 data with
      | Some text =>
        let '(buffer', out') := print_lines (buffer st ++ text) (stdout st) in
        receive_loop recvs' {| running := true; buffer := buffer'; stdout := out' |}
      | None =>
        {| running := false; buffer := buffer st;
           stdout := stdout st ++ [ErrorNotice (decode_error_text data)] |}
      end
    end
  | Raise (ConnectionResetError _) :: _ =>
    {| running := false; buffer := buffer st;
       stdout := stdout st ++ [ResetNotice] |}
  | Raise e :: _ =>
    if is_Exception e
    then {| running := false; buffer := buffer st;
            stdout := stdout st ++ [ErrorNotice (exc_str e)] |}
    else st
  end.

(** [_receive_messages] starts with an empty buffer. *)
Definition _receive_messages `{Runtime} (recvs : list recv_result) (st : state) : state :=
  receive_loop recvs {| running := running st; buffer := []; stdout := stdout st |}.

(** The lines printed, in order. *)
Definition lines (out : list output) : list str :=
  omap (fun o => match o with Line l => Some l | _ => None end) out.

(** Lines with their newlines put back. *)
Definition unlines (ls : list str) : str := flat_map (fun l => l ++ [LF]) ls.

(** The text that the loop has printed as lines, followed by what it still
    holds in its buffer. *)
Definition reassembled (st : state) : str :=
  unlines (lines (stdout st)) ++ buffer st.

(** The printed lines and the remainder are the text of the bytes read. *)
Definition reassembles (chunks : list bytes) (st : state) : Prop :=
  decode_utf8 (concat chunks) = Some (reassembled st).

(** The lines that the framing of this loop yields for a sequence of reads. *)
Definition framed `{Runtime} (chunks : list bytes) : list str :=
  lines (stdout (_receive_messages (map Data chunks) initial)).

End Client.

(** ** The server *)

Module Server.
Import Py.

(** A peer address [(host, port)] and the identity of a socket object. *)
Definition address := (string * Z)%type.
Definition handle := nat.

(** A socket as the server sees it: whether [close()] was called on it and
    the payloads that [sendall] accepted, oldest first. *)
Record socket := {
  closed : bool;
  sent : list bytes
}.

Definition open_socket : socket := {| closed := false; sent := [] |}.

(** The calls to [logging.info] and [logging.error], one constructor per
    call site. *)
Inductive record :=
| Info_started (host : string) (port : Z)
| Info_waiting
| Info_new_connection (a : address)
| Error_accepting (e : exn)
| Error_server (e : exn)
| Info_stopped
| Info_received (a : address) (data : str)
| Error_handling (a : address) (e : exn)
| Info_disconnected (a : address)
| Error_sending (e : exn)
| Error_failed_to_start (e : exn)
| Info_shutting_down
| Error_fatal (e : exn).

(** The calls to [print] in [main]. *)
Inductive printed :=
| Starting_on (port : Z)
| Port_in_use (port next : Z).

(** The attributes of an [MCPServer] object, and around them the sockets
    of the process, the log and standard output. *)
Record state := {
  host : string;
  port : Z;
  server_socket : option handle;
  clients : gmap address handle;
  running : bool;
  sockets : gmap handle socket;
  log : list record;
  stdout : list printed
}.

Definition with_clients (f : gmap address handle -> gmap address handle) (st : state) : state :=
  {| host := host st; port := port st; server_socket := server_socket st;
     clients := f (clients st); running := running st;
     sockets := sockets st; log := log st; stdout := stdout st |}.

Definition with_sockets (f : gmap handle socket -> gmap handle socket) (st : state) : state :=
  {| host := host st; port := port st; server_socket := server_socket st;
     clients := clients st; running := running st;
     sockets := f (sockets st); log := log st; stdout := stdout st |}.

Definition with_running (r : bool) (st : state) : state :=
  {| host := host st; port := port st; server_socket := server_socket st;
     clients := clients st; running := r;
     sockets := sockets st; log := log st; stdout := stdout st |}.

Definition with_server_socket (o : option handle) (st : state) : state :=
  {| host := host st; port := port st; server_socket := o;
     clients := clients st; running := running st;
     sockets := sockets st; log := log st; stdout := stdout st |}.

Definition logging (r : record) (st : state) : state :=
  {| host := host st; port := port st; server_socket := server_socket st;
     clients := clients st; running := running st;
     sockets := sockets st; log := log st ++ [r]; stdout := stdout st |}.

Definition print (p : printed) (st : state) : state :=
  {| host := host st; port := port st; server_socket := server_socket st;
     clients := clients st; running := running st;
     sockets := sockets st; log := log st; stdout := stdout st ++ [p] |}.

(** *** Socket operations *)

(** A handle the process does not hold counts as closed. *)
Definition is_closed (h : handle) (st : state) : bool :=
  match sockets st !! h with
  | Some s => closed s
  | None => true
  end.

(** [sock.close()]: never raises, and closing twice is harmless. *)
Definition close (h : handle) (st : state) : state :=
  with_sockets (alter (fun s => {| closed := true; sent := sent s |}) h) st.

(** [str(e)] of the [OSError] that a closed socket raises. *)
Definition EBADF : exn := OSError (u "[Errno 9] Bad file descriptor").

(** The payload joins what was written to the socket. *)
Definition write (h : handle) (data : bytes) (st : state) : state :=
  with_sockets (alter (fun s => {| closed := closed s; sent := sent s ++ [data] |}) h) st.

(** [sock.sendall(data)]: raises on a closed socket, otherwise the payload
    is written. *)
Definition sendall (h : handle) (data : bytes) (st : state) : state + exn :=
  if is_closed h st then inr EBADF else inl (write h data st).

(** The payloads written to a socket so far. *)
Definition sent_on (h : handle) (st : state) : list bytes :=
  match sockets st !! h with
  | Some s => sent s
  | None => []
  end.

(** The commands a handler has taken up, as [logging.info] records them
    right before they are processed. *)
Definition dispatched (st : state) : list str :=
  omap (fun r => match r with Info_received _ data => Some data | _ => None end) (log st).

(** What one [recv(1024)] of a handler delivers: bytes (none when the peer
    has closed its side; never more than 1024, which nothing below depends
    on) or an exception. *)
Inductive recv_result :=
| Data (data : bytes)
| Raise (e : exn).

Section WithRuntime.
Context `{Runtime}.

(** *** [_send_response] *)

Definition _send_response (h : handle) (message : str) (st : state) : state :=
  match encode_utf8 (message ++ [LF]) with
  | Some data =>
    match sendall h data st with
    | inl st' => st'
    | inr e => logging (Error_sending e) st
    end
  | None =>
    logging (Error_sending (UnicodeEncodeError (encode_error_text (message ++ [LF])))) st
  end.

(** *** Command handlers *)

Definition handler := handle -> str -> state -> state.

Definition _handle_hello : handler := fun h arg st =>
  let name := match arg with [] => u "Guest" | _ => arg end in
  _send_response h (u "Hello, " ++ name ++ u "! Welcome to MCP Server.") st.

Definition _handle_echo : handler := fun h arg st =>
  match arg with
  | [] => _send_response h (u "ECHO: You didn't provide any text to echo.") st
  | _ => _send_response h (u "ECHO: " ++ arg) st
  end.

(** [client_socket in self.clients.values()] *)
Definition in_values (h : handle) (m : gmap address handle) : bool :=
  bool_decide (h ∈ (map_to_list m).*2).

Definition _handle_exit : handler := fun h arg st =>
  let st1 := _send_response h (u "Goodbye!") st in
  if in_values h (clients st1) then close h st1 else st1.

Definition help_text : str :=
  [LF] ++ u "Available Commands:" ++ [LF]
  ++ u "  HELLO [name]  - Greet the server" ++ [LF]
  ++ u "  ECHO <text>   - Echo back the provided text" ++ [LF]
  ++ u "  EXIT          - Disconnect from the server" ++ [LF]
  ++ u "  HELP          - Show this help message" ++ [LF].

Definition _handle_help : handler := fun h arg st =>
  _send_response h (strip help_text) st.

(** [self.command_handlers] *)
Definition command_handlers : list (str * handler) :=
  [(u "HELLO", _handle_hello); (u "ECHO", _handle_echo);
   (u "EXIT", _handle_exit); (u "HELP", _handle_help)].

Definition lookup_handler (command : str) : option handler :=
  snd <$> List.find (fun p => bool_decide (fst p = command)) command_handlers.

(** *** [_handle_client] *)

(** Lines 98 to 100: the command and its argument. *)
Definition parse (data : str) : str * str :=
  let parts := split1 SPACE data in
  let command := upper (nth 0 parts []) in
  let arg := if (1 <? length parts)%nat then nth 1 parts [] else [] in
  (command, arg).

(** Lines 102 to 105: look up, call. *)
Definition dispatch (command arg : str) (h : handle) (st : state) : state :=
  match lookup_handler command with
  | Some handle_it => handle_it h arg st
  | None => _send_response h (u "ERROR: Unknown command: " ++ command) st
  end.

Definition process_command (h : handle) (data : str) (st : state) : state :=
  let '(command, arg) := parse data in dispatch command arg h st.

(** The two [except] clauses of the loop body; both leave the loop.  An
    exception that is no [Exception] passes through them. *)
Definition on_exception (a : address) (h : handle) (e : exn) (st : state) : state :=
  match e with
  | ConnectionResetError _ => st
  | _ =>
    if is_Exception e
    then _send_response h (u "ERROR: " ++ exc_str e) (logging (Error_handling a e) st)
    else st
  end.

(** Whether the loop is waiting in [recv] or has been left. *)
Inductive status := Blocked | Left.

(** The [while self.running] loop, run on the results of the successive
    [recv] calls of this connection.  [recv] on a socket that this process
    has closed raises without waiting for the peer. *)
Fixpoint serve (recvs : list recv_result) (a : address) (h : handle) (st : state)
  : state * status :=
  if negb (running st) then (st, Left)
  else if is_closed h st then (on_exception a h EBADF st, Left)
  else match recvs with
  | [] => (st, Blocked)
  | Raise e :: _ => (on_exception a h e st, Left)
  | Data raw :: recvs' =>
    match decode_utf8 raw with
    | None => (on_exception a h (UnicodeDecodeError (decode_error_text raw)) st, Left)
    | Some text =>
      match strip text with
      | [] => (st, Left)
      | data =>
        serve recvs' a h (process_command h data (logging (Info_received a data) st))
      end
    end
  end.

(** The [finally] clause. *)
Definition unregister (a : address) (st : state) : state :=
  if bool_decide (a ∈ dom (clients st)) then with_clients (delete a) st else st.

Definition cleanup (a : address) (h : handle) (st : state) : state :=
  logging (Info_disconnected a) (close h (unregister a st)).

Definition welcome : str :=
  u "MCP Server: Connected. Type 'HELP' for available commands.".

Definition _handle_client (recvs : list recv_result) (a : address) (h : handle) (st : state)
  : state * status :=
  let st1 := with_clients (insert a h) st in
  let st2 := _send_response h welcome st1 in
  match serve recvs a h st2 with
  | (st3, Left) => (cleanup a h st3, Left)
  | (st3, Blocked) => (st3, Blocked)
  end.

(** *** [stop] *)

(** The [for] loop over [self.clients.values()].  A [gmap] is enumerated in
    the order of its keys, a Python dict in the order of insertion: the
    sockets are closed in another order than in the program, and nothing
    below depends on the order. *)
Definition close_all (st : state) : state :=
  foldl (fun s h => close h s) st (map_to_list (clients st)).*2.

Definition stop (st : state) : state :=
  let st1 := with_running false st in
  let st2 := match server_socket st1 with
             | Some l => close l st1
             | None => st1
             end in
  logging Info_stopped (with_clients (fun _ => ∅) (close_all st2)).

(** What [_send_response] leaves as it is: the server object apart from the
    sockets, the closed flags, and the record of commands taken up. *)
Definition untouched (st st' : state) : Prop :=
  running st' = running st
  /\ clients st' = clients st
  /\ dispatched st' = dispatched st
  /\ forall h, is_closed h st' = is_closed h st.

(** *** Reference definitions *)

(** The response column of the command table for [HELLO] and [ECHO], as
    the specification words it: the name defaults to [Guest]; an absent
    text gets the fixed sentence. *)
Definition table_response (command arg : str) : option str :=
  if bool_decide (command = u "HELLO") then
    Some (u "Hello, " ++ (if bool_decide (arg = []) then u "Guest" else arg)
          ++ u "! Welcome to MCP Server.")
  else if bool_decide (command = u "ECHO") then
    Some (if bool_decide (arg = [])
          then u "ECHO: You didn't provide any text to echo."
          else u "ECHO: " ++ arg)
  else None.



(** A peer, and a second one. *)
Definition peer1 : address := ("127.0.0.1"%string, 50001%Z).
Definition peer2 : address := ("127.0.0.1"%string, 50000%Z).

(** A server that listens on socket [0] and has just accepted a connection
    on socket [h]. *)
Definition accepted (h : handle) : state :=
  {| host := "0.0.0.0"; port := 5001; server_socket := Some 0%nat; clients := ∅;
     running := true; sockets := {[ 0%nat := open_socket; h := open_socket ]};
     log := []; stdout := [] |}.

(** *** [start] *)

(** What one [accept()] of the listener delivers: a connection, or an
    exception. *)
Inductive accept_result :=
| Accepted (h : handle) (a : address)
| AcceptRaise (e : exn).

(** What the operating system answers to the server: for each port the
    exception that [bind] raises there, if any, and the results of the
    successive [accept] calls. *)
Record environment := {
  bind_error : Z -> option exn;
  accepts : list accept_result
}.

(** How a call ends: it returns, an exception leaves it, or it is still
    waiting for the environment. *)
Inductive outcome :=
| Returned
| Propagated (e : exn)
| Waiting.

(** The [while self.running] loop of [start].  The thread started for an
    accepted connection runs [_handle_client] on its own; here the new
    socket joins the sockets of the process and the connection is logged. *)
Fixpoint accept_loop (acc : list accept_result) (st : state) : state * outcome :=
  if negb (running st) then (st, Returned)
  else match acc with
  | [] => (st, Waiting)
  | Accepted h a :: acc' =>
    accept_loop acc' (logging (Info_new_connection a) (with_sockets (insert h open_socket) st))
  | AcceptRaise e :: acc' =>
    if is_OSError e
    then accept_loop acc' (if running st then logging (Error_accepting e) st else st)
    else (st, Propagated e)
  end.

(** The [try] block of [start]. *)
Definition start_body (env : environment) (st : state) : state * outcome :=
  let l := fresh (dom (sockets st)) in
  let st1 := with_server_socket (Some l) (with_sockets (insert l open_socket) st) in
  match bind_error env (port st1) with
  | Some e => (st1, Propagated e)
  | None =>
    accept_loop (accepts env)
      (logging Info_waiting
         (logging (Info_started (host st1) (port st1)) (with_running true st1)))
  end.

(** [start]: [except Exception] logs and swallows, [finally] calls [stop]. *)
Definition start (env : environment) (st : state) : state * outcome :=
  match start_body env st with
  | (st', Waiting) => (st', Waiting)
  | (st', Returned) => (stop st', Returned)
  | (st', Propagated e) =>
    if is_Exception e
    then (stop (logging (Error_server e) st'), Returned)
    else (stop st', Propagated e)
  end.

(** The [OSError] of a [bind] to a port that is taken. *)
Definition address_in_use : exn := OSError (u "[Errno 98] Address already in use").

(** Port 5001 is taken, every other port is free, and nobody connects. *)
Definition port_5001_taken : environment :=
  {| bind_error p := if (p =? 5001)%Z then Some address_in_use else None;
     accepts := [] |}.

(** *** [main] *)

(** [MCPServer(host, port)]: a new server object in the same process. *)
Definition MCPServer (h : string) (p : Z) (st : state) : state :=
  {| host := h; port := p; server_socket := None; clients := ∅;
     running := false; sockets := sockets st; log := log st; stdout := stdout st |}.

(** The process before [main] has created anything. *)
Definition process : state :=
  {| host := EmptyString; port := 0; server_socket := None; clients := ∅;
     running := false; sockets := ∅; log := []; stdout := [] |}.

(** How [main] ends: with an exit code, or still serving. *)
Inductive exit :=
| Exit (code : Z)
| Serving.

Definition max_attempts : nat := 5.

(** The [for attempt in range(max_attempts)] loop with its three [except]
    clauses. *)
Fixpoint main_loop (env : environment) (attempts : list nat) (p : Z) (st : state)
  : state * exit :=
  match attempts with
  | [] => (st, Exit 0)
  | attempt :: attempts' =>
    let st1 := print (Starting_on p) (MCPServer "0.0.0.0" p st) in
    match start env st1 with
    | (st2, Waiting) => (st2, Serving)
    | (st2, Returned) => (st2, Exit 0)
    | (st2, Propagated e) =>
      if is_OSError e then
        if str_in (u "Address already in use") (exc_str e)
           && (attempt <? max_attempts - 1)%nat
        then main_loop env attempts' (p + 1)%Z (print (Port_in_use p (p + 1)%Z) st2)
        else (logging (Error_failed_to_start e) st2, Exit 1)
      else match e with
      | KeyboardInterrupt => (stop (logging Info_shutting_down st2), Exit 0)
      | _ => (stop (logging (Error_fatal e) st2), Exit 1)
      end
    end
  end.

Definition main (env : environment) : state * exit :=
  main_loop env (seq 0 max_attempts) 5001%Z process.

End WithRuntime.
End Server.

(** ** The registry under interleaving *)

Module Threads.
Import Py Server.

(** The places of [_handle_client] between which the registry is touched:
    before line 82, between the insertion and the membership test of line
    118, before the [del] of line 119, before the [close] of line 121.  The
    serving loop, which lies between the first two, writes to the socket and
    to the log only ([Server.serve]); its steps are left out here. *)
Inductive handler_pc :=
| AtEntry
| Registered
| AtDelete
| AtClose
| Finished
| Crashed.

Record handler_thread := {
  peer : address;
  sock : handle;
  pc : handler_pc
}.

(** The places of [stop]: not called, inside the [for] loop with the size
    the iterator recorded and its position, before [clear], done, or left
    by the [RuntimeError] of the iterator. *)
Inductive stop_pc :=
| Idle
| Iterating (di_used di_pos : nat)
| AtClear
| Stopped
| StopRaised (e : exn).

Record system := {
  server : state;
  handlers : list handler_thread;
  stopper : stop_pc
}.

Inductive thread :=
| Handler (i : nat)
| Stopper.

Definition at_pc (t : handler_thread) (p : handler_pc) : handler_thread :=
  {| peer := peer t; sock := sock t; pc := p |}.

(** One atomic step of a handler thread.  From [Registered] the step is the
    test [client_address in self.clients]; [del] on a missing key raises
    [KeyError] out of the [finally] clause and ends the thread. *)
Definition step_handler (t : handler_thread) (st : state) : handler_thread * state :=
  match pc t with
  | AtEntry => (at_pc t Registered, with_clients (insert (peer t) (sock t)) st)
  | Registered =>
    if bool_decide (peer t ∈ dom (clients st))
    then (at_pc t AtDelete, st)
    else (at_pc t AtClose, st)
  | AtDelete =>
    match clients st !! peer t with
    | Some _ => (at_pc t AtClose, with_clients (delete (peer t)) st)
    | None => (at_pc t Crashed, st)
    end
  | AtClose => (at_pc t Finished, logging (Info_disconnected (peer t)) (close (sock t) st))
  | Finished | Crashed => (t, st)
  end.

Definition changed_size : exn :=
  RuntimeError (u "dictionary changed size during iteration").

(** One atomic step of [stop].  The first step runs up to the creation of
    the iterator over [self.clients.values()]; each further step is one
    [next] of that iterator, which raises when the dict no longer has the
    size it had at creation, together with the [close] of the loop body.
    The iterator goes through the registry in the order of the keys, where
    the dict has the order of insertion; the properties of the schedules
    are about which steps are taken, not about which socket is closed
    first. *)
Definition step_stop (p : stop_pc) (st : state) : stop_pc * state :=
  match p with
  | Idle =>
    let st1 := with_running false st in
    let st2 := match server_socket st1 with
               | Some l => close l st1
               | None => st1
               end in
    (Iterating (size (clients st2)) 0, st2)
  | Iterating di_used di_pos =>
    if bool_decide (size (clients st) = di_used) then
      match (map_to_list (clients st)).*2 !! di_pos with
      | Some h => (Iterating di_used (S di_pos), close h st)
      | None => (AtClear, st)
      end
    else (StopRaised changed_size, st)
  | AtClear => (Stopped, logging Info_stopped (with_clients (fun _ => ∅) st))
  | Stopped | StopRaised _ => (p, st)
  end.

(** The scheduler runs one thread for one step. *)
Definition step (s : system) (t : thread) : system :=
  match t with
  | Handler i =>
    match handlers s !! i with
    | Some th =>
      let '(th', st') := step_handler th (server s) in
      {| server := st'; handlers := <[i := th']> (handlers s); stopper := stopper s |}
    | None => s
    end
  | Stopper =>
    let '(p', st') := step_stop (stopper s) (server s) in
    {| server := st'; handlers := handlers s; stopper := p' |}
  end.

Definition exec (sched : list thread) (s : system) : system := foldl step s sched.

(** Handler threads for the accepted connections, none of which has run. *)
Definition spawn (conns : list (address * handle)) (st : state) : system :=
  {| server := st;
     handlers := map (fun c => {| peer := fst c; sock := snd c; pc := AtEntry |}) conns;
     stopper := Idle |}.

(** The next step of the thread reads or writes the registry. *)
Definition accesses (s : system) (t : thread) : bool :=
  match t with
  | Handler i =>
    match pc <$> handlers s !! i with
    | Some AtEntry | Some Registered | Some AtDelete => true
    | _ => false
    end
  | Stopper =>
    match stopper s with
    | Idle | Iterating _ _ | AtClear => true
    | _ => false
    end
  end.

(** The thread is between two registry accesses that belong together: the
    membership test and the [del], or the creation of the iterator and the
    [clear]. *)
Definition inside (s : system) (t : thread) : bool :=
  match t with
  | Handler i =>
    match pc <$> handlers s !! i with
    | Some AtDelete => true
    | _ => false
    end
  | Stopper =>
    match stopper s with
    | Iterating _ _ | AtClear => true
    | _ => false
    end
  end.

Definition threads (s : system) : list thread :=
  Stopper :: map Handler (seq 0 (length (handlers s))).

Definition thread_eqb (t t' : thread) : bool :=
  match t, t' with
  | Handler i, Handler j => Nat.eqb i j
  | Stopper, Stopper => true
  | _, _ => false
  end.

(** No other thread is inside a registry operation. *)
Definition alone (s : system) (t : thread) : bool :=
  forallb (fun t' => thread_eqb t t' || negb (inside s t')) (threads s).

(** The schedule serialises the registry: whenever a thread accesses it, no
    other thread is inside an operation on it. *)
Fixpoint exclusive (sched : list thread) (s : system) : bool :=
  match sched with
  | [] => true
  | t :: sched' => (negb (accesses s t) || alone s t) && exclusive sched' (step s t)
  end.

Definition finished (t : handler_thread) : bool :=
  match pc t with
  | Finished | Crashed => true
  | _ => false
  end.

(** Every registered address belongs to a handler that has inserted it and
    has not yet passed its [del]. *)
Definition covered (s : system) : Prop :=
  forall a h, clients (server s) !! a = Some h ->
  exists i t, handlers s !! i = Some t /\ peer t = a
              /\ (pc t = Registered \/ pc t = AtDelete).

(** Nothing has gone wrong so far, and nothing is about to: an iterator in
    use still sees the size it recorded, and an address about to be deleted
    is still there. *)
Definition undisturbed (s : system) : Prop :=
  (forall used pos, stopper s = Iterating used pos -> size (clients (server s)) = used)
  /\ (forall i t, handlers s !! i = Some t -> pc t = AtDelete ->
        is_Some (clients (server s) !! peer t))
  /\ (forall i t, handlers s !! i = Some t -> pc t <> Crashed)
  /\ (forall e, stopper s <> StopRaised e).

(** Two accepted connections whose handler threads have not run yet. *)
Definition two_connections : system :=
  spawn [(peer1, 1%nat); (peer2, 2%nat)]
    {| host := "0.0.0.0"; port := 5001; server_socket := Some 0%nat; clients := ∅;
       running := true;
       sockets := {[ 0%nat := open_socket; 1%nat := open_socket; 2%nat := open_socket ]};
       log := []; stdout := [] |}.

End Threads.

(** ** What a handler may change *)

Module Effects.
Import Py Server.

(** The footprint of the code that serves the connection on socket [h]:
    the [running] flag and the listening socket are as before, every other
    socket is as before, what was written to [h] is still there, and once
    [h] is closed it stays closed and nothing more is written to it. *)
Definition handled_by (h : handle) (st st' : state) : Prop :=
  running st' = running st
  /\ server_socket st' = server_socket st
  /\ (forall h', h' <> h -> sockets st' !! h' = sockets st !! h')
  /\ sent_on h st `prefix_of` sent_on h st'
  /\ (is_closed h st = true -> is_closed h st' = true /\ sent_on h st' = sent_on h st).

(** The record that the accept loop logs for one result of [accept]. *)
Definition accept_record (r : accept_result) : record :=
  match r with
  | Accepted _ a => Info_new_connection a
  | AcceptRaise e => Error_accepting e
  end.

(** The result of [accept] does not end the accept loop. *)
Definition loop_goes_on (r : accept_result) : bool :=
  match r with
  | Accepted _ _ => true
  | AcceptRaise e => is_OSError e
  end.

(** The payload of the [HELP] response. *)
Definition help_payload : bytes :=
  b "Available Commands:" ++ nl
  ++ b "  HELLO [name]  - Greet the server" ++ nl
  ++ b "  ECHO <text>   - Echo back the provided text" ++ nl
  ++ b "  EXIT          - Disconnect from the server" ++ nl
  ++ b "  HELP          - Show this help message" ++ nl.

(** One successful read of the receive loop: the decoded text joins the
    buffer and the complete lines are printed. *)
Definition feed (st : Client.state) (text : str) : Client.state :=
  let '(buffer', out') :=
    Client.print_lines (Client.buffer st ++ text) (Client.stdout st) in
  {| Client.running := true; Client.buffer := buffer'; Client.stdout := out' |}.

(** Text without white space at either end. *)
Definition stripped (t : str) : Prop := lstrip t = t /\ lstrip (reverse t) = reverse t.

End Effects.

(** ** The handler on a connection that may break *)

Module Faults.
Import Py Server.

(** What the environment does to one pass of the handler's loop: what
    [recv] delivers, and the text of the [OSError] that the [sendall] of the
    answer raises because the peer is gone, if it does. *)
Record read := {
  received : recv_result;
  failure : option str
}.

(** A pass in which [sendall] succeeds. *)
Definition reliable (r : recv_result) : read := {| received := r; failure := None |}.

Section WithRuntime.
Context `{Runtime}.

(** [sock.sendall(data)]: raises on a socket that this process has closed,
    and on an open one when the environment says so; otherwise the payload
    is written. *)
Definition sendall (fails : option str) (h : handle) (data : bytes) (st : state)
  : state + exn :=
  if is_closed h st then inr EBADF
  else match fails with
       | Some text => inr (OSError text)
       | None => inl (write h data st)
       end.

Definition _send_response (fails : option str) (h : handle) (message : str) (st : state)
  : state :=
  match encode_utf8 (message ++ [LF]) with
  | Some data =>
    match sendall fails h data st with
    | inl st' => st'
    | inr e => logging (Error_sending e) st
    end
  | None =>
    logging (Error_sending (UnicodeEncodeError (encode_error_text (message ++ [LF])))) st
  end.

Definition handler := option str -> handle -> str -> state -> state.

Definition _handle_hello : handler := fun fails h arg st =>
  let name := match arg with [] => u "Guest" | _ => arg end in
  _send_response fails h (u "Hello, " ++ name ++ u "! Welcome to MCP Server.") st.

Definition _handle_echo : handler := fun fails h arg st =>
  match arg with
  | [] => _send_response fails h (u "ECHO: You didn't provide any text to echo.") st
  | _ => _send_response fails h (u "ECHO: " ++ arg) st
  end.

Definition _handle_exit : handler := fun fails h arg st =>
  let st1 := _send_response fails h (u "Goodbye!") st in
  if in_values h (clients st1) then close h st1 else st1.

Definition _handle_help : handler := fun fails h arg st =>
  _send_response fails h (strip help_text) st.

Definition command_handlers : list (str * handler) :=
  [(u "HELLO", _handle_hello); (u "ECHO", _handle_echo);
   (u "EXIT", _handle_exit); (u "HELP", _handle_help)].

Definition lookup_handler (command : str) : option handler :=
  snd <$> List.find (fun p => bool_decide (fst p = command)) command_handlers.

Definition dispatch (fails : option str) (command arg : str) (h : handle) (st : state)
  : state :=
  match lookup_handler command with
  | Some handle_it => handle_it fails h arg st
  | None => _send_response fails h (u "ERROR: Unknown command: " ++ command) st
  end.

Definition process_command (fails : option str) (h : handle) (data : str) (st : state)
  : state :=
  let '(command, arg) := parse data in dispatch fails command arg h st.

Definition on_exception (fails : option str) (a : address) (h : handle) (e : exn)
    (st : state) : state :=
  match e with
  | ConnectionResetError _ => st
  | _ =>
    if is_Exception e
    then _send_response fails h (u "ERROR: " ++ exc_str e) (logging (Error_handling a e) st)
    else st
  end.

(** The loop of [_handle_client]; every pass sends at most one answer. *)
Fixpoint serve (reads : list read) (a : address) (h : handle) (st : state)
  : state * status :=
  if negb (running st) then (st, Left)
  else if is_closed h st then (on_exception None a h EBADF st, Left)
  else match reads with
  | [] => (st, Blocked)
  | r :: reads' =>
    match received r with
    | Raise e => (on_exception (failure r) a h e st, Left)
    | Data raw =>
      match decode_utf8 raw with
      | None =>
        (on_exception (failure r) a h (UnicodeDecodeError (decode_error_text raw)) st, Left)
      | Some text =>
        match strip text with
        | [] => (st, Left)
        | data =>
          serve reads' a h
            (process_command (failure r) h data (logging (Info_received a data) st))
        end
      end
    end
  end.

(** [welcome_fails] is what the [sendall] of the welcome line raises. *)
Definition _handle_client (welcome_fails : option str) (reads : list read)
    (a : address) (h : handle) (st : state) : state * status :=
  let st1 := with_clients (insert a h) st in
  let st2 := _send_response welcome_fails h welcome st1 in
  match serve reads a h st2 with
  | (st3, Left) => (cleanup a h st3, Left)
  | (st3, Blocked) => (st3, Blocked)
  end.

End WithRuntime.

(** What a handler only ever adds to: the payloads written to its socket
    and the log. *)
Definition grows (h : handle) (st st' : state) : Prop :=
  sent_on h st `prefix_of` sent_on h st' /\ log st `prefix_of` log st'.

End Faults.

(** ** The client's main thread *)

Module Session.
Import Py.

Definition handle := Server.handle.

(** The calls to [print] of [connect], [send_command] and [main], one
    constructor per call site, and the prompt that [input] writes. *)
Inductive printed :=
| Connecting_to (host : string) (port : Z)
| Connected_to (host : string) (port : Z)
| Type_help
| Failed_to_connect (text : str)
| Failed_to_connect_at (host : string) (port : Z)
| Please_make_sure
| Prompt
| Failed_to_send (text : str)
| Disconnecting
| Error (text : str).

(** The attributes of an [MCPClient] object that the main thread uses, and
    around them the sockets of the process and what the main thread has
    printed.  The receive thread prints as well; its output is that of
    [Client]. *)
Record state := {
  host : string;
  port : Z;
  socket : option handle;
  running : bool;
  sockets : gmap handle Server.socket;
  stdout : list printed
}.

Definition with_socket (o : option handle) (st : state) : state :=
  {| host := host st; port := port st; socket := o; running := running st;
     sockets := sockets st; stdout := stdout st |}.

Definition with_running (r : bool) (st : state) : state :=
  {| host := host st; port := port st; socket := socket st; running := r;
     sockets := sockets st; stdout := stdout st |}.

Definition with_sockets (f : gmap handle Server.socket -> gmap handle Server.socket)
    (st : state) : state :=
  {| host := host st; port := port st; socket := socket st; running := running st;
     sockets := f (sockets st); stdout := stdout st |}.

Definition print (p : printed) (st : state) : state :=
  {| host := host st; port := port st; socket := socket st; running := running st;
     sockets := sockets st; stdout := stdout st ++ [p] |}.

(** A handle the process does not hold counts as closed. *)
Definition is_closed (h : handle) (st : state) : bool :=
  match sockets st !! h with
  | Some s => Server.closed s
  | None => true
  end.

(** [sock.close()]: the socket is closed whatever the call raises. *)
Definition close (h : handle) (st : state) : state :=
  with_sockets
    (alter (fun s => {| Server.closed := true; Server.sent := Server.sent s |}) h) st.

Definition write (h : handle) (data : bytes) (st : state) : state :=
  with_sockets
    (alter (fun s => {| Server.closed := Server.closed s;
                        Server.sent := Server.sent s ++ [data] |}) h) st.

(** The payloads that [sendall] has delivered on a socket so far. *)
Definition sent_on (h : handle) (st : state) : list bytes :=
  match sockets st !! h with
  | Some s => Server.sent s
  | None => []
  end.

(** [MCPClient(host, port)] at the start of the process. *)
Definition MCPClient (h : string) (p : Z) : state :=
  {| host := h; port := p; socket := None; running := false;
     sockets := ∅; stdout := [] |}.

(** *** [connect] *)

(** [raises] is what [socket.connect] raises, if anything.  The socket has
    been created and assigned before; creating it and starting the receive
    thread are taken to succeed.  The result is the return value, or the
    exception that leaves the method. *)
Definition connect (raises : option exn) (st : state) : state * (bool + exn) :=
  let h := fresh (dom (sockets st)) in
  let st1 := with_socket (Some h) (with_sockets (insert h Server.open_socket) st) in
  match raises with
  | None =>
    (print Type_help (print (Connected_to (host st1) (port st1)) (with_running true st1)),
     inl true)
  | Some e =>
    if is_Exception e
    then (print (Failed_to_connect (exc_str e)) st1, inl false)
    else (st1, inr e)
  end.

(** *** [send_command] *)

(** [str(e)] of the [AttributeError] of [None.sendall]. *)
Definition no_sendall : str := u "'NoneType' object has no attribute 'sendall'".

(** The [except Exception] clause. *)
Definition failed_to_send (text : str) (st : state) : state :=
  with_running false (print (Failed_to_send text) st).

(** [raises] is what [sendall] raises on an open socket, if anything; a
    payload is delivered whole or not at all.  The attribute [sendall] is
    looked up before the argument is encoded.  The second component is the
    exception that leaves the method. *)
Definition send_command `{Runtime} (raises : option exn) (command : str) (st : state)
  : state * option exn :=
  match strip command with
  | [] => (st, None)
  | _ =>
    match socket st with
    | None => (failed_to_send no_sendall st, None)
    | Some h =>
      match encode_utf8 (command ++ [LF]) with
      | None => (failed_to_send (encode_error_text (command ++ [LF])) st, None)
      | Some data =>
        if is_closed h st then (failed_to_send (exc_str Server.EBADF) st, None)
        else match raises with
        | None => (write h data st, None)
        | Some e =>
          if is_Exception e then (failed_to_send (exc_str e) st, None) else (st, Some e)
        end
      end
    end
  end.

(** *** [disconnect] *)

Definition disconnect (st : state) : state :=
  let st1 := with_running false st in
  match socket st1 with
  | Some h => with_socket None (close h st1)
  | None => st1
  end.

(** *** [main] *)

(** What one call of [input] delivers: a line without its newline, the end
    of the input ([EOFError]), or another exception. *)
Inductive input_result :=
| Typed (line : str)
| EndOfFile
| InputRaise (e : exn).

(** What the environment does during one pass of the command loop: whether
    the receive thread has cleared [running] since the previous test of the
    loop condition (the main thread reads [running] nowhere else), what
    [input] delivers, what [sendall] raises when the command is sent, and
    what it raises when the interrupt clause sends [EXIT]. *)
Record turn := {
  receiver_stopped : bool;
  entered : input_result;
  send_error : option exn;
  exit_error : option exn
}.

(** How the command loop ends: it is left (by its condition or a [break]),
    an exception leaves the [try] block, or it waits in [input]. *)
Inductive loop_end :=
| Left
| Raised (e : exn)
| Blocked.

Section WithRuntime.
Context `{Runtime}.

(** The clause [except (EOFError, KeyboardInterrupt)]. *)
Definition on_interrupt (t : turn) (st : state) : state * loop_end :=
  match send_command (exit_error t) (u "EXIT") (print Disconnecting st) with
  | (st', None) => (st', Left)
  | (st', Some e) => (st', Raised e)
  end.

(** The [except] clauses of the loop body for an exception raised in it. *)
Definition on_exception (t : turn) (e : exn) (st : state) : state * loop_end :=
  match e with
  | KeyboardInterrupt => on_interrupt t st
  | _ => (print (Error (exc_str e)) st, Left)
  end.

(** The [while client.running] loop, run on the successive turns. *)
Fixpoint command_loop (turns : list turn) (st : state) : state * loop_end :=
  match turns with
  | [] => if running st then (print Prompt st, Blocked) else (st, Left)
  | t :: turns' =>
    let st0 := if receiver_stopped t then with_running false st else st in
    if negb (running st0) then (st0, Left)
    else
      let st1 := print Prompt st0 in
      match entered t with
      | Typed line =>
        let command := strip line in
        if bool_decide (upper command = u "EXIT") then
          match send_command (send_error t) (u "EXIT") st1 with
          | (st2, None) => (st2, Left)
          | (st2, Some e) => on_exception t e st2
          end
        else
          match send_command (send_error t) command st1 with
          | (st2, None) => command_loop turns' st2
          | (st2, Some e) => on_exception t e st2
          end
      | EndOfFile => on_interrupt t st1
      | InputRaise e => on_exception t e st1
      end
  end.

(** What the environment does to one run of [main]. *)
Record environment := {
  connect_error : option exn;
  turns : list turn
}.

(** How [main] ends: it returns its exit code, an exception leaves it, or
    it is still waiting for input. *)
Inductive outcome :=
| Returned (code : Z)
| Propagated (e : exn)
| Waiting.

(** [main] with the parsed arguments [--host] and [--port]. *)
Definition main (env : environment) (h : string) (p : Z) : state * outcome :=
  let st := print (Connecting_to h p) (MCPClient h p) in
  match connect (connect_error env) st with
  | (st1, inr e) => (st1, Propagated e)
  | (st1, inl false) =>
    (print Please_make_sure (print (Failed_to_connect_at h p) st1), Returned 1)
  | (st1, inl true) =>
    match command_loop (turns env) st1 with
    | (st2, Left) => (disconnect st2, Returned 0)
    | (st2, Raised e) => (disconnect st2, Propagated e)
    | (st2, Blocked) => (st2, Waiting)
    end
  end.

End WithRuntime.

(** A client that has connected to [localhost:5001] on socket [h]. *)
Definition connected (h : handle) : state :=
  {| host := "localhost"; port := 5001; socket := Some h; running := true;
     sockets := {[ h := Server.open_socket ]}; stdout := [] |}.

(** The socket of a session: assigned, the only one of the process, closed
    or not, with the payloads sent on it. *)
Definition on_wire (h : handle) (c : bool) (w : list bytes) (st : state) : Prop :=
  socket st = Some h
  /\ sockets st = {[ h := {| Server.closed := c; Server.sent := w |} ]}.

(** The command lines that a list of typed lines puts on the wire: each
    line stripped, blank ones left out, a newline added. *)
Definition payloads (typed : list str) : list bytes :=
  omap (fun line => match strip line with
                    | [] => None
                    | command => encode_utf8 (command ++ [LF])
                    end) typed.

(** A turn in which the receive thread is still running, a line is entered
    and [sendall] succeeds. *)
Definition types (line : str) : turn :=
  {| receiver_stopped := false; entered := Typed line;
     send_error := None; exit_error := None |}.

(** The state after such a turn that does not end the loop: the prompt is
    printed and the stripped line is sent. *)
Definition entering `{Runtime} (st : state) (line : str) : state :=
  fst (send_command None (strip line) (print Prompt st)).

End Session.

(** ** The task store of [asyncio_test/data.py] *)

Module Tasks.
Import Py.

(** A [datetime] is a point on the time line. *)
Definition datetime := Z.

(** The model [Task]; [task.dict()] has the same five entries. *)
Record Task := {
  id : Z;
  title : str;
  description : str;
  completed : bool;
  created_at : option datetime
}.

Inductive error :=
| HTTPException (status_code : Z) (detail : string).

Definition not_found : error := HTTPException 404 "Task not found".

(** The task with its [created_at] set. *)
Definition stamped (time : option datetime) (task : Task) : Task :=
  {| id := id task; title := title task; description := description task;
     completed := completed task; created_at := time |}.

(** The handlers touch [tasks_db] in one piece each, between two [await]s,
    so each is a function of the list; [now] is what [datetime.utcnow()]
    returns. *)
Definition create_task (now : datetime) (task : Task) (tasks_db : list Task)
  : list Task * Task :=
  let task' := stamped (Some now) task in
  (tasks_db ++ [task'], task').

Definition read_tasks (tasks_db : list Task) : list Task := tasks_db.

Fixpoint read_task (task_id : Z) (tasks_db : list Task) : Task + error :=
  match tasks_db with
  | [] => inr not_found
  | task :: rest =>
    if (id task =? task_id)%Z then inl task else read_task task_id rest
  end.

Fixpoint update_task (task_id : Z) (updated_task : Task) (tasks_db : list Task)
  : list Task * (Task + error) :=
  match tasks_db with
  | [] => ([], inr not_found)
  | task :: rest =>
    if (id task =? task_id)%Z then
      let updated_task_data := stamped (created_at task) updated_task in
      (updated_task_data :: rest, inl updated_task_data)
    else
      let '(rest', r) := update_task task_id updated_task rest in
      (task :: rest', r)
  end.

(** [None] is the empty response with status 204. *)
Fixpoint delete_task (task_id : Z) (tasks_db : list Task) : list Task * option error :=
  match tasks_db with
  | [] => ([], Some not_found)
  | task :: rest =>
    if (id task =? task_id)%Z then (rest, None)
    else
      let '(rest', r) := delete_task task_id rest in
      (task :: rest', r)
  end.

End Tasks.

(** * Properties *)

Import Py.

(** ** Facts about the Python primitives *)

Section PyFacts.

Lemma decode_utf8_app (x y : bytes) (tx ty : str) :
  decode_utf8 x = Some tx -> decode_utf8 y = Some ty ->
  decode_utf8 (x ++ y) = Some (tx ++ ty).
Proof.
  intros Hx Hy. remember (length x) as n eqn:Hn.
  revert x tx Hn Hx. induction n as [n IH] using lt_wf_ind.
  intros [|b0 r0] tx Hn Hx.
  - injection Hx as <-. exact Hy.
  - assert (Hfin : forall r c, (length r < n)%nat ->
             cons c <$> decode_utf8 r = Some tx ->
             cons c <$> decode_utf8 (r ++ y) = Some (tx ++ ty)).
    { intros r c Hlt Hr. apply fmap_Some in Hr as (t' & Hd & ->).
      rewrite (IH _ Hlt r t' eq_refl Hd). reflexivity. }
    subst n. cbn [app]. cbn [decode_utf8] in *. cbn [length] in Hfin.
    destruct (to_N b0 <? 128); [apply Hfin; [lia|exact Hx]|].
    destruct (in_range 194 223 b0).
    { destruct r0 as [|b1 r1]; [discriminate|]. cbn [app].
      destruct (in_range 128 191 b1); [|discriminate].
      apply Hfin; [cbn [length]; lia|exact Hx]. }
    destruct (in_range 224 239 b0).
    { destruct r0 as [|b1 [|b2 r2]]; try discriminate. cbn [app].
      destruct (_ && _); [|discriminate].
      apply Hfin; [cbn [length]; lia|exact Hx]. }
    destruct (in_range 240 244 b0); [|discriminate].
    destruct r0 as [|b1 [|b2 [|b3 r3]]]; try discriminate. cbn [app].
    destruct (_ && _); [|discriminate].
    apply Hfin; [cbn [length]; lia|exact Hx].
Qed.

Lemma decode_utf8_concat (chunks : list bytes) (texts : list str) :
  Forall2 (fun c t => decode_utf8 c = Some t) chunks texts ->
  decode_utf8 (concat chunks) = Some (concat texts).
Proof.
  induction 1 as [|c t cs ts Hc _ IH]; [reflexivity|].
  cbn [concat]. apply decode_utf8_app; assumption.
Qed.

(** *** Encoding what was decoded *)

Lemma byte_of_to_N x : byte_of (Byte.to_N x) = x.
Proof. unfold byte_of. rewrite Byte.of_to_N. reflexivity. Qed.

Lemma div_mod_pack q r k : r < k -> (q * k + r) / k = q /\ (q * k + r) mod k = r.
Proof.
  intros Hr. split; symmetry;
    [apply (N.div_unique _ _ _ r)|apply (N.mod_unique _ _ q)]; lia.
Qed.

Lemma in_range_spec lo hi x : in_range lo hi x = true -> lo <= Byte.to_N x <= hi.
Proof. unfold in_range. intros E. apply andb_prop in E as [A B]. apply N.leb_le in A, B. lia. Qed.

Ltac ltb_cases :=
  repeat match goal with
  | |- context [?x <? ?y] => destruct (N.ltb_spec x y); try lia
  | |- context [?x <=? ?y] => destruct (N.leb_spec x y); try lia
  end.

Lemma encode_char_2 b0 b1 :
  in_range 0xC2 0xDF b0 = true -> in_range 0x80 0xBF b1 = true ->
  encode_char ((Byte.to_N b0 - 0xC0) * 64 + cont b1) = Some [b0; b1].
Proof.
  intros H0 H1. apply in_range_spec in H0, H1. unfold cont, encode_char.
  destruct (div_mod_pack (Byte.to_N b0 - 0xC0) (Byte.to_N b1 - 0x80) 64) as [D M]; [lia|].
  rewrite D, M. ltb_cases.
  replace (0xC0 + (Byte.to_N b0 - 0xC0)) with (Byte.to_N b0) by lia.
  replace (0x80 + (Byte.to_N b1 - 0x80)) with (Byte.to_N b1) by lia.
  rewrite !byte_of_to_N. reflexivity.
Qed.

Lemma encode_char_3 b0 b1 b2 :
  in_range 0xE0 0xEF b0 = true ->
  in_range (if Byte.to_N b0 =? 0xE0 then 0xA0 else 0x80)
           (if Byte.to_N b0 =? 0xED then 0x9F else 0xBF) b1 = true ->
  in_range 0x80 0xBF b2 = true ->
  encode_char ((Byte.to_N b0 - 0xE0) * 4096 + cont b1 * 64 + cont b2) = Some [b0; b1; b2].
Proof.
  intros H0 H1 H2. apply in_range_spec in H0, H1, H2. unfold cont, encode_char.
  set (n0 := Byte.to_N b0) in *. set (n1 := Byte.to_N b1) in *. set (n2 := Byte.to_N b2) in *.
  destruct (N.eqb_spec n0 0xE0), (N.eqb_spec n0 0xED); try lia.
  all: destruct (div_mod_pack (n0 - 0xE0) ((n1 - 0x80) * 64 + (n2 - 0x80)) 4096) as [D1 _]; [lia|].
  all: destruct (div_mod_pack ((n0 - 0xE0) * 64 + (n1 - 0x80)) (n2 - 0x80) 64) as [D2 M2]; [lia|].
  all: destruct (div_mod_pack (n0 - 0xE0) (n1 - 0x80) 64) as [_ M3]; [lia|].
  all: replace ((n0 - 0xE0) * 4096 + (n1 - 0x80) * 64 + (n2 - 0x80))
         with ((n0 - 0xE0) * 4096 + ((n1 - 0x80) * 64 + (n2 - 0x80))) in * by lia.
  all: rewrite D1.
  all: replace ((n0 - 0xE0) * 4096 + ((n1 - 0x80) * 64 + (n2 - 0x80)))
         with (((n0 - 0xE0) * 64 + (n1 - 0x80)) * 64 + (n2 - 0x80)) in * by lia.
  all: rewrite D2, M2, M3.
  all: ltb_cases; cbn [andb].
  all: replace (0xE0 + (n0 - 0xE0)) with n0 by lia.
  all: replace (0x80 + (n1 - 0x80)) with n1 by lia.
  all: replace (0x80 + (n2 - 0x80)) with n2 by lia.
  all: subst n0 n1 n2; rewrite !byte_of_to_N; reflexivity.
Qed.

Lemma encode_char_4 b0 b1 b2 b3 :
  in_range 0xF0 0xF4 b0 = true ->
  in_range (if Byte.to_N b0 =? 0xF0 then 0x90 else 0x80)
           (if Byte.to_N b0 =? 0xF4 then 0x8F else 0xBF) b1 = true ->
  in_range 0x80 0xBF b2 = true -> in_range 0x80 0xBF b3 = true ->
  encode_char ((Byte.to_N b0 - 0xF0) * 262144 + cont b1 * 4096 + cont b2 * 64 + cont b3)
  = Some [b0; b1; b2; b3].
Proof.
  intros H0 H1 H2 H3. apply in_range_spec in H0, H1, H2, H3. unfold cont, encode_char.
  set (n0 := Byte.to_N b0) in *. set (n1 := Byte.to_N b1) in *.
  set (n2 := Byte.to_N b2) in *. set (n3 := Byte.to_N b3) in *.
  set (c := (n0 - 0xF0) * 262144 + (n1 - 0x80) * 4096 + (n2 - 0x80) * 64 + (n3 - 0x80)).
  assert (E1 : c / 262144 = n0 - 0xF0).
  { subst c. destruct (div_mod_pack (n0 - 0xF0)
      ((n1 - 0x80) * 4096 + (n2 - 0x80) * 64 + (n3 - 0x80)) 262144) as [D _];
      [destruct (N.eqb_spec n0 0xF0), (N.eqb_spec n0 0xF4); lia|].
    rewrite <- D at 2. f_equal. lia. }
  assert (E2 : (c / 4096) mod 64 = n1 - 0x80).
  { subst c. destruct (div_mod_pack ((n0 - 0xF0) * 64 + (n1 - 0x80))
      ((n2 - 0x80) * 64 + (n3 - 0x80)) 4096) as [D _]; [lia|].
    replace ((n0 - 0xF0) * 262144 + (n1 - 0x80) * 4096 + (n2 - 0x80) * 64 + (n3 - 0x80))
      with (((n0 - 0xF0) * 64 + (n1 - 0x80)) * 4096 + ((n2 - 0x80) * 64 + (n3 - 0x80))) by lia.
    rewrite D. apply div_mod_pack.
    destruct (N.eqb_spec n0 0xF0), (N.eqb_spec n0 0xF4); lia. }
  assert (E3 : (c / 64) mod 64 = n2 - 0x80).
  { subst c. destruct (div_mod_pack
      ((n0 - 0xF0) * 4096 + (n1 - 0x80) * 64 + (n2 - 0x80)) (n3 - 0x80) 64) as [D _]; [lia|].
    replace ((n0 - 0xF0) * 262144 + (n1 - 0x80) * 4096 + (n2 - 0x80) * 64 + (n3 - 0x80))
      with (((n0 - 0xF0) * 4096 + (n1 - 0x80) * 64 + (n2 - 0x80)) * 64 + (n3 - 0x80)) by lia.
    rewrite D.
    replace ((n0 - 0xF0) * 4096 + (n1 - 0x80) * 64 + (n2 - 0x80))
      with (((n0 - 0xF0) * 64 + (n1 - 0x80)) * 64 + (n2 - 0x80)) by lia.
    apply div_mod_pack. lia. }
  assert (E4 : c mod 64 = n3 - 0x80).
  { subst c.
    replace ((n0 - 0xF0) * 262144 + (n1 - 0x80) * 4096 + (n2 - 0x80) * 64 + (n3 - 0x80))
      with (((n0 - 0xF0) * 4096 + (n1 - 0x80) * 64 + (n2 - 0x80)) * 64 + (n3 - 0x80)) by lia.
    apply div_mod_pack. lia. }
  rewrite E1, E2, E3, E4.
  assert (0x10000 <= c < 0x110000).
  { subst c. destruct (N.eqb_spec n0 0xF0), (N.eqb_spec n0 0xF4); lia. }
  ltb_cases.
  replace (0xF0 + (n0 - 0xF0)) with n0 by lia.
  replace (0x80 + (n1 - 0x80)) with n1
    by (destruct (N.eqb_spec n0 0xF0), (N.eqb_spec n0 0xF4); lia).
  replace (0x80 + (n2 - 0x80)) with n2 by lia.
  replace (0x80 + (n3 - 0x80)) with n3 by lia.
  subst n0 n1 n2 n3. rewrite !byte_of_to_N. reflexivity.
Qed.

Lemma encode_utf8_cons c r bc br :
  encode_char c = Some bc -> encode_utf8 r = Some br ->
  encode_utf8 (c :: r) = Some (bc ++ br).
Proof. intros Hc Hr. cbn [encode_utf8]. rewrite Hc, Hr. reflexivity. Qed.

(** Text that [decode_utf8] produced encodes to the bytes it came from. *)
Lemma encode_decode_utf8 (bs : bytes) (t : str) :
  decode_utf8 bs = Some t -> encode_utf8 t = Some bs.
Proof.
  remember (length bs) as n eqn:Hn.
  revert bs t Hn. induction n as [n IH] using lt_wf_ind.
  intros [|b0 r0] t Hn Hd.
  - injection Hd as <-. reflexivity.
  - assert (Hfin : forall r c bc, (length r < n)%nat ->
             encode_char c = Some bc ->
             cons c <$> decode_utf8 r = Some t ->
             encode_utf8 t = Some (bc ++ r)).
    { intros r c bc Hlt Hc Hr. apply fmap_Some in Hr as (t' & Hd' & ->).
      apply encode_utf8_cons; [exact Hc|]. exact (IH _ Hlt r t' eq_refl Hd'). }
    subst n. cbn [decode_utf8] in Hd. cbn [length] in Hfin.
    destruct (N.ltb_spec (to_N b0) 128) as [Hlt|_].
    { apply (Hfin r0 (to_N b0) [b0]); [lia| |exact Hd].
      unfold encode_char. destruct (N.ltb_spec (to_N b0) 128); [|lia].
      rewrite byte_of_to_N. reflexivity. }
    destruct (in_range 194 223 b0) eqn:R2.
    { destruct r0 as [|b1 r1]; [discriminate|].
      destruct (in_range 128 191 b1) eqn:C1; [|discriminate].
      refine (Hfin r1 _ [b0; b1] _ _ Hd); [cbn [length]; lia|].
      apply encode_char_2; assumption. }
    destruct (in_range 224 239 b0) eqn:R3.
    { destruct r0 as [|b1 [|b2 r2]]; try discriminate.
      destruct (in_range _ _ b1) eqn:C1; [|discriminate].
      destruct (in_range 128 191 b2) eqn:C2; [|discriminate].
      refine (Hfin r2 _ [b0; b1; b2] _ _ Hd); [cbn [length]; lia|].
      apply encode_char_3; assumption. }
    destruct (in_range 240 244 b0) eqn:R4; [|discriminate].
    destruct r0 as [|b1 [|b2 [|b3 r3]]]; try discriminate.
    destruct (in_range _ _ b1) eqn:C1; [|discriminate].
    destruct (in_range 128 191 b2) eqn:C2; [|discriminate].
    destruct (in_range 128 191 b3) eqn:C3; [|discriminate].
    refine (Hfin r3 _ [b0; b1; b2; b3] _ _ Hd); [cbn [length]; lia|].
    apply encode_char_4; assumption.
Qed.


(** *** Cutting at a separator *)

(** [partition] finds a separator exactly when [sep in s] holds. *)
Lemma partition_contains sep s : is_Some (partition sep s) <-> contains sep s = true.
Proof.
  unfold contains. induction s as [|c r IH]; cbn [partition existsb].
  - split; [intros [? ?]|]; discriminate.
  - rewrite (N.eqb_sym sep c). destruct (c =? sep); cbn [orb]; [split; eauto|].
    rewrite <- IH. destruct (partition sep r) as [[x y]|]; split; eauto;
      intros [? ?]; discriminate.
Qed.

(** [partition] cuts at the first separator. *)
Lemma partition_Some sep s x y :
  partition sep s = Some (x, y) -> s = x ++ sep :: y /\ sep ∉ x.
Proof.
  revert x y. induction s as [|c r IH]; intros x y; cbn [partition]; [discriminate|].
  destruct (N.eqb_spec c sep) as [->|Hne].
  - intros [= <- <-]. split; [reflexivity|]. apply not_elem_of_nil.
  - destruct (partition sep r) as [[x' y']|]; [|discriminate].
    intros [= <- <-]. destruct (IH x' y' eq_refl) as [-> Hx].
    split; [reflexivity|]. rewrite elem_of_cons. intros [->|Hin]; [congruence|tauto].
Qed.

Lemma partition_None sep s : partition sep s = None -> sep ∉ s.
Proof.
  induction s as [|c r IH]; cbn [partition]; intros Hp; [apply not_elem_of_nil|].
  destruct (N.eqb_spec c sep) as [->|Hne]; [discriminate|].
  destruct (partition sep r) as [[x' y']|]; [discriminate|].
  rewrite elem_of_cons. intros [->|Hin]; [congruence|]. exact (IH eq_refl Hin).
Qed.

Lemma partition_app sep x y :
  sep ∉ x -> partition sep (x ++ sep :: y) = Some (x, y).
Proof.
  induction x as [|c r IH]; intros Hx; cbn [app partition].
  - rewrite N.eqb_refl. reflexivity.
  - apply not_elem_of_cons in Hx as [Hc Hr].
    destruct (N.eqb_spec c sep) as [->|_]; [congruence|].
    rewrite (IH Hr). reflexivity.
Qed.


Lemma contains_false sep s : sep ∉ s -> contains sep s = false.
Proof.
  induction s as [|c r IH]; intros Hs; [reflexivity|].
  apply not_elem_of_cons in Hs as [Hc Hr]. cbn.
  destruct (N.eqb_spec sep c) as [->|_]; [congruence|]. exact (IH Hr).
Qed.

End PyFacts.

(** ** The client's receive loop *)

Section ClientFacts.
Import Client.
Context `{Runtime}.

Lemma lines_app (o1 o2 : list output) : lines (o1 ++ o2) = lines o1 ++ lines o2.
Proof. apply omap_app. Qed.

Lemma unlines_app (l1 l2 : list str) : unlines (l1 ++ l2) = unlines l1 ++ unlines l2.
Proof. unfold unlines. apply flat_map_app. Qed.

(** The inner loop moves complete lines from the buffer to the output and
    stops at a buffer without newline. *)
Lemma print_lines_spec (buf : str) (out : list output) :
  unlines (lines (print_lines buf out).2) ++ (print_lines buf out).1
    = unlines (lines out) ++ buf
  /\ LF ∉ (print_lines buf out).1.
Proof.
  funelim (print_lines buf out).
  - match goal with IH : _ /\ _ |- _ => destruct IH as [IH1 IH2] end.
    split; [|exact IH2].
    rewrite IH1. destruct (partition_Some _ _ _ _ e) as [-> _].
    rewrite lines_app, unlines_app. cbn. rewrite <- !app_assoc. reflexivity.
  - split; [reflexivity|]. apply partition_None. exact e.
Qed.

(** The lines and the remainder after the reads are those of the text
    decoded so far; the loop is still running. *)
Lemma receive_loop_chunks (chunks : list bytes) (texts : list str) (st : state) :
  running st = true ->
  Forall (fun c => c <> []) chunks ->
  Forall2 (fun c t => decode_utf8 c = Some t) chunks texts ->
  let st' := receive_loop (map Data chunks) st in
  running st' = true
  /\ reassembled st' = reassembled st ++ concat texts
  /\ (LF ∉ buffer st -> LF ∉ buffer st').
Proof.
  intros Hrun Hne Hdec. revert st Hrun Hne.
  induction Hdec as [|c t cs ts Hc _ IH]; intros st Hrun Hne.
  - cbn. rewrite Hrun. cbn. rewrite app_nil_r. auto.
  - apply Forall_cons in Hne as [Hc0 Hne].
    cbn [map receive_loop]. rewrite Hrun. cbn [negb].
    destruct c as [|c0 c']; [congruence|]. rewrite Hc.
    destruct (print_lines (buffer st ++ t) (stdout st)) as [buf' out'] eqn:Hp.
    pose proof (print_lines_spec (buffer st ++ t) (stdout st)) as [Hs Hnl].
    rewrite Hp in Hs, Hnl. cbn [fst snd] in Hs, Hnl.
    specialize (IH {| running := true; buffer := buf'; stdout := out' |} eq_refl Hne).
    cbn zeta in IH. destruct IH as (IH1 & IH2 & IH3).
    split; [exact IH1|]. split.
    + rewrite IH2. unfold reassembled at 1. cbn [buffer stdout].
      rewrite Hs. unfold reassembled. cbn [concat]. rewrite <- !app_assoc. reflexivity.
    + intros _. apply IH3. exact Hnl.
Qed.



(** C3, as the code has it: for every sequence of non-empty chunks each of
    which is valid UTF-8 on its own, the lines printed by the receive loop
    with their newlines put back, followed by the buffer that remains, are
    the decoded chunks in order, hence the text of the concatenated input,
    and encode to exactly the bytes received; the remainder holds no
    newline and the loop is still running. *)
Theorem receive_messages_reassembles (chunks : list bytes) (texts : list str) :
  Forall (fun c => c <> []) chunks ->
  Forall2 (fun c t => decode_utf8 c = Some t) chunks texts ->
  let st := _receive_messages (map Data chunks) initial in
  running st = true
  /\ reassembled st = concat texts
  /\ reassembles chunks st
  /\ encode_utf8 (reassembled st) = Some (concat chunks)
  /\ LF ∉ buffer st.
Proof.
  intros Hne Hdec st.
  destruct (receive_loop_chunks chunks texts initial eq_refl Hne Hdec)
    as (Hrun & Hre & Hnl).
  cbv zeta in Hrun, Hre, Hnl.
  change (receive_loop (map Data chunks) initial) with st in Hrun, Hre, Hnl.
  change (reassembled initial) with (@nil N) in Hre. cbn [app] in Hre.
  repeat split; [exact Hrun|exact Hre| | |apply Hnl, not_elem_of_nil].
  - unfold reassembles. rewrite Hre. apply decode_utf8_concat. exact Hdec.
  - rewrite Hre. apply encode_decode_utf8, decode_utf8_concat. exact Hdec.
Qed.

End ClientFacts.

Lemma receive_messages_reassembles_witness :
  let chunks := [b "ab"; b "c" ++ nl ++ b "de"] in
  let st := @Client._receive_messages bare (map Client.Data chunks) Client.initial in
  Client.running st = true
  /\ Client.reassembled st = concat [u "ab"; u "c" ++ [LF] ++ u "de"]
  /\ Client.reassembles chunks st
  /\ encode_utf8 (Client.reassembled st) = Some (concat chunks)
  /\ LF ∉ Client.buffer st.
Proof.
  apply (@receive_messages_reassembles bare
           [b "ab"; b "c" ++ nl ++ b "de"] [u "ab"; u "c" ++ [LF] ++ u "de"]).
  - repeat constructor; discriminate.
  - repeat constructor.
Defined.

(** C3 fails as stated: the two bytes of one character arrive in two reads.
    The stream is valid UTF-8, the first read is not; the loop stops on the
    decoding error, having printed no line and holding an empty buffer. *)
Lemma split_character_is_not_reassembled :
  let chunks := [[xc3]; [xa9]] in
  let st := @Client._receive_messages bare (map Client.Data chunks) Client.initial in
  decode_utf8 (concat chunks) = Some [233]
  /\ Client.reassembled st = []
  /\ Client.running st = false
  /\ ~ Client.reassembles chunks st
  /\ encode_utf8 (Client.reassembled st) <> Some (concat chunks).
Proof.
  cbv zeta. repeat split; try reflexivity.
  - unfold Client.reassembles. vm_compute. discriminate.
  - vm_compute. discriminate.
Qed.

(** ** The server: one connection *)

Section ServerFacts.
Import Server.
Context `{Runtime}.

(** *** Writing to a socket *)

Lemma is_closed_write h' h data st : is_closed h' (write h data st) = is_closed h' st.
Proof.
  unfold is_closed, write. cbn. rewrite lookup_alter.
  destruct (decide (h = h')) as [->|]; [|reflexivity].
  destruct (sockets st !! h'); reflexivity.
Qed.

Lemma is_closed_logging h r st : is_closed h (logging r st) = is_closed h st.
Proof. reflexivity. Qed.

Lemma is_closed_close h st : is_closed h (close h st) = true.
Proof.
  unfold is_closed, close. cbn. rewrite lookup_alter_eq.
  destruct (sockets st !! h); reflexivity.
Qed.

Lemma is_closed_close_other h h' st :
  is_closed h' st = true -> is_closed h' (close h st) = true.
Proof.
  unfold is_closed, close. cbn. rewrite lookup_alter.
  destruct (decide (h = h')) as [->|]; [|auto].
  destruct (sockets st !! h'); reflexivity.
Qed.

Lemma sent_on_write h data st :
  is_closed h st = false -> sent_on h (write h data st) = sent_on h st ++ [data].
Proof.
  unfold is_closed, sent_on, write. cbn. rewrite lookup_alter_eq.
  destruct (sockets st !! h); [reflexivity|discriminate].
Qed.

Lemma sent_on_close h' h st : sent_on h' (close h st) = sent_on h' st.
Proof.
  unfold sent_on, close. cbn. rewrite lookup_alter.
  destruct (decide (h = h')) as [->|]; [|reflexivity].
  destruct (sockets st !! h'); reflexivity.
Qed.

Lemma dispatched_logging r st :
  dispatched (logging r st)
  = dispatched st ++ match r with Info_received _ data => [data] | _ => [] end.
Proof.
  unfold dispatched. cbn [logging log]. rewrite omap_app.
  destruct r; cbn; rewrite ?app_nil_r; reflexivity.
Qed.

(** *** [_send_response] *)

Lemma send_response_open h message data st :
  is_closed h st = false ->
  encode_utf8 (message ++ [LF]) = Some data ->
  _send_response h message st = write h data st.
Proof.
  intros Hopen Henc. unfold _send_response, sendall. rewrite Henc, Hopen. reflexivity.
Qed.

Lemma send_response_closed h message st :
  is_closed h st = true ->
  exists e, _send_response h message st = logging (Error_sending e) st.
Proof.
  intros Hc. unfold _send_response, sendall. rewrite Hc.
  destruct (encode_utf8 _); eexists; reflexivity.
Qed.

Lemma untouched_refl st : untouched st st.
Proof. repeat split. Qed.

Lemma untouched_trans st1 st2 st3 :
  untouched st1 st2 -> untouched st2 st3 -> untouched st1 st3.
Proof.
  intros (A1 & A2 & A3 & A4) (B1 & B2 & B3 & B4).
  do 3 (split; [congruence|]). intros h. rewrite B4. apply A4.
Qed.

Lemma untouched_write h data st : untouched st (write h data st).
Proof. repeat split. intros h'. apply is_closed_write. Qed.

Lemma untouched_logging r st :
  (forall a data, r <> Info_received a data) -> untouched st (logging r st).
Proof.
  intros Hr. repeat split. rewrite dispatched_logging.
  destruct r; rewrite ?app_nil_r; try reflexivity. edestruct Hr; reflexivity.
Qed.

Lemma untouched_send_response h message st : untouched st (_send_response h message st).
Proof.
  unfold _send_response, sendall.
  destruct (encode_utf8 _); [destruct (is_closed h st)|];
    try apply untouched_write; apply untouched_logging; discriminate.
Qed.

(** *** The handler table *)

Lemma lookup_handler_cases command :
  (command = u "HELLO" /\ lookup_handler command = Some _handle_hello)
  \/ (command = u "ECHO" /\ lookup_handler command = Some _handle_echo)
  \/ (command = u "EXIT" /\ lookup_handler command = Some _handle_exit)
  \/ (command = u "HELP" /\ lookup_handler command = Some _handle_help)
  \/ ((command ∉ [u "HELLO"; u "ECHO"; u "EXIT"; u "HELP"])
      /\ lookup_handler command = None).
Proof.
  unfold lookup_handler, command_handlers. cbn [List.find fst snd].
  repeat case_bool_decide; subst; auto 10.
  right. right. right. right. split; [|reflexivity].
  rewrite !elem_of_cons, elem_of_nil. intros [?|[?|[?|[?|[]]]]]; congruence.
Qed.

Lemma lookup_handler_hello : lookup_handler (u "HELLO") = Some _handle_hello.
Proof. reflexivity. Qed.

Lemma lookup_handler_echo : lookup_handler (u "ECHO") = Some _handle_echo.
Proof. reflexivity. Qed.

Lemma lookup_handler_exit : lookup_handler (u "EXIT") = Some _handle_exit.
Proof. reflexivity. Qed.

Lemma untouched_hello h arg st : untouched st (_handle_hello h arg st).
Proof. apply untouched_send_response. Qed.

Lemma untouched_echo h arg st : untouched st (_handle_echo h arg st).
Proof. unfold _handle_echo. destruct arg; apply untouched_send_response. Qed.

Lemma untouched_help h arg st : untouched st (_handle_help h arg st).
Proof. apply untouched_send_response. Qed.

(** Every command but [EXIT] leaves the connection as it is. *)
Lemma untouched_dispatch command arg h st :
  command <> u "EXIT" -> untouched st (dispatch command arg h st).
Proof.
  intros Hne. unfold dispatch.
  destruct (lookup_handler_cases command)
    as [[_ ->]|[[_ ->]|[[? _]|[[_ ->]|[_ ->]]]]]; [| |congruence| |].
  - apply untouched_hello.
  - apply untouched_echo.
  - apply untouched_help.
  - apply untouched_send_response.
Qed.

Lemma clients_send_response h message st : clients (_send_response h message st) = clients st.
Proof. apply untouched_send_response. Qed.

(** No command changes the registry or the [running] flag. *)
Lemma dispatch_keeps_server command arg h st :
  clients (dispatch command arg h st) = clients st
  /\ running (dispatch command arg h st) = running st
  /\ dispatched (dispatch command arg h st) = dispatched st.
Proof.
  destruct (decide (command = u "EXIT")) as [->|Hne].
  - unfold dispatch. rewrite lookup_handler_exit. unfold _handle_exit.
    destruct (untouched_send_response h (u "Goodbye!") st) as (A & B & C & _).
    destruct (in_values h _); cbn; auto.
  - destruct (untouched_dispatch command arg h st Hne) as (A & B & C & _). auto.
Qed.

(** *** The serving loop *)

Lemma serve_stopped recvs a h st :
  running st = false -> serve recvs a h st = (st, Left).
Proof. intros Hr. destruct recvs; cbn [serve]; rewrite Hr; reflexivity. Qed.

Lemma serve_closed recvs a h st :
  running st = true -> is_closed h st = true ->
  serve recvs a h st = (on_exception a h EBADF st, Left).
Proof. intros Hr Hc. destruct recvs; cbn [serve]; rewrite Hr, Hc; reflexivity. Qed.

Lemma serve_nil a h st :
  running st = true -> is_closed h st = false -> serve [] a h st = (st, Blocked).
Proof. intros Hr Hc. cbn [serve]. rewrite Hr, Hc. reflexivity. Qed.

(** A read whose text is not blank is logged and processed, and the loop
    goes on with the next read. *)
Lemma serve_data raw text recvs a h st :
  running st = true -> is_closed h st = false ->
  decode_utf8 raw = Some text -> strip text <> [] ->
  serve (Data raw :: recvs) a h st
  = serve recvs a h
      (process_command h (strip text) (logging (Info_received a (strip text)) st)).
Proof.
  intros Hr Hc Hd Hs. cbn [serve]. rewrite Hr, Hc, Hd. cbn [negb].
  destruct (strip text); [congruence|reflexivity].
Qed.

(** A read whose text is blank ends the loop with nothing done. *)
Lemma serve_blank raw text recvs a h st :
  running st = true -> is_closed h st = false ->
  decode_utf8 raw = Some text -> strip text = [] ->
  serve (Data raw :: recvs) a h st = (st, Left).
Proof.
  intros Hr Hc Hd Hs. cbn [serve]. rewrite Hr, Hc, Hd, Hs. reflexivity.
Qed.

Lemma serve_blocked recvs a h st st' :
  serve recvs a h st = (st', Blocked) -> running st' = true /\ is_closed h st' = false.
Proof.
  revert st. induction recvs as [|r recvs IH]; intros st; cbn [serve];
    destruct (running st) eqn:Hr; cbn [negb]; try discriminate;
    destruct (is_closed h st) eqn:Hc; try discriminate.
  - intros [= <-]. auto.
  - destruct r as [raw|e]; [|discriminate].
    destruct (decode_utf8 raw); [|discriminate].
    destruct (strip s); [discriminate|]. apply IH.
Qed.

Lemma serve_app recvs1 recvs2 a h st :
  serve (recvs1 ++ recvs2) a h st
  = match serve recvs1 a h st with
    | (st1, Blocked) => serve recvs2 a h st1
    | (st1, Left) => (st1, Left)
    end.
Proof.
  revert st. induction recvs1 as [|r recvs1 IH]; intros st.
  - cbn [app]. destruct (running st) eqn:Hr.
    + destruct (is_closed h st) eqn:Hc.
      * rewrite !serve_closed by assumption. reflexivity.
      * rewrite serve_nil by assumption. reflexivity.
    + rewrite !serve_stopped by assumption. reflexivity.
  - cbn [app serve]. destruct (negb (running st)); [reflexivity|].
    destruct (is_closed h st); [reflexivity|].
    destruct r as [raw|e]; [|reflexivity].
    destruct (decode_utf8 raw); [|reflexivity].
    destruct (strip s); [reflexivity|]. apply IH.
Qed.

Lemma clients_on_exception a h e st : clients (on_exception a h e st) = clients st.
Proof.
  unfold on_exception.
  destruct e; cbn [is_Exception]; try reflexivity; rewrite clients_send_response; reflexivity.
Qed.

(** The loop never changes the registry. *)
Lemma clients_serve recvs a h st : clients (serve recvs a h st).1 = clients st.
Proof.
  revert st. induction recvs as [|r recvs IH]; intros st; cbn [serve];
    destruct (negb (running st)); try reflexivity;
    destruct (is_closed h st); cbn [fst]; try apply clients_on_exception; try reflexivity.
  destruct r as [raw|e]; cbn [fst]; [|apply clients_on_exception].
  destruct (decode_utf8 raw); cbn [fst]; [|apply clients_on_exception].
  destruct (strip s) as [|c0 d]; [reflexivity|]. rewrite IH.
  unfold process_command. destruct (parse _) as [command arg].
  destruct (dispatch_keeps_server command arg h (logging (Info_received a (c0 :: d)) st))
    as [-> _].
  reflexivity.
Qed.

Lemma strip_blank text : forallb isspace text = true -> strip text = [].
Proof.
  intros Hb. unfold strip. assert (lstrip text = []) as ->; [|reflexivity].
  induction text as [|c r IH]; [reflexivity|]. cbn in *.
  apply andb_prop in Hb as [-> Hr]. auto.
Qed.

Lemma parse_nil : parse [] = ([], []).
Proof. reflexivity. Qed.

(** C1, as the code has it: the handler keeps no buffer between reads.
    Every read whose decoded text is not blank is taken up whole, with the
    surrounding whitespace stripped, as one command, in the order of the
    reads, whatever newlines it holds: it is logged, cut at its first space
    into keyword and argument, and dispatched once, before the next read is
    looked at; as long as no command is [EXIT] the handler then waits for
    the next read. *)
Theorem serve_dispatches_each_read (reads : list bytes) (texts : list str) a h st :
  running st = true -> is_closed h st = false ->
  Forall2 (fun c t => decode_utf8 c = Some t) reads texts ->
  Forall (fun t => strip t <> [] /\ (parse (strip t)).1 <> u "EXIT") texts ->
  let take_up s text :=
    dispatch (parse (strip text)).1 (parse (strip text)).2 h
      (logging (Info_received a (strip text)) s) in
  serve (map Data reads) a h st = (foldl take_up st texts, Blocked)
  /\ (serve (map Data reads) a h st).2 = Blocked
  /\ dispatched (serve (map Data reads) a h st).1 = dispatched st ++ map strip texts.
Proof.
  intros Hr Hc Hdec. revert st Hr Hc.
  induction Hdec as [|c t cs ts Hd _ IH]; intros st Hr Hc Hall; cbv zeta.
  - cbn [map foldl]. rewrite serve_nil by assumption. cbn. rewrite app_nil_r. auto.
  - apply Forall_cons in Hall as [[Hs Hne] Hall].
    cbn [map foldl]. rewrite (serve_data c t) by assumption.
    unfold process_command. destruct (parse (strip t)) as [command arg].
    cbn [fst snd] in *.
    pose proof (untouched_dispatch command arg h
                  (logging (Info_received a (strip t)) st) Hne) as (A & B & C & D).
    match goal with |- context [serve _ a h ?s] => set (st1 := s) in * end.
    destruct (IH st1) as (IH0 & IH1 & IH2); [rewrite A; exact Hr|rewrite D; exact Hc|exact Hall|].
    split; [exact IH0|]. split; [exact IH1|]. rewrite IH2, C, dispatched_logging.
    cbn [map]. rewrite <- app_assoc. reflexivity.
Qed.


Lemma in_values_lookup (a : address) (h : handle) (m : gmap address handle) :
  m !! a = Some h -> in_values h m = true.
Proof.
  intros Hm. unfold in_values. apply bool_decide_eq_true.
  apply list_elem_of_fmap. exists (a, h). split; [reflexivity|].
  apply elem_of_map_to_list. exact Hm.
Qed.

Lemma clients_unregister a st : clients (unregister a st) !! a = None.
Proof.
  unfold unregister. case_bool_decide as Hin.
  - cbn. apply lookup_delete_eq.
  - apply not_elem_of_dom. exact Hin.
Qed.

(** What the [finally] clause leaves: the address is gone, the socket is
    closed, nothing more is written. *)
Lemma cleanup_spec a h st :
  clients (cleanup a h st) !! a = None
  /\ is_closed h (cleanup a h st) = true
  /\ sent_on h (cleanup a h st) = sent_on h st.
Proof.
  unfold cleanup. repeat split.
  - cbn. apply clients_unregister.
  - rewrite is_closed_logging. apply is_closed_close.
  - unfold sent_on at 1. cbn [logging sockets]. fold (sent_on h (close h (unregister a st))).
    rewrite sent_on_close. unfold unregister. case_bool_decide; reflexivity.
Qed.

(** C5: once a handler that is waiting in [recv] reads a command whose
    keyword upper-cases to [EXIT], whatever its argument, [Goodbye!] and a
    newline is the last thing written to the connection, the socket is
    closed, the loop is left whatever comes after, and the address is no
    longer registered.  A closed socket delivers end of stream to its
    peer. *)
Theorem exit_says_goodbye_then_closes pre raw text post a h st st1 :
  _handle_client pre a h st = (st1, Blocked) ->
  decode_utf8 raw = Some text -> (parse (strip text)).1 = u "EXIT" ->
  let r := _handle_client (pre ++ Data raw :: post) a h st in
  r.2 = Left
  /\ sent_on h r.1 = sent_on h st1 ++ [b "Goodbye!" ++ nl]
  /\ is_closed h r.1 = true
  /\ clients r.1 !! a = None.
Proof.
  unfold _handle_client. intros Hpre Hd Hexit.
  set (st2 := _send_response h welcome (with_clients (insert a h) st)) in *.
  pose proof (clients_serve pre a h st2) as Hcl.
  destruct (serve pre a h st2) as [st3 [|]] eqn:Hserve; [|discriminate].
  injection Hpre as ->. cbn [fst] in Hcl.
  destruct (serve_blocked _ _ _ _ _ Hserve) as [Hr Hc].
  assert (Hreg : clients st1 !! a = Some h).
  { rewrite Hcl. subst st2. rewrite clients_send_response. cbn. apply lookup_insert_eq. }
  assert (Hs : strip text <> []).
  { intros E. rewrite E, parse_nil in Hexit. discriminate. }
  rewrite serve_app, Hserve, (serve_data raw text) by assumption.
  unfold process_command. destruct (parse (strip text)) as [command arg].
  cbn [fst] in Hexit. subst command.
  unfold dispatch. rewrite lookup_handler_exit. unfold _handle_exit.
  set (st4 := logging (Info_received a (strip text)) st1).
  rewrite (send_response_open h (u "Goodbye!") (b "Goodbye!" ++ nl) st4 Hc eq_refl).
  rewrite (in_values_lookup a) by exact Hreg.
  rewrite serve_closed; [|exact Hr|apply is_closed_close].
  cbv zeta. cbn [fst snd].
  destruct (cleanup_spec a h (on_exception a h EBADF (close h (write h (b "Goodbye!" ++ nl) st4))))
    as (C1 & C2 & C3).
  repeat split; [|exact C2|exact C1]. rewrite C3.
  unfold on_exception, EBADF. cbn [is_Exception].
  destruct (send_response_closed h (u "ERROR: " ++ exc_str (OSError (u "[Errno 9] Bad file descriptor")))
              (logging (Error_handling a (OSError (u "[Errno 9] Bad file descriptor")))
                 (close h (write h (b "Goodbye!" ++ nl) st4))))
    as [e ->]; [apply is_closed_close|].
  unfold sent_on at 1. cbn [logging sockets].
  fold (sent_on h (close h (write h (b "Goodbye!" ++ nl) st4))).
  rewrite sent_on_close, sent_on_write by exact Hc. reflexivity.
Qed.

(** C6: for [HELLO] and [ECHO] the handlers write what the command table
    of the specification prescribes, followed by a newline. *)
Theorem hello_echo_follow_table command arg response payload h st :
  table_response command arg = Some response ->
  encode_utf8 (response ++ [LF]) = Some payload ->
  is_closed h st = false ->
  dispatch command arg h st = write h payload st.
Proof.
  unfold table_response. intros Ht Henc Hc. unfold dispatch.
  case_bool_decide as Hhello; [subst command|case_bool_decide as Hecho; [subst command|discriminate]].
  - rewrite lookup_handler_hello. unfold _handle_hello.
    injection Ht as <-. apply send_response_open; [exact Hc|].
    destruct arg; exact Henc.
  - rewrite lookup_handler_echo. unfold _handle_echo.
    injection Ht as <-. destruct arg; apply send_response_open; assumption.
Qed.

(** *** Keyword and argument *)









Lemma dispatched_cleanup a h st : dispatched (cleanup a h st) = dispatched st.
Proof.
  unfold cleanup. rewrite dispatched_logging, app_nil_r.
  unfold unregister. case_bool_decide; reflexivity.
Qed.

Lemma log_cleanup a h st : log (cleanup a h st) = log st ++ [Info_disconnected a].
Proof. unfold cleanup, unregister. case_bool_decide; reflexivity. Qed.

(** How [_handle_client] goes on from a state in which it waits in [recv]. *)
Lemma handle_client_resume pre rest a h st st1 :
  _handle_client pre a h st = (st1, Blocked) ->
  running st1 = true /\ is_closed h st1 = false /\ clients st1 !! a = Some h
  /\ _handle_client (pre ++ rest) a h st
     = match serve rest a h st1 with
       | (st3, Left) => (cleanup a h st3, Left)
       | (st3, Blocked) => (st3, Blocked)
       end.
Proof.
  unfold _handle_client.
  set (st2 := _send_response h welcome (with_clients (insert a h) st)).
  pose proof (clients_serve pre a h st2) as Hcl. rewrite serve_app.
  destruct (serve pre a h st2) as [st3 [|]] eqn:Hs; [|discriminate].
  intros [= ->]. cbn [fst] in Hcl.
  destruct (serve_blocked _ _ _ _ _ Hs) as [Hr Hc].
  repeat split; [exact Hr|exact Hc|].
  rewrite Hcl. subst st2. rewrite clients_send_response. cbn. apply lookup_insert_eq.
Qed.

(** C10: a read that is not empty but decodes to whitespace only is
    handled exactly as the empty read of a closed peer.  When the handler
    was waiting, the loop is left with nothing taken up as a command,
    nothing logged but the disconnection and nothing answered; later reads
    are never looked at, and the [finally] clause closes the socket.  When
    the handler had returned before, the read is not looked at either. *)
Theorem whitespace_only_read_ends_connection pre raw text post a h st :
  raw <> [] -> decode_utf8 raw = Some text -> forallb isspace text = true ->
  let r := _handle_client (pre ++ Data raw :: post) a h st in
  r = _handle_client (pre ++ [Data []]) a h st
  /\ r.2 = Left
  /\ is_closed h r.1 = true
  /\ (forall st1, _handle_client pre a h st = (st1, Blocked) ->
        r.1 = cleanup a h st1
        /\ dispatched r.1 = dispatched st1
        /\ sent_on h r.1 = sent_on h st1
        /\ log r.1 = log st1 ++ [Info_disconnected a])
  /\ ((_handle_client pre a h st).2 = Left -> r = _handle_client pre a h st).
Proof.
  intros _ Hd Hb. cbv zeta.
  split; [|split; [|split; [|split]]].
  - unfold _handle_client.
    set (st2 := _send_response h welcome (with_clients (insert a h) st)).
    rewrite !serve_app.
    destruct (serve pre a h st2) as [st3 [|]] eqn:Hserve; [|reflexivity].
    destruct (serve_blocked _ _ _ _ _ Hserve) as [Hr Hc].
    rewrite (serve_blank raw text) by (auto using strip_blank).
    rewrite (serve_blank [] []) by auto. reflexivity.
  - unfold _handle_client.
    set (st2 := _send_response h welcome (with_clients (insert a h) st)).
    rewrite serve_app.
    destruct (serve pre a h st2) as [st3 [|]] eqn:Hserve; [|reflexivity].
    destruct (serve_blocked _ _ _ _ _ Hserve) as [Hr Hc].
    rewrite (serve_blank raw text) by (auto using strip_blank). reflexivity.
  - unfold _handle_client.
    set (st2 := _send_response h welcome (with_clients (insert a h) st)).
    rewrite serve_app.
    destruct (serve pre a h st2) as [st3 [|]] eqn:Hserve; [|apply cleanup_spec].
    destruct (serve_blocked _ _ _ _ _ Hserve) as [Hr Hc].
    rewrite (serve_blank raw text) by (auto using strip_blank). apply cleanup_spec.
  - intros st1 Hpre.
    destruct (handle_client_resume pre (Data raw :: post) a h st st1 Hpre)
      as (Hr & Hc & _ & E).
    rewrite E, (serve_blank raw text) by (auto using strip_blank). cbn [fst].
    split; [reflexivity|]. split; [apply dispatched_cleanup|].
    split; [apply cleanup_spec|apply log_cleanup].
  - unfold _handle_client.
    set (st2 := _send_response h welcome (with_clients (insert a h) st)).
    rewrite serve_app.
    destruct (serve pre a h st2) as [st3 [|]]; [discriminate|reflexivity].
Qed.

End ServerFacts.

(** ** Start-up *)

Section StartFacts.
Import Server.
Context `{Runtime}.

(** Closing sockets touches nothing but the sockets. *)
Lemma close_all_keeps st :
  log (close_all st) = log st /\ stdout (close_all st) = stdout st
  /\ clients (close_all st) = clients st.
Proof.
  unfold close_all. generalize ((map_to_list (clients st)).*2). intros hs.
  revert st. induction hs as [|x hs IH]; intros st; [auto|].
  cbn [foldl]. destruct (IH (close x st)) as (-> & -> & ->). auto.
Qed.

Lemma stdout_stop st : stdout (stop st) = stdout st.
Proof.
  unfold stop. cbn [logging with_clients stdout].
  destruct (close_all_keeps
              (match server_socket (with_running false st) with
               | Some l => close l (with_running false st)
               | None => with_running false st end)) as (_ & -> & _).
  destruct (server_socket _); reflexivity.
Qed.

Lemma log_close_all st : log (close_all st) = log st.
Proof. apply close_all_keeps. Qed.

(** Whatever [start] lets out is no [Exception]: its [except] clause has
    swallowed every [OSError] of [bind]. *)
Lemma start_swallows_exceptions env st e :
  (start env st).2 = Propagated e -> is_Exception e = false.
Proof.
  unfold start. destruct (start_body env st) as [st' [| e' |]]; cbn; try discriminate.
  destruct (is_Exception e') eqn:E; cbn; [discriminate|]. intros [= <-]. exact E.
Qed.

(** C2 at the failing input, for any exception that [bind] raises on port
    5001: [start] logs it and returns, so [main] leaves its loop after the
    first attempt and returns 0.  No second port is tried and nothing is
    reported by [main]. *)
Theorem main_does_not_retry env e :
  bind_error env 5001%Z = Some e -> is_Exception e = true ->
  (main env).2 = Exit 0
  /\ stdout (main env).1 = [Starting_on 5001%Z]
  /\ log (main env).1 = [Error_server e; Info_stopped].
Proof.
  intros Hb He. unfold main. cbn [seq max_attempts main_loop].
  unfold start, start_body. cbn [port with_server_socket with_sockets print MCPServer].
  rewrite Hb, He. cbn [fst snd]. split; [reflexivity|]. split.
  - rewrite stdout_stop. reflexivity.
  - unfold stop. cbn [logging with_clients log]. rewrite log_close_all.
    destruct (server_socket _); reflexivity.
Qed.

Lemma stdout_accept_loop acc st : stdout (accept_loop acc st).1 = stdout st.
Proof.
  revert st. induction acc as [|r acc IH]; intros st; cbn [accept_loop];
    destruct (negb (running st)); try reflexivity.
  destruct r as [h a|e]; [rewrite IH; reflexivity|].
  destruct (is_OSError e); [|reflexivity]. rewrite IH.
  destruct (running st); reflexivity.
Qed.

Lemma stdout_start env st : stdout (start env st).1 = stdout st.
Proof.
  unfold start.
  assert (stdout (start_body env st).1 = stdout st) as E.
  { unfold start_body. destruct (bind_error env _); [reflexivity|].
    rewrite stdout_accept_loop. reflexivity. }
  destruct (start_body env st) as [st' [|e|]]; cbn [fst] in *;
    [|destruct (is_Exception e); cbn [fst]|]; rewrite ?stdout_stop; exact E.
Qed.

(** Whatever the environment does, [main] announces port 5001 and no other
    port, and it never returns 1 from its [except OSError] clause: it
    returns 0 or is still serving. *)
Lemma main_tries_one_port env :
  stdout (main env).1 = [Starting_on 5001%Z]
  /\ ((main env).2 = Exit 0 \/ (main env).2 = Serving).
Proof.
  unfold main. cbn [seq max_attempts main_loop].
  set (st1 := print (Starting_on 5001%Z) (MCPServer "0.0.0.0" 5001%Z process)).
  pose proof (stdout_start env st1) as Hout.
  pose proof (start_swallows_exceptions env st1) as Hexc.
  destruct (start env st1) as [st2 [|e|]]; cbn [fst snd] in *; [auto| |auto].
  specialize (Hexc e eq_refl). destruct e; try discriminate.
  cbn [is_OSError fst snd]. rewrite stdout_stop. auto.
Qed.

End StartFacts.

(** ** The registry *)

Section RegistryFacts.
Import Server Threads.
Context `{Runtime}.

Lemma unregister_absent a st : clients st !! a = None -> unregister a st = st.
Proof.
  intros Ha. unfold unregister. case_bool_decide as Hin; [|reflexivity].
  apply elem_of_dom in Hin as [h Hh]. congruence.
Qed.

Lemma unregister_idempotent a st : unregister a (unregister a st) = unregister a st.
Proof. apply unregister_absent, clients_unregister. Qed.

Lemma close_all_empty st : clients st = ∅ -> close_all st = st.
Proof. intros E. unfold close_all. rewrite E, map_to_list_empty. reflexivity. Qed.

Lemma covered_spawn conns st : clients st = ∅ -> covered (spawn conns st).
Proof. intros E a h. cbn. rewrite E, lookup_empty. discriminate. Qed.

Lemma clients_step_stop p st :
  clients (step_stop p st).2 = clients st \/ clients (step_stop p st).2 = ∅.
Proof.
  destruct p as [|used pos| | |e]; cbn; auto.
  - destruct (server_socket st); auto.
  - case_bool_decide; [|auto]. destruct (_ !! pos); auto.
Qed.

Lemma covered_step s t : covered s -> covered (step s t).
Proof.
  intros Hcov. destruct t as [i|]; cbn [step].
  - destruct (handlers s !! i) as [th|] eqn:Hi; [|exact Hcov].
    destruct (step_handler th (server s)) as [th' st'] eqn:Hstep.
    intros a h Ha. cbn [server handlers] in *.
    assert (Hlt : (i < length (handlers s))%nat) by (eapply lookup_lt_Some; eauto).
    assert (Hkeep : forall j t, handlers s !! j = Some t -> peer t = a ->
                      (pc t = Registered \/ pc t = AtDelete) ->
                      (j = i -> peer th' = a /\ (pc th' = Registered \/ pc th' = AtDelete)) ->
                      exists k t, <[i:=th']> (handlers s) !! k = Some t /\ peer t = a
                                  /\ (pc t = Registered \/ pc t = AtDelete)).
    { intros j t Hj Hp Hpc Hsame. destruct (decide (j = i)) as [->|Hne].
      - exists i, th'. rewrite list_lookup_insert_eq by exact Hlt. destruct (Hsame eq_refl). auto.
      - exists j, t. rewrite list_lookup_insert_ne by congruence.
        repeat split; assumption. }
    unfold step_handler in Hstep. destruct (pc th) eqn:Hpc.
    + injection Hstep as <- <-. cbn in Ha.
      destruct (decide (peer th = a)) as [<-|Hne].
      * exists i, (at_pc th Registered). rewrite list_lookup_insert_eq by exact Hlt. auto.
      * rewrite lookup_insert_ne in Ha by exact Hne.
        destruct (Hcov a h Ha) as (j & t & Hj & Hp & Hq).
        apply (Hkeep j t Hj Hp Hq). intros ->. congruence.
    + destruct (Hcov a h) as (j & t & Hj & Hp & Hq).
      { revert Hstep. case_bool_decide; intros [= <- <-]; exact Ha. }
      apply (Hkeep j t Hj Hp Hq). intros ->. assert (t = th) as -> by congruence.
      revert Hstep. case_bool_decide as Hin; intros [= <- <-]; cbn; [auto|].
      exfalso. apply Hin, elem_of_dom. rewrite Hp. eauto.
    + destruct (clients (server s) !! peer th) eqn:Hth; injection Hstep as <- <-.
      * cbn in Ha. apply lookup_delete_Some in Ha as [Hne Ha].
        destruct (Hcov a h Ha) as (j & t & Hj & Hp & Hq).
        apply (Hkeep j t Hj Hp Hq). intros ->. congruence.
      * destruct (Hcov a h Ha) as (j & t & Hj & Hp & Hq).
        apply (Hkeep j t Hj Hp Hq). intros ->. congruence.
    + injection Hstep as <- <-. cbn in Ha.
      destruct (Hcov a h Ha) as (j & t & Hj & Hp & Hq).
      apply (Hkeep j t Hj Hp Hq). intros ->. assert (t = th) by congruence. subst t.
      destruct Hq; congruence.
    + injection Hstep as <- <-.
      destruct (Hcov a h Ha) as (j & t & Hj & Hp & Hq).
      apply (Hkeep j t Hj Hp Hq). intros ->. assert (t = th) by congruence. subst t.
      destruct Hq; congruence.
    + injection Hstep as <- <-.
      destruct (Hcov a h Ha) as (j & t & Hj & Hp & Hq).
      apply (Hkeep j t Hj Hp Hq). intros ->. assert (t = th) by congruence. subst t.
      destruct Hq; congruence.
  - destruct (step_stop (stopper s) (server s)) as [p' st'] eqn:Hstep.
    intros a h Ha. cbn [server handlers] in *.
    destruct (clients_step_stop (stopper s) (server s)) as [E|E];
      rewrite Hstep in E; cbn [snd] in E; rewrite E in Ha.
    + exact (Hcov a h Ha).
    + rewrite lookup_empty in Ha. discriminate.
Qed.

Lemma covered_exec sched s : covered s -> covered (exec sched s).
Proof.
  revert s. induction sched as [|t sched IH]; intros s Hs; [exact Hs|].
  apply IH, covered_step, Hs.
Qed.

(** When every handler is through, nothing is registered. *)
Lemma covered_finished s :
  covered s -> forallb finished (handlers s) = true -> clients (server s) = ∅.
Proof.
  intros Hcov Hfin. apply map_empty. intros a.
  destruct (clients (server s) !! a) as [h|] eqn:Ha; [|reflexivity].
  destruct (Hcov a h Ha) as (i & t & Hi & _ & Hpc).
  rewrite forallb_forall in Hfin.
  assert (finished t = true) as Hf.
  { apply Hfin. apply list_elem_of_In. eapply list_elem_of_lookup_2. exact Hi. }
  unfold finished in Hf. destruct Hpc as [E|E]; rewrite E in Hf; discriminate.
Qed.

(** C8: removing an address is idempotent and does nothing when the address
    is absent; under every interleaving of the handler threads (and of
    [stop]), once each handler has run its [finally] clause the registry is
    empty; and on an empty registry the loop of [stop] closes nothing and
    [stop] leaves the registry empty. *)
Theorem registry_is_empty_after_all_disconnects :
  (forall a st, unregister a (unregister a st) = unregister a st)
  /\ (forall a st, clients st !! a = None -> unregister a st = st)
  /\ (forall conns st sched,
        clients st = ∅ ->
        forallb finished (handlers (exec sched (spawn conns st))) = true ->
        clients (server (exec sched (spawn conns st))) = ∅)
  /\ (forall st, clients st = ∅ -> close_all st = st /\ clients (stop st) = ∅).
Proof.
  split; [exact unregister_idempotent|]. split; [exact unregister_absent|]. split.
  - intros conns st sched E Hfin.
    apply covered_finished; [|exact Hfin]. apply covered_exec, covered_spawn, E.
  - intros st E. split; [apply close_all_empty, E|reflexivity].
Qed.

(** *** The threads and the sequential functions *)

Lemma exec_app sched1 sched2 s : exec (sched1 ++ sched2) s = exec sched2 (exec sched1 s).
Proof. apply foldl_app. Qed.

(** The iterator of [stop], left alone, closes the sockets not yet visited
    in order and ends before [clear]. *)
Lemma stop_loop_alone hs : forall st ths pre,
  (map_to_list (clients st)).*2 = pre ++ hs ->
  exec (replicate (S (length hs)) Stopper)
    {| server := st; handlers := ths;
       stopper := Iterating (size (clients st)) (length pre) |}
  = {| server := foldl (fun s h => close h s) st hs; handlers := ths; stopper := AtClear |}.
Proof.
  induction hs as [|h hs IH]; intros st ths pre Hl.
  - cbn. rewrite bool_decide_eq_true_2 by reflexivity.
    rewrite Hl, app_nil_r, lookup_ge_None_2 by lia. reflexivity.
  - rewrite replicate_S. cbn [exec foldl step step_stop server stopper handlers].
    rewrite bool_decide_eq_true_2 by reflexivity.
    rewrite Hl, list_lookup_middle by reflexivity.
    specialize (IH (close h st) ths (pre ++ [h])).
    rewrite length_app in IH. cbn [length] in IH.
    replace (length pre + 1)%nat with (S (length pre)) in IH by lia.
    apply IH. cbn. rewrite Hl, <- app_assoc. reflexivity.
Qed.

(** [stop] run in one piece is [stop] run step by step with no other
    thread in between. *)
Lemma stop_alone st ths :
  exec (replicate (size (clients st) + 3) Stopper)
    {| server := st; handlers := ths; stopper := Idle |}
  = {| server := stop st; handlers := ths; stopper := Stopped |}.
Proof.
  set (st2 := match server_socket (with_running false st) with
              | Some l => close l (with_running false st)
              | None => with_running false st
              end).
  set (hs := (map_to_list (clients st2)).*2).
  assert (size (clients st) = length hs) as ->.
  { subst hs. rewrite length_fmap, length_map_to_list.
    subst st2. destruct (server_socket _); reflexivity. }
  replace (length hs + 3)%nat with (1 + (S (length hs) + 1))%nat by lia.
  rewrite !replicate_add, !exec_app.
  change (exec (replicate 1 Stopper) {| server := st; handlers := ths; stopper := Idle |})
    with {| server := st2; handlers := ths;
            stopper := Iterating (size (clients st2)) (length (@nil handle)) |}.
  rewrite (stop_loop_alone hs st2 ths []) by reflexivity.
  reflexivity.
Qed.

(** The [finally] clause run in one piece is its three steps with no other
    thread in between. *)
Lemma cleanup_alone a h st p :
  exec [Handler 0; Handler 0; Handler 0]
    {| server := st; handlers := [ {| peer := a; sock := h; pc := Registered |} ];
       stopper := p |}
  = {| server := cleanup a h st; handlers := [ {| peer := a; sock := h; pc := Finished |} ];
       stopper := p |}.
Proof.
  unfold cleanup, unregister, exec. cbn [foldl].
  unfold step at 3. cbn [handlers server stopper lookup list_lookup].
  unfold step_handler. cbn [pc peer sock at_pc].
  case_bool_decide as Hin.
  - apply elem_of_dom in Hin as [h' Hh'].
    unfold step at 2. cbn [handlers server stopper lookup list_lookup insert list_insert].
    unfold step_handler. cbn [pc peer sock at_pc]. rewrite Hh'. reflexivity.
  - reflexivity.
Qed.

(** *** Schedules that serialise the registry *)

Lemma thread_eqb_eq t t' : thread_eqb t t' = true -> t = t'.
Proof.
  destruct t as [i|], t' as [j|]; cbn; try discriminate; [|reflexivity].
  intros E. apply Nat.eqb_eq in E. congruence.
Qed.

Lemma alone_spec s t :
  alone s t = true ->
  (forall j tj, handlers s !! j = Some tj -> pc tj = AtDelete -> t = Handler j)
  /\ (inside s Stopper = true -> t = Stopper).
Proof.
  unfold alone, threads. rewrite forallb_forall. intros Hall. split.
  - intros j tj Hj Hpc.
    assert (Hin : In (Handler j) (Stopper :: map Handler (seq 0 (length (handlers s))))).
    { right. apply in_map, in_seq. apply lookup_lt_Some in Hj. lia. }
    specialize (Hall _ Hin). cbn [inside] in Hall. rewrite Hj in Hall. cbn in Hall.
    rewrite Hpc in Hall. rewrite orb_false_r in Hall. apply thread_eqb_eq, Hall.
  - intros Hin. specialize (Hall Stopper (or_introl eq_refl)).
    rewrite Hin, orb_false_r in Hall. apply thread_eqb_eq, Hall.
Qed.

Lemma undisturbed_spawn conns st : undisturbed (spawn conns st).
Proof.
  repeat split; cbn; try discriminate.
  - intros i t Hi Hpc. apply list_lookup_fmap_Some in Hi as (c & -> & _). discriminate.
  - intros i t Hi Hpc. apply list_lookup_fmap_Some in Hi as (c & -> & _). discriminate.
Qed.

Lemma undisturbed_step s t :
  undisturbed s -> accesses s t = false \/ alone s t = true -> undisturbed (step s t).
Proof.
  intros (Ka & Kb & Kc & Kd) Hex. destruct t as [i|]; cbn [step].
  - destruct (handlers s !! i) as [th|] eqn:Hi; [|repeat split; assumption].
    assert (Hlt : (i < length (handlers s))%nat) by (eapply lookup_lt_Some; eauto).
    cbn [accesses] in Hex. rewrite Hi in Hex. cbn [fmap option_fmap option_map] in Hex.
    unfold step_handler. destruct (pc th) eqn:Hpc.
    + destruct Hex as [?|Hal]; [discriminate|]. destruct (alone_spec _ _ Hal) as [Hh Hs].
      repeat split; cbn [server handlers stopper with_clients clients].
      * intros used pos E. cbn [inside] in Hs. rewrite E in Hs. discriminate (Hs eq_refl).
      * intros j tj Hj Hq. apply list_lookup_insert_Some in Hj as [(_ & <- & _)|[Hne Hj]];
          [discriminate|]. specialize (Hh j tj Hj Hq). congruence.
      * intros j tj Hj. apply list_lookup_insert_Some in Hj as [(_ & <- & _)|[Hne Hj]];
          [discriminate|eauto].
      * exact Kd.
    + assert (Hres : exists p, (if bool_decide (peer th ∈ dom (clients (server s)))
                               then (at_pc th AtDelete, server s)
                               else (at_pc th AtClose, server s)) = (at_pc th p, server s)
                              /\ p <> Crashed
                              /\ (p = AtDelete -> is_Some (clients (server s) !! peer th))).
      { case_bool_decide as Hin; eexists; (split; [reflexivity|]); split;
          try discriminate. intros _. apply elem_of_dom, Hin. }
      destruct Hres as (p & -> & Hp1 & Hp2).
      repeat split; cbn [server handlers stopper]; [exact Ka| | |exact Kd].
      * intros j tj Hj Hq. apply list_lookup_insert_Some in Hj as [(_ & <- & _)|[Hne Hj]];
          [apply Hp2, Hq|eauto].
      * intros j tj Hj. apply list_lookup_insert_Some in Hj as [(_ & <- & _)|[Hne Hj]];
          [exact Hp1|eauto].
    + destruct Hex as [?|Hal]; [discriminate|]. destruct (alone_spec _ _ Hal) as [Hh Hs].
      destruct (Kb i th Hi Hpc) as [h0 ->].
      repeat split; cbn [server handlers stopper with_clients clients].
      * intros used pos E. cbn [inside] in Hs. rewrite E in Hs. discriminate (Hs eq_refl).
      * intros j tj Hj Hq. apply list_lookup_insert_Some in Hj as [(_ & <- & _)|[Hne Hj]];
          [discriminate|]. specialize (Hh j tj Hj Hq). congruence.
      * intros j tj Hj. apply list_lookup_insert_Some in Hj as [(_ & <- & _)|[Hne Hj]];
          [discriminate|eauto].
      * exact Kd.
    + repeat split; cbn [server handlers stopper]; [exact Ka| | |exact Kd].
      * intros j tj Hj Hq. apply list_lookup_insert_Some in Hj as [(_ & <- & _)|[Hne Hj]];
          [discriminate|]. exact (Kb j tj Hj Hq).
      * intros j tj Hj. apply list_lookup_insert_Some in Hj as [(_ & <- & _)|[Hne Hj]];
          [discriminate|eauto].
    + rewrite list_insert_id by exact Hi. repeat split; assumption.
    + rewrite list_insert_id by exact Hi. repeat split; assumption.
  - unfold step_stop. cbn [accesses] in Hex. destruct (stopper s) as [|used pos| | |e] eqn:Hst.
    + repeat split; cbn [server handlers stopper]; try discriminate; try assumption.
      * intros used pos [= <- _]. destruct (server_socket _); reflexivity.
      * intros j tj Hj Hq. destruct (server_socket _); exact (Kb j tj Hj Hq).
    + rewrite (Ka used pos eq_refl). rewrite bool_decide_eq_true_2 by reflexivity.
      destruct (_ !! pos); repeat split; cbn [server handlers stopper];
        try discriminate; try assumption.
      intros used' pos' [= <- _]. exact (Ka used pos eq_refl).
    + destruct Hex as [?|Hal]; [discriminate|]. destruct (alone_spec _ _ Hal) as [Hh _].
      repeat split; cbn [server handlers stopper]; try discriminate; try assumption.
      intros j tj Hj Hq. discriminate (Hh j tj Hj Hq).
    + repeat split; cbn [server handlers stopper]; try discriminate; try assumption.
    + destruct (Kd e eq_refl).
Qed.

Lemma undisturbed_exec sched s :
  undisturbed s -> exclusive sched s = true -> undisturbed (exec sched s).
Proof.
  revert s. induction sched as [|t sched IH]; intros s Hs Hex; [exact Hs|].
  cbn [exclusive] in Hex. apply andb_prop in Hex as [Ht Hrest].
  apply IH; [|exact Hrest]. apply undisturbed_step; [exact Hs|].
  apply orb_prop in Ht as [Ht|Ht]; [left; apply negb_true_iff, Ht|right; exact Ht].
Qed.

(** C9, as the code has it: the registry has no lock, its accesses are
    single dict operations that any schedule may interleave.  In the
    schedules that do serialise them (no thread touches the registry while
    another is between its membership test and its [del], or between the
    creation of the iterator and [clear]) no [del] meets a missing key and
    the iteration of [stop] never finds the dict changed. *)
Theorem serialised_schedules_are_undisturbed conns st sched :
  exclusive sched (spawn conns st) = true ->
  (forall i t, handlers (exec sched (spawn conns st)) !! i = Some t -> pc t <> Crashed)
  /\ (forall e, stopper (exec sched (spawn conns st)) <> StopRaised e).
Proof.
  intros Hex.
  destruct (undisturbed_exec sched _ (undisturbed_spawn conns st) Hex) as (_ & _ & Kc & Kd).
  split; assumption.
Qed.

End RegistryFacts.

(** ** The programs on concrete inputs *)

Section Runs.
Import Server Threads.
#[local] Existing Instance bare.

(** C1 fails as stated: one read that carries two complete lines.  The
    framing of the receive loop yields two lines; the handler takes the
    read up as a single command, whose keyword then holds a newline, and
    answers once. *)
Lemma two_lines_in_one_read_are_one_command :
  let reads := [b "HELLO" ++ nl ++ b "ECHO x" ++ nl] in
  let r := _handle_client (map Data reads) peer1 1%nat (accepted 1%nat) in
  Client.framed reads = [u "HELLO"; u "ECHO x"]
  /\ dispatched r.1 = [u "HELLO" ++ [LF] ++ u "ECHO x"]
  /\ sent_on 1%nat r.1
     = [b "MCP Server: Connected. Type 'HELP' for available commands." ++ nl;
        b "ERROR: Unknown command: HELLO" ++ nl ++ b "ECHO" ++ nl]
  /\ dispatched r.1 <> Client.framed reads.
Proof.
  cbv zeta. repeat split; try (vm_compute; reflexivity).
  vm_compute. discriminate.
Qed.

(** One line that arrives in two reads is taken up as two commands. *)
Lemma one_line_in_two_reads_is_two_commands :
  let reads := [b "HEL"; b "LO" ++ nl] in
  let r := _handle_client (map Data reads) peer1 1%nat (accepted 1%nat) in
  Client.framed reads = [u "HELLO"]
  /\ dispatched r.1 = [u "HEL"; u "LO"].
Proof. cbv zeta. split; vm_compute; reflexivity. Qed.

Lemma serve_dispatches_each_read_witness :
  let reads := [b "hello Ann" ++ nl; b "FOO"; b "ECHO a" ++ nl ++ b "HELP" ++ nl] in
  let texts := [u "hello Ann" ++ [LF]; u "FOO"; u "ECHO a" ++ [LF] ++ u "HELP" ++ [LF]] in
  let take_up s text :=
    dispatch (parse (strip text)).1 (parse (strip text)).2 1%nat
      (logging (Info_received peer1 (strip text)) s) in
  serve (map Data reads) peer1 1%nat (accepted 1%nat)
  = (foldl take_up (accepted 1%nat) texts, Blocked)
  /\ (serve (map Data reads) peer1 1%nat (accepted 1%nat)).2 = Blocked
  /\ dispatched (serve (map Data reads) peer1 1%nat (accepted 1%nat)).1
     = dispatched (accepted 1%nat) ++ map strip texts.
Proof.
  apply (serve_dispatches_each_read
           [b "hello Ann" ++ nl; b "FOO"; b "ECHO a" ++ nl ++ b "HELP" ++ nl]
           [u "hello Ann" ++ [LF]; u "FOO"; u "ECHO a" ++ [LF] ++ u "HELP" ++ [LF]]).
  - reflexivity.
  - reflexivity.
  - repeat constructor.
  - repeat (apply Forall_cons; split; [split; vm_compute; discriminate|]).
    apply Forall_nil_2.
Defined.

(** The answers of that run: one per read, the second and third with the
    keyword as it stands in the read. *)
Example each_read_is_answered_once :
  let reads := [b "hello Ann" ++ nl; b "FOO"; b "ECHO a" ++ nl ++ b "HELP" ++ nl] in
  sent_on 1%nat (serve (map Data reads) peer1 1%nat (accepted 1%nat)).1
  = [b "Hello, Ann! Welcome to MCP Server." ++ nl;
     b "ERROR: Unknown command: FOO" ++ nl;
     b "ECHO: a" ++ nl ++ b "HELP" ++ nl].
Proof. vm_compute. reflexivity. Qed.


Lemma exit_says_goodbye_then_closes_witness :
  let pre := [Data (b "HELLO" ++ nl)] in
  let st1 := (_handle_client pre peer1 1%nat (accepted 1%nat)).1 in
  let r := _handle_client (pre ++ Data (b "exit now" ++ nl) :: [Data (b "HELLO" ++ nl)])
             peer1 1%nat (accepted 1%nat) in
  r.2 = Left
  /\ sent_on 1%nat r.1 = sent_on 1%nat st1 ++ [b "Goodbye!" ++ nl]
  /\ is_closed 1%nat r.1 = true
  /\ clients r.1 !! peer1 = None.
Proof.
  apply (exit_says_goodbye_then_closes
           [Data (b "HELLO" ++ nl)] (b "exit now" ++ nl) (u "exit now" ++ [LF])).
  - vm_compute. reflexivity.
  - reflexivity.
  - vm_compute. reflexivity.
Defined.

Lemma hello_echo_follow_table_witness :
  dispatch (u "HELLO") (u "Ann") 1%nat (accepted 1%nat)
  = write 1%nat (b "Hello, Ann! Welcome to MCP Server." ++ nl) (accepted 1%nat).
Proof.
  apply (hello_echo_follow_table (u "HELLO") (u "Ann")
           (u "Hello, Ann! Welcome to MCP Server.")); reflexivity.
Defined.

(** The four responses that the specification spells out. *)
Example hello_without_argument st :
  is_closed 1%nat st = false ->
  dispatch (u "HELLO") [] 1%nat st
  = write 1%nat (b "Hello, Guest! Welcome to MCP Server." ++ nl) st.
Proof.
  intros Hc. unfold dispatch. rewrite lookup_handler_hello.
  apply send_response_open; [exact Hc|reflexivity].
Qed.

Example echo_without_argument st :
  is_closed 1%nat st = false ->
  dispatch (u "ECHO") [] 1%nat st
  = write 1%nat (b "ECHO: You didn't provide any text to echo." ++ nl) st.
Proof.
  intros Hc. unfold dispatch. rewrite lookup_handler_echo.
  apply send_response_open; [exact Hc|reflexivity].
Qed.

Example echo_foo_bar st :
  is_closed 1%nat st = false ->
  dispatch (u "ECHO") (u "foo bar") 1%nat st = write 1%nat (b "ECHO: foo bar" ++ nl) st.
Proof.
  intros Hc. unfold dispatch. rewrite lookup_handler_echo.
  apply send_response_open; [exact Hc|reflexivity].
Qed.


(** Spaces inside and in front of the argument are kept. *)
Example inner_spaces_of_the_argument_are_kept :
  sent_on 1%nat (serve [Data (b "  echo   a  b " ++ nl)] peer1 1%nat (accepted 1%nat)).1
  = [b "ECHO:   a  b" ++ nl].
Proof. vm_compute. reflexivity. Qed.

(** Beyond ASCII the upper-case forms are the interpreter's: with the
    entries of the Unicode database for the sharp s, the small letter and
    the capital letter are two unknown commands with two answers. *)
Example the_two_sharp_s_are_two_keywords :
  let small := [0xDF] in
  let capital := [0x1E9E] in
  sent_on 1%nat (@process_command sharp_s 1%nat small (accepted 1%nat))
  = [b "ERROR: Unknown command: SS" ++ nl]
  /\ sent_on 1%nat (@process_command sharp_s 1%nat capital (accepted 1%nat))
     = [b "ERROR: Unknown command: " ++ [xe1; xba; x9e] ++ nl].
Proof. split; vm_compute; reflexivity. Qed.


Lemma whitespace_only_read_ends_connection_witness :
  let pre := [Data (b "HELLO" ++ nl)] in
  let st1 := (_handle_client pre peer1 1%nat (accepted 1%nat)).1 in
  let r := _handle_client (pre ++ Data (b " " ++ nl) :: [Data (b "HELP")])
             peer1 1%nat (accepted 1%nat) in
  (r = _handle_client (pre ++ [Data []]) peer1 1%nat (accepted 1%nat)
   /\ r.2 = Left
   /\ is_closed 1%nat r.1 = true)
  /\ (r.1 = cleanup peer1 1%nat st1
      /\ dispatched r.1 = dispatched st1
      /\ sent_on 1%nat r.1 = sent_on 1%nat st1
      /\ log r.1 = log st1 ++ [Info_disconnected peer1]).
Proof.
  destruct (whitespace_only_read_ends_connection
              [Data (b "HELLO" ++ nl)] (b " " ++ nl) (u " " ++ [LF]) [Data (b "HELP")]
              peer1 1%nat (accepted 1%nat))
    as (A & B & C & D & _); [discriminate|reflexivity|reflexivity|].
  split; [auto|]. apply D. vm_compute. reflexivity.
Defined.

Lemma main_does_not_retry_witness :
  (main port_5001_taken).2 = Exit 0
  /\ stdout (main port_5001_taken).1 = [Starting_on 5001%Z]
  /\ log (main port_5001_taken).1 = [Error_server address_in_use; Info_stopped].
Proof. apply (main_does_not_retry port_5001_taken address_in_use); reflexivity. Defined.

Lemma registry_is_empty_after_all_disconnects_witness :
  let sched := [Handler 0; Handler 1; Handler 1; Handler 0; Handler 1; Handler 0;
                Handler 1; Handler 0] in
  unregister peer1 (unregister peer1 (server two_connections))
    = unregister peer1 (server two_connections)
  /\ clients (server (exec sched two_connections)) = ∅
  /\ close_all (server two_connections) = server two_connections.
Proof.
  destruct registry_is_empty_after_all_disconnects as (H1 & _ & H3 & H4).
  split; [apply H1|]. split.
  - apply H3; reflexivity.
  - apply H4. reflexivity.
Defined.

(** C9 fails as stated: while [stop] is inside its loop, having closed the
    socket of the connection registered first, the handler of that
    connection runs its membership test and its [del].  The next step of
    the iterator finds the dict smaller and raises; [clear] is never
    reached, and the second connection stays registered with its socket
    open. *)
Lemma stop_is_interleaved_with_a_removal :
  let sched := [Handler 0; Handler 1; Stopper; Stopper; Handler 0; Handler 0; Stopper] in
  let s := exec sched two_connections in
  exclusive sched two_connections = false
  /\ stopper s = StopRaised changed_size
  /\ clients (server s) = {[ peer2 := 2%nat ]}
  /\ is_closed 2%nat (server s) = false.
Proof. cbv zeta. repeat split; vm_compute; reflexivity. Qed.

Lemma serialised_schedules_are_undisturbed_witness :
  let sched := [Handler 0; Handler 1; Handler 0; Handler 0; Stopper; Stopper; Stopper;
                Stopper; Handler 1; Handler 1; Handler 0] in
  let s := exec sched two_connections in
  (forall i t, handlers s !! i = Some t -> pc t <> Crashed)
  /\ (forall e, stopper s <> StopRaised e).
Proof.
  apply (serialised_schedules_are_undisturbed [(peer1, 1%nat); (peer2, 2%nat)]).
  reflexivity.
Defined.

End Runs.

(** * Further properties of the server *)

Section ServerMore.
Import Server Effects.
Context `{Runtime}.

Lemma state_ext (st st' : state) :
  host st = host st' -> port st = port st' -> server_socket st = server_socket st' ->
  clients st = clients st' -> running st = running st' -> sockets st = sockets st' ->
  log st = log st' -> stdout st = stdout st' -> st = st'.
Proof. destruct st, st'; cbn; congruence. Qed.

(** *** The footprint of a handler *)

Lemma handled_refl h st : handled_by h st st.
Proof. repeat split; auto. Qed.

Lemma handled_trans h st1 st2 st3 :
  handled_by h st1 st2 -> handled_by h st2 st3 -> handled_by h st1 st3.
Proof.
  intros (A1 & A2 & A3 & A4 & A5) (B1 & B2 & B3 & B4 & B5).
  split; [congruence|]. split; [congruence|]. split.
  { intros h' Hne. rewrite B3, A3; auto. }
  split; [etrans; eassumption|].
  intros Hc. destruct (A5 Hc) as [C1 C2]. destruct (B5 C1) as [D1 D2].
  split; [exact D1|congruence].
Qed.

Lemma handled_logging h r st : handled_by h st (logging r st).
Proof. repeat split; auto. Qed.

Lemma handled_close h st : handled_by h st (close h st).
Proof.
  split; [reflexivity|]. split; [reflexivity|]. split.
  { intros h' Hne. cbn. apply lookup_alter_ne. congruence. }
  rewrite sent_on_close. split; [reflexivity|].
  intros _. split; [apply is_closed_close|reflexivity].
Qed.

Lemma handled_send_response h message st : handled_by h st (_send_response h message st).
Proof.
  unfold _send_response, sendall.
  destruct (encode_utf8 _) as [data|]; [|apply handled_logging].
  destruct (is_closed h st) eqn:Hc; [apply handled_logging|].
  split; [reflexivity|]. split; [reflexivity|]. split.
  { intros h' Hne. cbn. apply lookup_alter_ne. congruence. }
  rewrite sent_on_write by exact Hc. split; [apply prefix_app_r; reflexivity|].
  intros Hc'. congruence.
Qed.

Lemma handled_dispatch command arg h st : handled_by h st (dispatch command arg h st).
Proof.
  unfold dispatch.
  destruct (lookup_handler_cases command)
    as [[_ ->]|[[_ ->]|[[_ ->]|[[_ ->]|[_ ->]]]]].
  - apply handled_send_response.
  - unfold _handle_echo. destruct arg; apply handled_send_response.
  - unfold _handle_exit. destruct (in_values h _).
    + eapply handled_trans; [apply handled_send_response|apply handled_close].
    + apply handled_send_response.
  - apply handled_send_response.
  - apply handled_send_response.
Qed.

Lemma handled_on_exception a h e st : handled_by h st (on_exception a h e st).
Proof.
  unfold on_exception.
  destruct e; cbn [is_Exception]; try apply handled_refl;
    (eapply handled_trans; [apply handled_logging|apply handled_send_response]).
Qed.

Lemma handled_serve recvs a h st : handled_by h st (serve recvs a h st).1.
Proof.
  revert st. induction recvs as [|r recvs IH]; intros st; cbn [serve];
    destruct (negb (running st)); try apply handled_refl;
    destruct (is_closed h st); cbn [fst];
    try apply handled_on_exception; try apply handled_refl.
  destruct r as [raw|e]; cbn [fst]; [|apply handled_on_exception].
  destruct (decode_utf8 raw) as [text|]; cbn [fst]; [|apply handled_on_exception].
  destruct (strip text) as [|c0 d]; [apply handled_refl|].
  eapply handled_trans; [|apply IH].
  eapply handled_trans; [apply handled_logging|].
  unfold process_command. destruct (parse _). apply handled_dispatch.
Qed.

Lemma handled_unregister a h st : handled_by h st (unregister a st).
Proof. unfold unregister. case_bool_decide; repeat split; auto. Qed.

Lemma handled_cleanup a h st : handled_by h st (cleanup a h st).
Proof.
  unfold cleanup. eapply handled_trans; [apply handled_unregister|].
  eapply handled_trans; [apply handled_close|apply handled_logging].
Qed.

Lemma handled_handle_client recvs a h st :
  handled_by h st (_handle_client recvs a h st).1.
Proof.
  unfold _handle_client.
  set (st2 := _send_response h welcome (with_clients (insert a h) st)).
  assert (handled_by h st st2) as H2.
  { eapply handled_trans; [|apply handled_send_response]. repeat split; auto. }
  pose proof (handled_serve recvs a h st2) as H3.
  destruct (serve recvs a h st2) as [st3 [|]]; cbn [fst] in *.
  - eapply handled_trans; eassumption.
  - eapply handled_trans; [eassumption|].
    eapply handled_trans; [eassumption|apply handled_cleanup].
Qed.

(** X1: a handler leaves every other connection alone.  Whatever it reads,
    [_handle_client] neither writes to nor closes a socket other than its
    own, changes no registry entry but that of its own address, and leaves
    the [running] flag and the listening socket as they are. *)
Theorem handler_touches_only_its_connection recvs a h st :
  let r := _handle_client recvs a h st in
  running r.1 = running st
  /\ server_socket r.1 = server_socket st
  /\ (forall h', h' <> h ->
        is_closed h' r.1 = is_closed h' st /\ sent_on h' r.1 = sent_on h' st)
  /\ (forall a', a' <> a -> clients r.1 !! a' = clients st !! a').
Proof.
  intros r. destruct (handled_handle_client recvs a h st) as (A1 & A2 & A3 & _).
  fold r in A1, A2, A3. repeat split; auto.
  - unfold is_closed. rewrite A3 by assumption. reflexivity.
  - unfold sent_on. rewrite A3 by assumption. reflexivity.
  - intros a' Hne. subst r. unfold _handle_client.
    set (st2 := _send_response h welcome (with_clients (insert a h) st)).
    pose proof (clients_serve recvs a h st2) as Hcl.
    assert (clients st2 !! a' = clients st !! a') as H2.
    { subst st2. rewrite clients_send_response. cbn. apply lookup_insert_ne. congruence. }
    destruct (serve recvs a h st2) as [st3 [|]]; cbn [fst] in *.
    + rewrite Hcl. exact H2.
    + change (clients (cleanup a h st3)) with (clients (unregister a st3)).
      unfold unregister. case_bool_decide; cbn [with_clients clients];
        [rewrite lookup_delete_ne by congruence|]; rewrite Hcl; exact H2.
Qed.

(** X3: an address is registered exactly while its handler serves.  When
    [_handle_client] waits in [recv], its address maps to its socket, the
    socket is open and the server is running; when it has returned, the
    address is gone and the socket is closed. *)
Theorem registered_exactly_while_serving recvs a h st :
  let r := _handle_client recvs a h st in
  (r.2 = Blocked ->
     clients r.1 !! a = Some h /\ is_closed h r.1 = false /\ running r.1 = true)
  /\ (r.2 = Left -> clients r.1 !! a = None /\ is_closed h r.1 = true).
Proof.
  intros r. split; intros Hst.
  - subst r. destruct (_handle_client recvs a h st) as [st' x] eqn:E.
    cbn [fst snd] in *. subst x.
    destruct (handle_client_resume recvs [] a h st st' E) as (A & B & C & _). auto.
  - subst r. unfold _handle_client in *.
    destruct (serve recvs a h _) as [st3 [|]]; [discriminate|].
    cbn [fst]. destruct (cleanup_spec a h st3) as (A & B & _). auto.
Qed.

(** X4: a read that is not valid UTF-8 ends the connection with an error
    line.  Nothing is taken up as a command; [ERROR: ] followed by the text
    of the decoding error is written, the socket is closed and the address
    unregistered, and later reads are not looked at. *)
Theorem undecodable_read_is_reported pre raw post a h st st1 payload :
  _handle_client pre a h st = (st1, Blocked) ->
  decode_utf8 raw = None ->
  encode_utf8 (u "ERROR: " ++ decode_error_text raw ++ [LF]) = Some payload ->
  let r := _handle_client (pre ++ Data raw :: post) a h st in
  r.2 = Left
  /\ sent_on h r.1 = sent_on h st1 ++ [payload]
  /\ dispatched r.1 = dispatched st1
  /\ is_closed h r.1 = true
  /\ clients r.1 !! a = None.
Proof.
  intros Hpre Hd Henc r.
  destruct (handle_client_resume pre (Data raw :: post) a h st st1 Hpre)
    as (Hr & Hc & _ & E).
  subst r. rewrite E. cbn [serve]. rewrite Hr, Hc, Hd. cbn [negb fst snd].
  unfold on_exception. cbn [is_Exception exc_str].
  set (st4 := logging (Error_handling a (UnicodeDecodeError (decode_error_text raw))) st1).
  rewrite (send_response_open h _ payload st4 Hc) by (rewrite <- app_assoc; exact Henc).
  destruct (cleanup_spec a h (write h payload st4)) as (A & B & C).
  repeat split; [| |exact B|exact A].
  - rewrite C. apply (sent_on_write h payload st4 Hc).
  - rewrite dispatched_cleanup. unfold dispatched. cbn [write with_sockets log].
    subst st4. cbn [logging log]. rewrite omap_app. cbn. apply app_nil_r.
Qed.

(** X5: a connection reset by the peer is torn down silently.  When [recv]
    raises [ConnectionResetError] no error line is written and no error is
    logged; the only trace is the record of the disconnection. *)
Theorem reset_by_peer_is_silent pre t post a h st st1 :
  _handle_client pre a h st = (st1, Blocked) ->
  let r := _handle_client (pre ++ Raise (ConnectionResetError t) :: post) a h st in
  r.2 = Left
  /\ sent_on h r.1 = sent_on h st1
  /\ log r.1 = log st1 ++ [Info_disconnected a]
  /\ is_closed h r.1 = true
  /\ clients r.1 !! a = None.
Proof.
  intros Hpre r.
  destruct (handle_client_resume pre (Raise (ConnectionResetError t) :: post) a h st st1 Hpre)
    as (Hr & Hc & _ & E).
  subst r. rewrite E. cbn [serve]. rewrite Hr, Hc. cbn [negb fst snd on_exception].
  destruct (cleanup_spec a h st1) as (A & B & C).
  repeat split; [exact C|apply log_cleanup|exact B|exact A].
Qed.

(** X6: [HELP] ignores its argument.  On an open socket it writes one
    payload, the help text without the blank lines around it and with a
    final newline, and leaves the connection as it is. *)
Theorem help_lists_the_commands arg h st :
  is_closed h st = false ->
  dispatch (u "HELP") arg h st = write h help_payload st
  /\ untouched st (dispatch (u "HELP") arg h st).
Proof.
  intros Hc. split.
  - apply (send_response_open h (strip help_text) help_payload st Hc). reflexivity.
  - apply untouched_dispatch. discriminate.
Qed.

End ServerMore.

(** * The handler on a connection that may break *)

Section FaultFacts.
Import Server Faults.
Context `{Runtime}.

(** Without failures the handler is that of [Server]. *)
Lemma send_response_reliable h message st :
  Faults._send_response None h message st = Server._send_response h message st.
Proof. reflexivity. Qed.

Lemma dispatch_reliable command arg h st :
  Faults.dispatch None command arg h st = Server.dispatch command arg h st.
Proof.
  unfold Faults.dispatch, Server.dispatch, Faults.lookup_handler, Server.lookup_handler,
    Faults.command_handlers, Server.command_handlers.
  cbn [List.find fst snd]. repeat case_bool_decide; reflexivity.
Qed.

Lemma on_exception_reliable a h e st :
  Faults.on_exception None a h e st = Server.on_exception a h e st.
Proof. reflexivity. Qed.

Lemma serve_reliable recvs a h : forall st,
  Faults.serve (map reliable recvs) a h st = Server.serve recvs a h st.
Proof.
  induction recvs as [|r recvs IH]; intros st; cbn [map Faults.serve Server.serve].
  - reflexivity.
  - destruct (negb (running st)); [reflexivity|].
    destruct (is_closed h st); [reflexivity|].
    cbn [reliable received failure]. destruct r as [raw|e]; [|reflexivity].
    destruct (decode_utf8 raw) as [text|]; [|reflexivity].
    destruct (strip text) as [|c d]; [reflexivity|]. rewrite IH.
    unfold Faults.process_command, Server.process_command.
    destruct (parse (c :: d)). rewrite dispatch_reliable. reflexivity.
Qed.

Lemma handle_client_reliable recvs a h st :
  Faults._handle_client None (map reliable recvs) a h st = Server._handle_client recvs a h st.
Proof.
  unfold Faults._handle_client, Server._handle_client.
  rewrite send_response_reliable, serve_reliable. reflexivity.
Qed.

(** *** What a handler adds to *)

Lemma grows_refl h st : grows h st st.
Proof. split; reflexivity. Qed.

Lemma grows_trans h st1 st2 st3 : grows h st1 st2 -> grows h st2 st3 -> grows h st1 st3.
Proof. intros [A B] [C D]. split; etrans; eassumption. Qed.

Lemma grows_logging h r st : grows h st (logging r st).
Proof. split; [reflexivity|]. cbn. apply prefix_app_r. reflexivity. Qed.

Lemma grows_close h x st : grows h st (close x st).
Proof. split; [rewrite sent_on_close|]; reflexivity. Qed.

Lemma grows_send_response fails h message st :
  grows h st (Faults._send_response fails h message st).
Proof.
  unfold Faults._send_response, Faults.sendall.
  destruct (encode_utf8 _) as [data|]; [|apply grows_logging].
  destruct (is_closed h st) eqn:Hc; [apply grows_logging|].
  destruct fails; [apply grows_logging|].
  split; [|reflexivity]. rewrite sent_on_write by exact Hc. apply prefix_app_r. reflexivity.
Qed.

Lemma grows_dispatch fails command arg h st :
  grows h st (Faults.dispatch fails command arg h st).
Proof.
  unfold Faults.dispatch, Faults.lookup_handler, Faults.command_handlers.
  cbn [List.find fst snd].
  repeat case_bool_decide; cbn [fmap option_fmap option_map snd];
    try apply grows_send_response.
  - unfold Faults._handle_echo. destruct arg; apply grows_send_response.
  - unfold Faults._handle_exit. destruct (in_values h _); [|apply grows_send_response].
    eapply grows_trans; [apply grows_send_response|apply grows_close].
Qed.

Lemma grows_on_exception fails a h e st : grows h st (Faults.on_exception fails a h e st).
Proof.
  unfold Faults.on_exception.
  destruct e; cbn [is_Exception]; try apply grows_refl;
    (eapply grows_trans; [apply grows_logging|apply grows_send_response]).
Qed.

Lemma grows_serve reads a h : forall st, grows h st (Faults.serve reads a h st).1.
Proof.
  induction reads as [|r reads IH]; intros st; cbn [Faults.serve];
    destruct (negb (running st)); try apply grows_refl;
    destruct (is_closed h st); cbn [fst];
    try apply grows_on_exception; try apply grows_refl.
  destruct (received r) as [raw|e]; cbn [fst]; [|apply grows_on_exception].
  destruct (decode_utf8 raw) as [text|]; cbn [fst]; [|apply grows_on_exception].
  destruct (strip text) as [|c0 d]; [apply grows_refl|].
  eapply grows_trans; [|apply IH].
  eapply grows_trans; [apply grows_logging|].
  unfold Faults.process_command. destruct (parse _). apply grows_dispatch.
Qed.

Lemma grows_cleanup a h st : grows h st (cleanup a h st).
Proof.
  split; [rewrite (proj2 (proj2 (cleanup_spec a h st))); reflexivity|].
  rewrite log_cleanup. apply prefix_app_r. reflexivity.
Qed.

(** X2: the welcome line is the first thing a handler sends, if it can be
    sent.  On a socket that the server has not closed, whatever is read and
    whatever fails afterwards: when the [sendall] of the welcome line
    succeeds, the line is the first payload written and everything written
    before stays in front of it; when it raises, nothing is written in its
    place, the failure is the first thing logged, and the handler serves
    the connection all the same.  Without failures the handler is that of
    [Server]. *)
Theorem welcome_is_sent_first welcome_fails reads a h st :
  is_closed h st = false ->
  let banner := b "MCP Server: Connected. Type 'HELP' for available commands." ++ nl in
  let r := Faults._handle_client welcome_fails reads a h st in
  match welcome_fails with
  | None => (sent_on h st ++ [banner]) `prefix_of` sent_on h r.1
  | Some text =>
    (log st ++ [Error_sending (OSError text)]) `prefix_of` log r.1
    /\ r = match Faults.serve reads a h
                   (logging (Error_sending (OSError text)) (with_clients (insert a h) st)) with
           | (st3, Left) => (cleanup a h st3, Left)
           | (st3, Blocked) => (st3, Blocked)
           end
  end
  /\ sent_on h st `prefix_of` sent_on h r.1
  /\ (welcome_fails = None ->
      forall recvs, reads = map reliable recvs -> r = Server._handle_client recvs a h st).
Proof.
  intros Hc banner r. subst r banner.
  set (st1 := with_clients (insert a h) st).
  assert (forall st2, grows h st2
            (match Faults.serve reads a h st2 with
             | (st3, Left) => (cleanup a h st3, Left)
             | (st3, Blocked) => (st3, Blocked)
             end).1) as Hgrow.
  { intros st2. pose proof (grows_serve reads a h st2) as G.
    destruct (Faults.serve reads a h st2) as [st3 [|]]; cbn [fst] in *; [exact G|].
    eapply grows_trans; [exact G|apply grows_cleanup]. }
  split; [|split].
  - unfold Faults._handle_client. fold st1. destruct welcome_fails as [text|].
    + assert (Faults._send_response (Some text) h welcome st1
              = logging (Error_sending (OSError text)) st1) as ->.
      { unfold Faults._send_response, Faults.sendall.
        change (is_closed h st1) with (is_closed h st). rewrite Hc. reflexivity. }
      split; [|reflexivity].
      exact (proj2 (Hgrow (logging (Error_sending (OSError text)) st1))).
    + assert (Faults._send_response None h welcome st1
              = write h (b "MCP Server: Connected. Type 'HELP' for available commands." ++ nl)
                  st1) as ->.
      { unfold Faults._send_response, Faults.sendall.
        change (is_closed h st1) with (is_closed h st). rewrite Hc. reflexivity. }
      rewrite <- (sent_on_write h _ st1 Hc). apply Hgrow.
  - unfold Faults._handle_client. fold st1.
    etrans; [|apply Hgrow]. apply (grows_send_response welcome_fails h welcome st1).
  - intros -> recvs ->. apply handle_client_reliable.
Qed.

End FaultFacts.

(** * Further properties of start-up and shutdown *)

Section ShutdownMore.
Import Server Effects.
Context `{Runtime}.

Lemma is_closed_close_iff h x st :
  is_closed h (close x st) = true <-> is_closed h st = true \/ h = x.
Proof.
  unfold is_closed, close. cbn. rewrite lookup_alter.
  destruct (decide (x = h)) as [->|Hne].
  - destruct (sockets st !! h); cbn; split; auto.
  - split; [auto|]. intros [E|E]; [exact E|congruence].
Qed.

(** The loop of [stop] over a list of sockets. *)
Lemma close_each hs : forall st,
  let st' := foldl (fun s h => close h s) st hs in
  (forall h, is_closed h st' = true <-> is_closed h st = true \/ h ∈ hs)
  /\ (forall h, sent_on h st' = sent_on h st)
  /\ running st' = running st /\ clients st' = clients st
  /\ server_socket st' = server_socket st /\ log st' = log st
  /\ stdout st' = stdout st /\ host st' = host st /\ port st' = port st.
Proof.
  induction hs as [|x hs IH]; intros st; cbn [foldl].
  - repeat split; auto. intros [E|E]; [exact E|]. apply elem_of_nil in E as [].
  - destruct (IH (close x st)) as (A & B & C & D & E & F & G & I & J).
    cbv zeta in *. split; [|split; [|repeat split; assumption]].
    + intros h. rewrite A, is_closed_close_iff, elem_of_cons. tauto.
    + intros h. rewrite B. apply sent_on_close.
Qed.

(** X7: what [stop] leaves behind.  The server is no longer running, the
    registry is empty, and a socket is closed afterwards exactly if it was
    closed before, is the listening socket, or was registered; nothing is
    written to any socket, and one record is added to the log. *)
Theorem stop_closes_what_is_registered st :
  running (stop st) = false
  /\ clients (stop st) = ∅
  /\ (forall h, is_closed h (stop st) = true <->
        is_closed h st = true \/ server_socket st = Some h
        \/ exists a, clients st !! a = Some h)
  /\ (forall h, sent_on h (stop st) = sent_on h st)
  /\ log (stop st) = log st ++ [Info_stopped].
Proof.
  unfold stop, close_all.
  set (st2 := match server_socket (with_running false st) with
              | Some l => close l (with_running false st)
              | None => with_running false st
              end).
  assert (clients st2 = clients st) as Hcl by (unfold st2; destruct (server_socket _); reflexivity).
  assert (forall h, is_closed h st2 = true <-> is_closed h st = true \/ server_socket st = Some h)
    as Hlis.
  { intros h. unfold st2. cbn [with_running server_socket].
    destruct (server_socket st) as [l|].
    - rewrite is_closed_close_iff. change (is_closed h (with_running false st)) with (is_closed h st).
      split; intros [E|E]; auto; right; congruence.
    - change (is_closed h (with_running false st)) with (is_closed h st).
      split; [auto|]. intros [E|E]; [exact E|discriminate]. }
  assert (running st2 = false) as Hrun by (unfold st2; destruct (server_socket _); reflexivity).
  assert (log st2 = log st) as Hlog by (unfold st2; destruct (server_socket _); reflexivity).
  assert (forall h, sent_on h st2 = sent_on h st) as Hsent.
  { intros h. unfold st2. cbn [with_running server_socket].
    destruct (server_socket st); [rewrite sent_on_close|]; reflexivity. }
  destruct (close_each (map_to_list (clients st2)).*2 st2) as (A & B & C & D & E & F & _).
  cbv zeta in *. clearbody st2. cbn [logging with_clients running clients log].
  split; [congruence|]. split; [reflexivity|]. split; [|split].
  - intros h.
    change (is_closed h (foldl (fun s h0 => close h0 s) st2 (map_to_list (clients st2)).*2) = true
            <-> is_closed h st = true \/ server_socket st = Some h
                \/ exists a, clients st !! a = Some h).
    rewrite A, Hlis, Hcl.
    assert (h ∈ (map_to_list (clients st)).*2 <-> exists a, clients st !! a = Some h) as ->.
    { rewrite list_elem_of_fmap. split.
      - intros ([a h'] & -> & Hin). exists a. apply elem_of_map_to_list. exact Hin.
      - intros [a Ha]. exists (a, h). split; [reflexivity|]. apply elem_of_map_to_list. exact Ha. }
    tauto.
  - intros h.
    change (sent_on h (foldl (fun s h0 => close h0 s) st2 (map_to_list (clients st2)).*2)
            = sent_on h st).
    rewrite B. apply Hsent.
  - rewrite F, Hlog. reflexivity.
Qed.

Lemma stop_keeps st :
  running (stop st) = false /\ clients (stop st) = ∅
  /\ server_socket (stop st) = server_socket st
  /\ host (stop st) = host st /\ port (stop st) = port st
  /\ stdout (stop st) = stdout st /\ log (stop st) = log st ++ [Info_stopped]
  /\ (forall l, server_socket st = Some l -> is_closed l (stop st) = true).
Proof.
  unfold stop, close_all.
  set (st2 := match server_socket (with_running false st) with
              | Some l => close l (with_running false st)
              | None => with_running false st
              end).
  assert (running st2 = false /\ server_socket st2 = server_socket st /\ host st2 = host st
          /\ port st2 = port st /\ stdout st2 = stdout st /\ log st2 = log st)
    as (R & S & Ho & Po & So & Lo)
    by (unfold st2; cbn [with_running server_socket];
        destruct (server_socket st) eqn:E; repeat split; cbn; congruence).
  assert (forall l, server_socket st = Some l -> is_closed l st2 = true) as Hl.
  { intros l E. unfold st2. cbn [with_running server_socket]. rewrite E. apply is_closed_close. }
  destruct (close_each (map_to_list (clients st2)).*2 st2)
    as (A & _ & C & _ & E & F & G & I & J).
  cbv zeta in *. clearbody st2.
  cbn [logging with_clients running clients server_socket host port stdout log].
  repeat split; try congruence.
  intros l El.
  change (is_closed l (foldl (fun s h0 => close h0 s) st2 (map_to_list (clients st2)).*2) = true).
  apply A. left. apply Hl, El.
Qed.

Lemma sockets_close_closed l st : is_closed l st = true -> sockets (close l st) = sockets st.
Proof.
  unfold is_closed, close. cbn. intros Hc. apply alter_id. intros s Hs.
  rewrite Hs in Hc. destruct s as [c w]. cbn in *. subst c. reflexivity.
Qed.

(** X8: stopping twice is harmless.  A second [stop] changes nothing but
    the log, to which it adds its record once more. *)
Theorem stop_twice st : stop (stop st) = logging Info_stopped (stop st).
Proof.
  destruct (stop_keeps st) as (R & C & S & _ & _ & _ & _ & Hl).
  destruct (stop_keeps (stop st)) as (R' & C' & S' & Ho' & Po' & So' & Lo' & _).
  apply state_ext; cbn [logging host port server_socket clients running sockets log stdout];
    try assumption; try congruence.
  set (x := stop st) in *. unfold stop at 1. cbn [logging with_clients sockets].
  set (st2 := match server_socket (with_running false x) with
              | Some l => close l (with_running false x)
              | None => with_running false x
              end).
  assert (sockets st2 = sockets x) as E2.
  { unfold st2. cbn [with_running server_socket].
    destruct (server_socket x) as [l|] eqn:El; [|reflexivity].
    apply (sockets_close_closed l (with_running false x)).
    change (is_closed l x = true). apply Hl. congruence. }
  assert (clients st2 = ∅) as C2.
  { unfold st2. cbn [with_running server_socket].
    destruct (server_socket x); exact C. }
  unfold close_all. rewrite C2, map_to_list_empty. exact E2.
Qed.



(** The accept loop on results none of which ends it. *)
Lemma accept_loop_goes_on pre : forall rest st,
  running st = true -> forallb loop_goes_on pre = true ->
  exists st', accept_loop (pre ++ rest) st = accept_loop rest st'
    /\ running st' = true /\ log st' = log st ++ map accept_record pre
    /\ clients st' = clients st /\ server_socket st' = server_socket st
    /\ stdout st' = stdout st /\ host st' = host st /\ port st' = port st.
Proof.
  induction pre as [|r pre IH]; intros rest st Hr Hall.
  - exists st. cbn. rewrite app_nil_r. auto 10.
  - cbn [forallb] in Hall. apply andb_prop in Hall as [Hgo Hall].
    cbn [app accept_loop]. rewrite Hr. cbn [negb].
    destruct r as [h a|e]; cbn [loop_goes_on] in Hgo; [|rewrite Hgo];
      match goal with |- context [accept_loop (pre ++ rest) ?s] =>
        destruct (IH rest s Hr Hall) as (st' & E & R & L & C & S & O & Ho & Po) end;
      exists st'; rewrite E, L; cbn [logging with_sockets log map accept_record];
      rewrite <- app_assoc; repeat split; auto.
Qed.

(** X10: a failing [accept] does not stop the server.  After a successful
    bind, as long as [accept] returns connections or raises [OSError], the
    accept loop goes on: every connection is logged as new and every error
    as an accept error, in the order they came, and the server keeps
    waiting. *)
Theorem accept_errors_do_not_stop_the_server env st :
  bind_error env (port st) = None ->
  forallb loop_goes_on (accepts env) = true ->
  (start env st).2 = Waiting
  /\ running (start env st).1 = true
  /\ log (start env st).1
     = log st ++ [Info_started (host st) (port st); Info_waiting]
       ++ map accept_record (accepts env).
Proof.
  intros Hb Hall. unfold start, start_body.
  cbn [port host with_server_socket with_sockets]. rewrite Hb.
  match goal with |- context [accept_loop _ ?s] =>
    destruct (accept_loop_goes_on (accepts env) [] s eq_refl Hall)
      as (st' & E & R & L & _) end.
  rewrite app_nil_r in E. rewrite E. cbn [accept_loop]. rewrite R. cbn [negb fst snd].
  repeat split; [exact R|]. rewrite L. cbn [logging with_running log].
  rewrite <- !app_assoc. reflexivity.
Qed.


End ShutdownMore.

(** * Further properties of the client's receive loop *)

Section ReceiveMore.
Import Client Effects.
Context `{Runtime}.

Lemma receive_loop_stopped recvs st : running st = false -> receive_loop recvs st = st.
Proof. intros Hr. destruct recvs; cbn [receive_loop]; rewrite Hr; reflexivity. Qed.

Lemma receive_loop_nil st : receive_loop [] st = st.
Proof. cbn. destruct (negb (running st)); reflexivity. Qed.

Lemma print_lines_Some buf out line rest :
  partition LF buf = Some (line, rest) ->
  print_lines buf out = print_lines rest (out ++ [Line line]).
Proof.
  intros Hp. funelim (print_lines buf out).
  - assert (Some (line0, rest0) = Some (line, rest)) as [= -> ->] by congruence.
    reflexivity.
  - congruence.
Qed.

Lemma print_lines_None buf out : partition LF buf = None -> print_lines buf out = (buf, out).
Proof.
  intros Hp. funelim (print_lines buf out); [congruence|reflexivity].
Qed.

(** Printing the lines of a text that arrives in two parts. *)
Lemma print_lines_app x y out :
  print_lines (x ++ y) out = print_lines ((print_lines x out).1 ++ y) (print_lines x out).2.
Proof.
  funelim (print_lines x out).
  - destruct (partition_Some _ _ _ _ e) as [-> Hl].
    rewrite <- app_assoc. cbn [app].
    rewrite (print_lines_Some _ out line (rest ++ y)) by (apply partition_app; exact Hl).
    match goal with IH : forall y, _ = _ |- _ => apply IH end.
  - reflexivity.
Qed.

Lemma feed_app st t1 t2 : feed (feed st t1) t2 = feed st (t1 ++ t2).
Proof.
  unfold feed. rewrite app_assoc, (print_lines_app (buffer st ++ t1) t2).
  destruct (print_lines (buffer st ++ t1) (stdout st)) as [b1 o1]. reflexivity.
Qed.

Lemma running_feed st t : running (feed st t) = true.
Proof. unfold feed. destruct (print_lines _ _). reflexivity. Qed.

Lemma running_foldl_feed texts : forall st,
  running st = true -> running (foldl feed st texts) = true.
Proof.
  induction texts as [|t texts IH]; intros st Hr; [exact Hr|].
  cbn [foldl]. apply IH, running_feed.
Qed.

(** Successful reads feed their texts to the buffer one after the other. *)
Lemma receive_loop_feed chunks texts rest : forall st,
  running st = true ->
  Forall (fun c => c <> []) chunks ->
  Forall2 (fun c t => decode_utf8 c = Some t) chunks texts ->
  receive_loop (map Data chunks ++ rest) st = receive_loop rest (foldl feed st texts).
Proof.
  intros st Hr Hne Hdec. revert st Hr Hne.
  induction Hdec as [|c t cs ts Hc _ IH]; intros st Hr Hne; [reflexivity|].
  apply Forall_cons in Hne as [Hc0 Hne]. cbn [map app receive_loop foldl].
  rewrite Hr. cbn [negb]. destruct c as [|c0 c']; [congruence|]. rewrite Hc.
  rewrite <- (IH (feed st t)) by (auto using running_feed).
  unfold feed. destruct (print_lines _ _). reflexivity.
Qed.

Lemma foldl_feed texts : forall st t, foldl feed (feed st t) texts = feed st (t ++ concat texts).
Proof.
  induction texts as [|t' texts IH]; intros st t; cbn [foldl concat].
  - rewrite app_nil_r. reflexivity.
  - rewrite IH, feed_app. reflexivity.
Qed.

(** X12: the end of the stream stops the loop for good.  After any number
    of successful reads, an empty read clears [running] and prints the
    notice and nothing else: what is left in the buffer, the text after the
    last newline, is never printed; and whatever would be read afterwards
    is not read. *)
Theorem end_of_stream_stops_the_loop chunks texts post st :
  running st = true ->
  Forall (fun c => c <> []) chunks ->
  Forall2 (fun c t => decode_utf8 c = Some t) chunks texts ->
  let s1 := receive_loop (map Data chunks) st in
  receive_loop (map Data chunks ++ Data [] :: post) st
  = {| running := false; buffer := buffer s1; stdout := stdout s1 ++ [Disconnected] |}.
Proof.
  intros Hr Hne Hdec s1. subst s1.
  rewrite <- (app_nil_r (map Data chunks)) at 2 3.
  rewrite !(receive_loop_feed chunks texts) by assumption.
  rewrite receive_loop_nil. cbn [receive_loop].
  rewrite running_foldl_feed by exact Hr. reflexivity.
Qed.

(** X13: the way the stream is cut into reads does not matter.  Reads that
    are each valid UTF-8 leave the loop in the state in which one read of
    all their bytes leaves it: the same lines printed, the same remainder
    buffered. *)
Theorem cutting_the_stream_does_not_matter chunks texts st :
  running st = true ->
  chunks <> [] ->
  Forall (fun c => c <> []) chunks ->
  Forall2 (fun c t => decode_utf8 c = Some t) chunks texts ->
  receive_loop (map Data chunks) st = receive_loop [Data (concat chunks)] st.
Proof.
  intros Hr Hnil Hne Hdec.
  rewrite <- (app_nil_r (map Data chunks)).
  rewrite (receive_loop_feed chunks texts) by assumption. rewrite receive_loop_nil.
  pose proof (decode_utf8_concat chunks texts Hdec) as Hcat.
  destruct chunks as [|c cs]; [congruence|].
  inversion Hdec as [|c' t cs' ts Hc Hrest]; subst.
  apply Forall_cons in Hne as [Hc0 _].
  cbn [foldl]. rewrite foldl_feed. cbn [concat] in Hcat.
  cbn [receive_loop concat]. rewrite Hr. cbn [negb].
  destruct c as [|c0 c']; [congruence|]. cbn [app]. cbn [app] in Hcat. rewrite Hcat.
  unfold feed. destruct (print_lines _ _). reflexivity.
Qed.

Lemma print_lines_clean buf out :
  Forall (fun l => LF ∉ l) (lines out) ->
  Forall (fun l => LF ∉ l) (lines (print_lines buf out).2).
Proof.
  funelim (print_lines buf out); intros Hout; [|exact Hout].
  match goal with IH : _ -> Forall _ _ |- _ => apply IH end.
  rewrite lines_app. apply Forall_app. split; [exact Hout|].
  destruct (partition_Some _ _ _ _ e) as [_ Hl]. repeat constructor. exact Hl.
Qed.

(** X14: the loop never holds or prints a newline inside a line.  Whatever
    is read and however the loop ends, the buffer holds no newline, so at
    most one unfinished line, and no printed line contains one. *)
Theorem no_newline_is_kept recvs st :
  Forall (fun l => LF ∉ l) (lines (stdout st)) ->
  let r := _receive_messages recvs st in
  (LF ∉ buffer r) /\ Forall (fun l => LF ∉ l) (lines (stdout r)).
Proof.
  intros Hst. cbv zeta. unfold _receive_messages.
  assert (forall s, LF ∉ buffer s -> Forall (fun l => LF ∉ l) (lines (stdout s)) ->
            (LF ∉ buffer (receive_loop recvs s))
            /\ Forall (fun l => LF ∉ l) (lines (stdout (receive_loop recvs s)))) as Hinv.
  { clear st Hst. induction recvs as [|r recvs IH]; intros st Hb Hl; cbn [receive_loop];
      destruct (negb (running st)); auto.
    assert (forall o, lines [o] = [] -> Forall (fun l => LF ∉ l) (lines (stdout st ++ [o])))
      as Hnote.
    { intros o Ho. rewrite lines_app, Ho, app_nil_r. exact Hl. }
    destruct r as [[|c0 data]|e]; cbn [buffer stdout]; auto.
    - destruct (decode_utf8 (c0 :: data)) as [text|]; cbn [buffer stdout]; auto.
      pose proof (print_lines_spec (buffer st ++ text) (stdout st)) as [_ Hnl].
      pose proof (print_lines_clean (buffer st ++ text) (stdout st) Hl) as Hcl.
      destruct (print_lines (buffer st ++ text) (stdout st)) as [b1 o1]. apply IH; assumption.
    - destruct e; cbn [is_Exception buffer stdout]; auto. }
  apply Hinv; [apply not_elem_of_nil|exact Hst].
Qed.

End ReceiveMore.

(** * Further facts about the Python primitives *)

Section PyMore.
Import Effects.

Lemma to_N_byte_of n : n < 256 -> Byte.to_N (byte_of n) = n.
Proof.
  intros Hn. unfold byte_of. destruct (Byte.of_N n) as [x|] eqn:E.
  - apply Byte.to_of_N in E. exact E.
  - apply Byte.of_N_None_iff in E. lia.
Qed.

Lemma split_64 c : c = 64 * (c / 64) + c mod 64 /\ c mod 64 < 64.
Proof. split; [apply N.div_mod'|apply N.mod_lt; lia]. Qed.

Ltac decide_ranges :=
  unfold in_range, cont;
  repeat match goal with
  | |- context [?x =? ?y] => destruct (N.eqb_spec x y); try lia
  | |- context [?x <? ?y] => destruct (N.ltb_spec x y); try lia
  | |- context [?x <=? ?y] => destruct (N.leb_spec x y); try lia
  end; cbn [andb].

Lemma decode_utf8_cons b0 r0 :
  decode_utf8 (b0 :: r0) =
    let n0 := Byte.to_N b0 in
    if n0 <? 0x80 then cons n0 <$> decode_utf8 r0
    else if in_range 0xC2 0xDF b0 then
      match r0 with
      | b1 :: r1 =>
        if in_range 0x80 0xBF b1
        then cons ((n0 - 0xC0) * 64 + cont b1) <$> decode_utf8 r1
        else None
      | _ => None
      end
    else if in_range 0xE0 0xEF b0 then
      match r0 with
      | b1 :: b2 :: r2 =>
        let lo := if n0 =? 0xE0 then 0xA0 else 0x80 in
        let hi := if n0 =? 0xED then 0x9F else 0xBF in
        if in_range lo hi b1 && in_range 0x80 0xBF b2
        then cons ((n0 - 0xE0) * 4096 + cont b1 * 64 + cont b2) <$> decode_utf8 r2
        else None
      | _ => None
      end
    else if in_range 0xF0 0xF4 b0 then
      match r0 with
      | b1 :: b2 :: b3 :: r3 =>
        let lo := if n0 =? 0xF0 then 0x90 else 0x80 in
        let hi := if n0 =? 0xF4 then 0x8F else 0xBF in
        if in_range lo hi b1 && in_range 0x80 0xBF b2 && in_range 0x80 0xBF b3
        then cons ((n0 - 0xF0) * 262144 + cont b1 * 4096 + cont b2 * 64 + cont b3)
               <$> decode_utf8 r3
        else None
      | _ => None
      end
    else None.
Proof. reflexivity. Qed.

(** The bytes of one encoded character decode to it. *)
Lemma decode_encode_char c bc r :
  encode_char c = Some bc ->
  decode_utf8 (bc ++ r) = cons c <$> decode_utf8 r.
Proof.
  unfold encode_char.
  destruct (split_64 c) as [E0 L0].
  destruct (split_64 (c / 64)) as [E1 L1].
  destruct (split_64 (c / 64 / 64)) as [E2 L2].
  assert (D1 : c / 4096 = c / 64 / 64) by (rewrite N.Div0.div_div; reflexivity).
  assert (D2 : c / 262144 = c / 64 / 64 / 64) by (rewrite !N.Div0.div_div; reflexivity).
  rewrite D1, D2.
  generalize dependent (c / 64 / 64 / 64). intros a2.
  generalize dependent ((c / 64 / 64) mod 64). intros r2.
  generalize dependent (c / 64 / 64). intros a1.
  generalize dependent ((c / 64) mod 64). intros r1.
  generalize dependent (c / 64). intros a.
  generalize dependent (c mod 64). intros r0. intros. clear D1 D2.
  revert H. 
  destruct (N.ltb_spec c 0x80).
  { intros [= <-]. cbn [app]. rewrite decode_utf8_cons. cbv zeta. unfold in_range, cont.
    rewrite !to_N_byte_of by lia.
    destruct (N.ltb_spec c 128); [reflexivity|lia]. }
  destruct (N.ltb_spec c 0x800).
  { intros [= <-]. cbn [app]. rewrite decode_utf8_cons. cbv zeta. unfold in_range, cont.
    rewrite !to_N_byte_of by lia. decide_ranges; f_equal; f_equal; lia. }
  destruct (N.ltb_spec c 0x10000).
  { destruct (N.leb_spec 0xD800 c), (N.leb_spec c 0xDFFF); cbn [andb]; try discriminate.
    all: intros [= <-]; cbn [app]; rewrite decode_utf8_cons; cbv zeta; unfold in_range, cont.
    all: rewrite !to_N_byte_of by lia.
    all: decide_ranges; f_equal; f_equal; lia. }
  destruct (N.ltb_spec c 0x110000); [|discriminate].
  intros [= <-]. cbn [app]. rewrite decode_utf8_cons. cbv zeta. unfold in_range, cont.
  rewrite !to_N_byte_of by lia.
  decide_ranges; f_equal; f_equal; lia.
Qed.

(** Bytes that [encode_utf8] produced decode to the text they came from. *)
Lemma decode_encode_utf8 (t : str) (bs : bytes) :
  encode_utf8 t = Some bs -> decode_utf8 bs = Some t.
Proof.
  revert bs. induction t as [|c t IH]; intros bs; cbn [encode_utf8].
  - intros [= <-]. reflexivity.
  - destruct (encode_char c) as [bc|] eqn:Hc; [|discriminate].
    destruct (encode_utf8 t) as [bt|]; [|discriminate].
    intros [= <-]. rewrite (decode_encode_char c bc bt Hc), (IH bt eq_refl). reflexivity.
Qed.

(** *** Stripped text *)

Ltac len_contra H :=
  repeat (rewrite length_app in H || rewrite length_cons in H); lia.

Lemma lstrip_idemp s : lstrip (lstrip s) = lstrip s.
Proof.
  induction s as [|c r IH]; [reflexivity|]. cbn [lstrip].
  destruct (isspace c) eqn:E; [exact IH|]. cbn [lstrip]. rewrite E. reflexivity.
Qed.

(** [lstrip] removes a prefix. *)
Lemma lstrip_suffix s : exists p, s = p ++ lstrip s.
Proof.
  induction s as [|c r [p Hp]]; [exists []; reflexivity|]. cbn [lstrip].
  destruct (isspace c); [|exists []; reflexivity].
  exists (c :: p). cbn [app]. congruence.
Qed.

(** Cutting white space from the end of a text that has none at its start
    leaves none at its start. *)
Lemma lstrip_prefix m p q : lstrip m = m -> m = p ++ q -> lstrip p = p.
Proof.
  intros Hm ->. destruct p as [|c p]; [reflexivity|].
  cbn [app lstrip] in *. destruct (isspace c); [|reflexivity].
  exfalso. destruct (lstrip_suffix (p ++ q)) as [x Hx]. rewrite Hm in Hx.
  apply (f_equal length) in Hx. len_contra Hx.
Qed.

Lemma stripped_strip s : stripped (strip s).
Proof.
  unfold stripped, strip, rstrip. rewrite reverse_involutive, lstrip_idemp.
  split; [|reflexivity].
  destruct (lstrip_suffix (reverse (lstrip s))) as [p Hp].
  apply (lstrip_prefix (lstrip s) _ (reverse p)); [apply lstrip_idemp|].
  rewrite <- reverse_app, <- Hp, reverse_involutive. reflexivity.
Qed.

Lemma strip_stripped t : stripped t -> strip t = t.
Proof.
  intros [Hl Hr]. unfold strip, rstrip. rewrite Hl, Hr. apply reverse_involutive.
Qed.

(** [strip] is idempotent. *)
Lemma strip_strip s : strip (strip s) = strip s.
Proof. apply strip_stripped, stripped_strip. Qed.


End PyMore.

(** * The client's main thread *)

Section SessionFacts.
Import Session.
Context `{Runtime}.

Lemma upper_app (x y : str) : upper (x ++ y) = upper x ++ upper y.
Proof. unfold upper. apply flat_map_app. Qed.

Lemma strip_exit : strip (u "EXIT") = u "EXIT".
Proof. reflexivity. Qed.

Lemma encode_exit : encode_utf8 (u "EXIT" ++ [LF]) = Some (b "EXIT" ++ nl).
Proof. reflexivity. Qed.

(** A command that is not blank goes out whole on an open socket. *)
Lemma send_command_open command data h st :
  strip command <> [] ->
  socket st = Some h ->
  is_closed h st = false ->
  encode_utf8 (command ++ [LF]) = Some data ->
  send_command None command st = (write h data st, None).
Proof.
  intros Hb Hs Hc He. unfold send_command.
  destruct (strip command); [congruence|]. rewrite Hs, He, Hc. reflexivity.
Qed.

Lemma send_command_blank raises command st :
  strip command = [] -> send_command raises command st = (st, None).
Proof. intros Hb. unfold send_command. rewrite Hb. reflexivity. Qed.

(** A failing [sendall] is reported and clears [running]. *)
Lemma send_command_fails e command data h st :
  strip command <> [] ->
  socket st = Some h ->
  is_closed h st = false ->
  encode_utf8 (command ++ [LF]) = Some data ->
  is_Exception e = true ->
  send_command (Some e) command st = (failed_to_send (exc_str e) st, None).
Proof.
  intros Hb Hs Hc He Hx. unfold send_command.
  destruct (strip command); [congruence|]. rewrite Hs, He, Hc, Hx. reflexivity.
Qed.

(** Only what is no [Exception] leaves [send_command]. *)
Lemma send_command_raises raises command st st' e :
  send_command raises command st = (st', Some e) ->
  st' = st /\ raises = Some e /\ is_Exception e = false.
Proof.
  unfold send_command. destruct (strip command); [discriminate|].
  destruct (socket st); [|discriminate].
  destruct (encode_utf8 _); [|discriminate].
  destruct (is_closed _ _); [discriminate|].
  destruct raises as [e'|]; [|discriminate].
  destruct (is_Exception e') eqn:E; [discriminate|].
  intros [= <- <-]. auto.
Qed.


Lemma payloads_app x y : payloads (x ++ y) = payloads x ++ payloads y.
Proof. apply omap_app. Qed.

Lemma payloads_blank line : strip line = [] -> payloads [line] = [].
Proof. intros Hl. unfold payloads. cbn. rewrite Hl. reflexivity. Qed.

Lemma payloads_command line data :
  strip line <> [] -> encode_utf8 (strip line ++ [LF]) = Some data -> payloads [line] = [data].
Proof.
  intros Hl He. unfold payloads. cbn [omap list_omap].
  destruct (strip line); [congruence|]. rewrite He. reflexivity.
Qed.

Lemma is_closed_on_wire h c w st : on_wire h c w st -> is_closed h st = c.
Proof. intros [_ Hm]. unfold is_closed. rewrite Hm, lookup_singleton, decide_True by done. done. Qed.

Lemma on_wire_print h c w p st : on_wire h c w st -> on_wire h c w (print p st).
Proof. intros [? ?]. split; assumption. Qed.

Lemma on_wire_write h w data st :
  on_wire h false w st -> on_wire h false (w ++ [data]) (write h data st).
Proof.
  intros [Hs Hm]. split; [exact Hs|]. unfold write. cbn [sockets with_sockets].
  rewrite Hm, alter_singleton, decide_True by done. reflexivity.
Qed.

(** One turn in which a line is entered and sent. *)
Lemma entering_on_wire h w line st :
  on_wire h false w st ->
  running st = true ->
  is_Some (encode_utf8 (strip line ++ [LF])) ->
  on_wire h false (w ++ payloads [line]) (entering st line)
  /\ running (entering st line) = true
  /\ stdout (entering st line) = stdout st ++ [Prompt]
  /\ host (entering st line) = host st /\ port (entering st line) = port st.
Proof.
  intros Hw Hr [data He]. unfold entering.
  destruct (strip line) as [|c t] eqn:Hl.
  - rewrite send_command_blank by reflexivity.
    rewrite (payloads_blank line Hl), app_nil_r.
    cbn [fst]. split; [apply on_wire_print, Hw|].
    split; [exact Hr|repeat split; reflexivity].
  - assert (strip (c :: t) = c :: t) as Hs by (rewrite <- Hl; apply strip_strip).
    assert (payloads [line] = [data]) as ->
      by (apply payloads_command; rewrite Hl; [discriminate|exact He]).
    rewrite (send_command_open (c :: t) data h);
      [|congruence|apply Hw
       |apply (is_closed_on_wire h false w), on_wire_print, Hw|exact He].
    cbn [fst]. split; [apply on_wire_write, on_wire_print, Hw|].
    split; [exact Hr|repeat split; reflexivity].
Qed.

(** Turns in which lines other than [EXIT] are entered and sent. *)
Lemma command_loop_types lines rest : forall h w st,
  on_wire h false w st ->
  running st = true ->
  Forall (fun line => upper (strip line) <> u "EXIT") lines ->
  Forall (fun line => is_Some (encode_utf8 (strip line ++ [LF]))) lines ->
  let st' := foldl entering st lines in
  command_loop (map types lines ++ rest) st = command_loop rest st'
  /\ on_wire h false (w ++ payloads lines) st'
  /\ running st' = true
  /\ stdout st' = stdout st ++ replicate (length lines) Prompt
  /\ host st' = host st /\ port st' = port st.
Proof.
  induction lines as [|line lines IH]; intros h w st Hw Hr Hx He; cbv zeta.
  - cbn [map app foldl length replicate]. change (payloads []) with (@nil bytes).
    rewrite !app_nil_r. split; [reflexivity|]. split; [exact Hw|]. auto.
  - apply Forall_cons in Hx as [Hx Hxs]. apply Forall_cons in He as [He Hes].
    destruct (entering_on_wire h w line st Hw Hr He) as (Hw1 & Hr1 & Ho1 & Hh1 & Hp1).
    destruct (IH h _ _ Hw1 Hr1 Hxs Hes) as (IH1 & IH2 & IH3 & IH4 & IH5 & IH6).
    cbn [map app foldl length replicate].
    change (payloads (line :: lines)) with (payloads ([line] ++ lines)).
    rewrite payloads_app, app_assoc.
    split; [|split; [exact IH2|split; [exact IH3|split; [|split; congruence]]]].
    + rewrite <- IH1. cbn [command_loop types receiver_stopped entered send_error].
      rewrite Hr. cbn [negb]. rewrite bool_decide_eq_false_2 by exact Hx.
      unfold entering.
      destruct (send_command None (strip line) (print Prompt st)) as [st2 [e|]] eqn:E;
        [|reflexivity].
      apply send_command_raises in E as (_ & ? & _). discriminate.
    + rewrite IH4, Ho1, <- app_assoc. reflexivity.
Qed.


Ltac fields :=
  unfold failed_to_send, write, close, print, with_running, with_socket, with_sockets;
  cbn [host port socket running sockets stdout].

Lemma state_known h c w out ho p r st :
  on_wire h c w st -> running st = r -> stdout st = out -> host st = ho -> port st = p ->
  st = {| host := ho; port := p; socket := Some h; running := r;
          sockets := {[ h := {| Server.closed := c; Server.sent := w |} ]};
          stdout := out |}.
Proof. destruct st. intros [? ?]. cbn in *. intros. subst. reflexivity. Qed.

Lemma send_exit h st :
  socket st = Some h -> is_closed h st = false ->
  send_command None (u "EXIT") st = (write h (b "EXIT" ++ nl) st, None).
Proof.
  intros Hs Hc. apply send_command_open; [discriminate|exact Hs|exact Hc|reflexivity].
Qed.

(** Once [running] is cleared the loop is left at its next test. *)
Lemma command_loop_stopped turns st : running st = false -> command_loop turns st = (st, Left).
Proof.
  destruct st. cbn [running]. intros ->.
  destruct turns as [|t ?]; cbn; [|destruct (receiver_stopped t)]; reflexivity.
Qed.

(** [main] up to the command loop, after a successful [connect]. *)
Lemma main_connected env ho p :
  connect_error env = None ->
  exists h,
    let st1 := {| host := ho; port := p; socket := Some h; running := true;
                  sockets := {[ h := Server.open_socket ]};
                  stdout := [Connecting_to ho p; Connected_to ho p; Type_help] |} in
    main env ho p =
      match command_loop (turns env) st1 with
      | (st2, Left) => (disconnect st2, Returned 0)
      | (st2, Raised e) => (disconnect st2, Propagated e)
      | (st2, Blocked) => (st2, Waiting)
      end.
Proof.
  intros Hc. exists (fresh (dom (∅ : gmap handle Server.socket))).
  unfold main. rewrite Hc. unfold connect.
  unfold print, with_running, with_socket, with_sockets, MCPClient.
  cbn [host port socket running sockets stdout app].
  rewrite insert_empty. reflexivity.
Qed.

Lemma disconnect_on_wire h c w out ho p r :
  disconnect {| host := ho; port := p; socket := Some h; running := r;
                sockets := {[ h := {| Server.closed := c; Server.sent := w |} ]};
                stdout := out |}
  = {| host := ho; port := p; socket := None; running := false;
       sockets := {[ h := {| Server.closed := true; Server.sent := w |} ]};
       stdout := out |}.
Proof.
  unfold disconnect. fields.
  rewrite alter_singleton, decide_True by done. reflexivity.
Qed.

(** X15: a blank line sends nothing.  When the line entered is empty or
    white space only, nothing is written to the socket, nothing but the
    prompt is printed, it is no error, and the loop goes on with the next
    turn. *)
Theorem blank_line_sends_nothing t line rest st :
  running st = true ->
  receiver_stopped t = false ->
  entered t = Typed line ->
  strip line = [] ->
  command_loop (t :: rest) st = command_loop rest (print Prompt st).
Proof.
  intros Hr Hs He Hb. cbn [command_loop]. rewrite Hs, Hr, He. cbn [negb].
  rewrite Hb. rewrite bool_decide_eq_false_2 by discriminate.
  rewrite send_command_blank by reflexivity. reflexivity.
Qed.

(** X16: what a session puts on the wire.  When [connect] succeeds, every
    [sendall] succeeds and the user enters lines other than [EXIT] and then
    [EXIT] in some letter case, [main] returns 0; the socket, the only one
    of the process, has carried one payload per line that is not blank, the
    stripped line and a newline, followed by [EXIT] and a newline, and is
    closed; what is entered after [EXIT] is not read. *)
Theorem session_puts_the_commands_on_the_wire lines last rest ho p :
  Forall (fun line => upper (strip line) <> u "EXIT") lines ->
  Forall (fun line => is_Some (encode_utf8 (strip line ++ [LF]))) lines ->
  upper (strip last) = u "EXIT" ->
  exists h,
    main {| connect_error := None; turns := map types lines ++ types last :: rest |} ho p
    = ({| host := ho; port := p; socket := None; running := false;
          sockets := {[ h := {| Server.closed := true;
                                Server.sent := payloads lines ++ [b "EXIT" ++ nl] |} ]};
          stdout := [Connecting_to ho p; Connected_to ho p; Type_help]
                    ++ replicate (S (length lines)) Prompt |},
       Returned 0).
Proof.
  intros Hx He Hl.
  destruct (main_connected
    {| connect_error := None; turns := map types lines ++ types last :: rest |} ho p eq_refl)
    as [h Hm].
  exists h. rewrite Hm. clear Hm. cbn [turns].
  match goal with |- context [command_loop _ ?s] => set (st1 := s) end.
  destruct (command_loop_types lines (types last :: rest) h [] st1) as (E & Hw & Hr & Ho & Hh & Hp);
    [split; reflexivity|reflexivity|exact Hx|exact He|].
  rewrite E. clear E.
  rewrite (state_known _ _ _ _ _ _ _ _ Hw Hr Ho Hh Hp). cbn [app].
  cbn [command_loop types receiver_stopped entered send_error running negb].
  rewrite bool_decide_eq_true_2 by exact Hl.
  rewrite (send_exit h) by
    (first [reflexivity
           |unfold is_closed; cbn [sockets print]; rewrite lookup_singleton, decide_True by done;
            reflexivity]).
  fields. rewrite alter_singleton, decide_True by done.
  rewrite disconnect_on_wire. cbn [Server.closed Server.sent].
  rewrite replicate_S_end, <- !app_assoc. reflexivity.
Qed.

(** X17: when the receive thread has stopped, the session ends without a
    word.  If [running] is found cleared after some lines were entered and
    sent, [main] reads no further input, prints no further prompt, sends no
    [EXIT], closes the socket and returns 0. *)
Theorem receiver_stop_ends_the_session lines t rest ho p :
  Forall (fun line => upper (strip line) <> u "EXIT") lines ->
  Forall (fun line => is_Some (encode_utf8 (strip line ++ [LF]))) lines ->
  receiver_stopped t = true ->
  exists h,
    main {| connect_error := None; turns := map types lines ++ t :: rest |} ho p
    = ({| host := ho; port := p; socket := None; running := false;
          sockets := {[ h := {| Server.closed := true; Server.sent := payloads lines |} ]};
          stdout := [Connecting_to ho p; Connected_to ho p; Type_help]
                    ++ replicate (length lines) Prompt |},
       Returned 0).
Proof.
  intros Hx He Hs.
  destruct (main_connected
    {| connect_error := None; turns := map types lines ++ t :: rest |} ho p eq_refl)
    as [h Hm].
  exists h. rewrite Hm. clear Hm. cbn [turns].
  match goal with |- context [command_loop _ ?s] => set (st1 := s) end.
  destruct (command_loop_types lines (t :: rest) h [] st1) as (E & Hw & Hr & Ho & Hh & Hp);
    [split; reflexivity|reflexivity|exact Hx|exact He|].
  rewrite E. clear E.
  rewrite (state_known _ _ _ _ _ _ _ _ Hw Hr Ho Hh Hp). cbn [app].
  cbn [command_loop]. rewrite Hs. fields. cbn [negb].
  rewrite disconnect_on_wire. reflexivity.
Qed.

(** X18: a failed [connect] ends [main] with exit code 1.  The failure is
    reported twice, no input is read and nothing is sent; [disconnect] is
    not called, so the socket that [connect] created stays open and
    assigned. *)
Theorem failed_connect_exits_with_1 env ho p e :
  connect_error env = Some e ->
  is_Exception e = true ->
  exists h,
    main env ho p
    = ({| host := ho; port := p; socket := Some h; running := false;
          sockets := {[ h := Server.open_socket ]};
          stdout := [Connecting_to ho p; Failed_to_connect (exc_str e);
                     Failed_to_connect_at ho p; Please_make_sure] |},
       Returned 1).
Proof.
  intros Hc Hx. exists (fresh (dom (∅ : gmap handle Server.socket))).
  unfold main. rewrite Hc. unfold connect. rewrite Hx.
  unfold print, with_running, with_socket, with_sockets, MCPClient.
  cbn [host port socket running sockets stdout app].
  rewrite insert_empty. reflexivity.
Qed.

(** X19: [EXIT] is sent in upper case.  Whatever the letter case and the
    surrounding white space of the line entered, when its stripped text
    upper-cases to [EXIT] the payload is [EXIT] and a newline; the loop is
    left and later turns are not played. *)
Theorem exit_is_sent_in_upper_case t line rest h st :
  socket st = Some h ->
  is_closed h st = false ->
  running st = true ->
  receiver_stopped t = false ->
  entered t = Typed line ->
  send_error t = None ->
  upper (strip line) = u "EXIT" ->
  command_loop (t :: rest) st = (write h (b "EXIT" ++ nl) (print Prompt st), Left).
Proof.
  intros Hs Hc Hr Hn He Hse Hl. cbn [command_loop]. rewrite Hn, Hr, He, Hse. cbn [negb].
  rewrite bool_decide_eq_true_2 by exact Hl.
  rewrite (send_exit h) by assumption. reflexivity.
Qed.

(** X20: the end of the input and Ctrl-C say [EXIT] too.  When [input]
    raises [EOFError] or [KeyboardInterrupt], [Disconnecting...] is printed,
    [EXIT] and a newline are sent, and the loop is left. *)
Theorem end_of_input_says_exit t rest h st :
  socket st = Some h ->
  is_closed h st = false ->
  running st = true ->
  receiver_stopped t = false ->
  entered t = EndOfFile \/ entered t = InputRaise KeyboardInterrupt ->
  exit_error t = None ->
  command_loop (t :: rest) st
  = (write h (b "EXIT" ++ nl) (print Disconnecting (print Prompt st)), Left).
Proof.
  intros Hs Hc Hr Hn He Hx. cbn [command_loop]. rewrite Hn, Hr. cbn [negb].
  assert (on_interrupt t (print Prompt st)
          = (write h (b "EXIT" ++ nl) (print Disconnecting (print Prompt st)), Left)) as Hi.
  { unfold on_interrupt. rewrite Hx, (send_exit h) by assumption. reflexivity. }
  destruct He as [-> | ->]; [exact Hi|]. cbn [on_exception]. exact Hi.
Qed.

(** X21: a failed send ends the loop.  When [sendall] raises an
    [Exception] for the command of a turn, the failure is printed,
    [running] is cleared and the loop is left at its next test: nothing is
    written to the socket, no later turn is played and no [EXIT] is sent. *)
Theorem failed_send_ends_the_loop t line e rest h st :
  socket st = Some h ->
  is_closed h st = false ->
  running st = true ->
  receiver_stopped t = false ->
  entered t = Typed line ->
  strip line <> [] ->
  is_Some (encode_utf8 (strip line ++ [LF])) ->
  send_error t = Some e ->
  is_Exception e = true ->
  command_loop (t :: rest) st = (failed_to_send (exc_str e) (print Prompt st), Left).
Proof.
  intros Hs Hc Hr Hn He Hb [data Hd] Hse Hx. cbn [command_loop].
  rewrite Hn, Hr, He, Hse. cbn [negb].
  case_bool_decide.
  - rewrite (send_command_fails e (u "EXIT") (b "EXIT" ++ nl) h);
      [reflexivity|discriminate|exact Hs|exact Hc|reflexivity|exact Hx].
  - rewrite (send_command_fails e (strip line) data h);
      [|rewrite strip_strip; exact Hb|exact Hs|exact Hc|exact Hd|exact Hx].
    apply command_loop_stopped. reflexivity.
Qed.

(** X22: [disconnect] closes and forgets the socket, and may be called
    again.  Afterwards [running] is cleared, [socket] is [None], the socket
    that was assigned is closed, what was sent and printed is as before,
    and a second call changes nothing. *)
Theorem disconnect_closes_and_forgets st :
  let st' := disconnect st in
  socket st' = None
  /\ running st' = false
  /\ (forall h, socket st = Some h -> is_closed h st' = true)
  /\ (forall h, sent_on h st' = sent_on h st)
  /\ stdout st' = stdout st
  /\ disconnect st' = st'.
Proof.
  cbv zeta. unfold disconnect. fields.
  destruct (socket st) as [h|] eqn:Hs.
  - fields.
    split; [reflexivity|]. split; [reflexivity|]. split; [|split; [|split; reflexivity]].
    + intros h' [= <-]. unfold is_closed. cbn [sockets].
      rewrite lookup_alter, decide_True by done.
      destruct (sockets st !! h); reflexivity.
    + intros h'. unfold sent_on. cbn [sockets].
      destruct (decide (h' = h)) as [->|Hne].
      * rewrite lookup_alter, decide_True by done.
        destruct (sockets st !! h); reflexivity.
      * rewrite lookup_alter_ne by congruence. reflexivity.
  - fields. rewrite ?Hs.
    repeat split; try reflexivity; try exact Hs. intros h' [=].
Qed.

(** X23: after [disconnect] nothing can be sent.  [send_command] with a
    command that is not blank finds no socket: it raises nothing, writes
    nothing, prints that the command could not be sent and clears
    [running]. *)
Theorem nothing_is_sent_after_disconnect raises command st :
  strip command <> [] ->
  send_command raises command (disconnect st)
  = (failed_to_send no_sendall (disconnect st), None).
Proof.
  intros Hb. unfold send_command. destruct (strip command); [congruence|].
  assert (socket (disconnect st) = None) as ->; [|reflexivity].
  unfold disconnect. fields. destruct (socket st) eqn:Hs; [reflexivity|].
  fields. first [reflexivity|exact Hs].
Qed.


Lemma on_wire_failed h c w text st : on_wire h c w st -> on_wire h c w (failed_to_send text st).
Proof. intros [? ?]. split; assumption. Qed.

Lemma on_wire_with_running h c w r st : on_wire h c w st -> on_wire h c w (with_running r st).
Proof. intros [? ?]. split; assumption. Qed.

(** The session's socket stays the only socket, assigned and open, through
    [send_command], and only what is no [Exception] leaves it. *)
Lemma send_command_keeps h raises command st st' r :
  send_command raises command st = (st', r) ->
  (exists w, on_wire h false w st) ->
  (exists w', on_wire h false w' st')
  /\ match r with Some e => is_Exception e = false | None => True end.
Proof.
  intros E [w Hw]. destruct r as [e|].
  - apply send_command_raises in E as (-> & _ & Hx). eauto.
  - split; [|exact I]. revert E. unfold send_command.
    destruct (strip command); [intros [= <-]; eauto|].
    destruct (socket st) as [h'|] eqn:Hs; [|intros [= <-]; eauto using on_wire_failed].
    assert (h' = h) as -> by (destruct Hw as [Hw _]; congruence).
    destruct (encode_utf8 _) as [data|]; [|intros [= <-]; eauto using on_wire_failed].
    destruct (is_closed h st); [intros [= <-]; eauto using on_wire_failed|].
    destruct raises as [e|].
    + destruct (is_Exception e); [|discriminate].
      intros [= <-]; eauto using on_wire_failed.
    + intros [= <-]. eauto using on_wire_write.
Qed.

Lemma on_interrupt_keeps h t st st' r :
  on_interrupt t st = (st', r) ->
  (exists w, on_wire h false w st) ->
  (exists w', on_wire h false w' st')
  /\ match r with Raised e => is_Exception e = false | _ => r = Left end.
Proof.
  unfold on_interrupt. intros E [w Hw].
  destruct (send_command _ _ _) as [st2 o] eqn:Es.
  destruct (send_command_keeps h _ _ _ _ _ Es) as [Hk Hx]; [eauto using on_wire_print|].
  destruct o; injection E as <- <-; auto.
Qed.

Lemma on_exception_keeps h t e st st' r :
  on_exception t e st = (st', r) ->
  (exists w, on_wire h false w st) ->
  (exists w', on_wire h false w' st')
  /\ match r with Raised e => is_Exception e = false | _ => r = Left end.
Proof.
  intros E Hw.
  destruct e; cbn [on_exception] in E;
    try (injection E as <- <-; destruct Hw as [w Hw]; eauto using on_wire_print).
  exact (on_interrupt_keeps h t st st' r E Hw).
Qed.

Lemma command_loop_keeps h turns : forall st st' r,
  command_loop turns st = (st', r) ->
  (exists w, on_wire h false w st) ->
  (exists w', on_wire h false w' st')
  /\ match r with
     | Left => True
     | Raised e => is_Exception e = false
     | Blocked => running st' = true
     end.
Proof.
  assert (Hweak : forall st' r,
    (exists w', on_wire h false w' st')
    /\ match r with Raised e => is_Exception e = false | _ => r = Left end ->
    (exists w', on_wire h false w' st')
    /\ match r with
       | Left => True
       | Raised e => is_Exception e = false
       | Blocked => running st' = true
       end).
  { intros st' r [? Hr]. split; [assumption|]. destruct r; auto. discriminate. }
  induction turns as [|t turns IH]; intros st st' r E Hw; cbn [command_loop] in E.
  - destruct (running st) eqn:Hr; injection E as <- <-.
    + destruct Hw as [w Hw]. eauto using on_wire_print.
    + auto.
  - set (st0 := if receiver_stopped t then with_running false st else st) in *.
    assert (exists w, on_wire h false w st0) as Hw0.
    { subst st0. destruct Hw as [w Hw].
      destruct (receiver_stopped t); eauto using on_wire_with_running. }
    destruct (negb (running st0)); [injection E as <- <-; auto|].
    assert (exists w, on_wire h false w (print Prompt st0)) as Hw1.
    { destruct Hw0 as [w Hw0]. eauto using on_wire_print. }
    destruct (entered t) as [line| |e].
    + destruct (bool_decide _);
        destruct (send_command _ _ _) as [st2 [e|]] eqn:Es;
        destruct (send_command_keeps h _ _ _ _ _ Es Hw1) as [Hk _].
      * exact (Hweak _ _ (on_exception_keeps h t e st2 st' r E Hk)).
      * injection E as <- <-. auto.
      * exact (Hweak _ _ (on_exception_keeps h t e st2 st' r E Hk)).
      * exact (IH st2 st' r E Hk).
    + exact (Hweak _ _ (on_interrupt_keeps h t _ st' r E Hw1)).
    + exact (Hweak _ _ (on_exception_keeps h t e _ st' r E Hw1)).
Qed.

(** X24: once connected, [main] leaves nothing open and never fails.
    Whatever is entered, whatever [sendall] raises and whenever the receive
    thread stops: when [main] ends it returns 0 or lets through what is no
    [Exception], and then [running] is cleared, [socket] is [None] and
    every socket of the process is closed; and when it is still waiting
    for input, the socket is assigned and open. *)
Theorem main_leaves_nothing_open env ho p :
  connect_error env = None ->
  let closed_down st :=
    socket st = None /\ running st = false /\ forall h, is_closed h st = true in
  match main env ho p with
  | (st, Returned code) => code = 0%Z /\ closed_down st
  | (st, Propagated e) => is_Exception e = false /\ closed_down st
  | (st, Waiting) =>
    running st = true /\ exists h, socket st = Some h /\ is_closed h st = false
  end.
Proof.
  intros Hc closed_down. destruct (main_connected env ho p Hc) as [h Hm].
  cbv zeta in Hm. rewrite Hm. clear Hm.
  match goal with |- context [command_loop _ ?s] => set (st1 := s) end.
  destruct (command_loop (turns env) st1) as [st2 r] eqn:E.
  destruct (command_loop_keeps h _ _ _ _ E) as [[w Hw] Hr];
    [exists []; split; reflexivity|].
  assert (closed_down (disconnect st2)) as Hd.
  { rewrite (state_known h false w (stdout st2) (host st2) (port st2) (running st2) st2)
      by (auto; apply Hw).
    rewrite disconnect_on_wire. split; [reflexivity|]. split; [reflexivity|].
    intros k. unfold is_closed. cbn [sockets]. rewrite lookup_singleton.
    destruct (decide (h = k)); reflexivity. }
  destruct r; auto.
  split; [exact Hr|]. exists h. split; [apply Hw|].
  exact (is_closed_on_wire h false w st2 Hw).
Qed.

End SessionFacts.

(** * Client and server together *)

Section EndToEnd.
Context `{Runtime}.

Lemma encode_utf8_nonempty t data : encode_utf8 t = Some data -> t <> [] -> data <> [].
Proof.
  intros He Ht ->. apply decode_encode_utf8 in He. cbn in He. congruence.
Qed.

(** A complete line in an empty buffer is printed and leaves it empty. *)
Lemma print_lines_one_line message out :
  LF ∉ message ->
  Client.print_lines (message ++ [LF]) out = ([], out ++ [Client.Line message]).
Proof.
  intros Hm.
  rewrite (print_lines_Some _ out message []) by (apply partition_app; exact Hm).
  apply print_lines_None. reflexivity.
Qed.


(** X26: a response of the server is one line on the client's terminal.
    For a message without a newline, [_send_response] writes the message
    and a newline; a receive loop with an empty buffer that reads this
    payload in one piece prints exactly the message as a line, keeps
    nothing in its buffer, and goes on reading. *)
Theorem response_is_printed_as_a_line message data recvs hs
    (sst : Server.state) (cst : Client.state) :
  LF ∉ message ->
  encode_utf8 (message ++ [LF]) = Some data ->
  (length data <= 1024)%nat ->
  Server.is_closed hs sst = false ->
  Client.running cst = true ->
  Client.buffer cst = [] ->
  Server._send_response hs message sst = Server.write hs data sst
  /\ Client.receive_loop (Client.Data data :: recvs) cst
     = Client.receive_loop recvs
         {| Client.running := true; Client.buffer := [];
            Client.stdout := Client.stdout cst ++ [Client.Line message] |}.
Proof.
  intros Hm He _ Ho Hr Hb. split; [apply send_response_open; assumption|].
  pose proof (encode_utf8_nonempty _ _ He) as Hne.
  cbn [Client.receive_loop]. rewrite Hr. cbn [negb].
  destruct data as [|c0 data]; [exfalso; apply Hne; [destruct message; discriminate|reflexivity]|].
  rewrite (decode_encode_utf8 _ _ He), Hb. cbn [app].
  rewrite (print_lines_one_line message _ Hm). reflexivity.
Qed.


End EndToEnd.

(** * The task store *)

Section TaskFacts.
Import Tasks.

Lemma read_task_skips task_id pre rest :
  Forall (fun t => id t <> task_id) pre ->
  read_task task_id (pre ++ rest) = read_task task_id rest.
Proof.
  induction 1 as [|t pre Ht _ IH]; [reflexivity|]. cbn [app read_task].
  destruct (Z.eqb_spec (id t) task_id); [contradiction|exact IH].
Qed.

Lemma update_task_skips task_id updated_task pre rest :
  Forall (fun t => id t <> task_id) pre ->
  update_task task_id updated_task (pre ++ rest)
  = (pre ++ (update_task task_id updated_task rest).1,
     (update_task task_id updated_task rest).2).
Proof.
  induction 1 as [|t pre Ht _ IH]; cbn [app update_task].
  - destruct (update_task _ _ rest); reflexivity.
  - destruct (Z.eqb_spec (id t) task_id); [contradiction|]. rewrite IH. reflexivity.
Qed.

Lemma delete_task_skips task_id pre rest :
  Forall (fun t => id t <> task_id) pre ->
  delete_task task_id (pre ++ rest)
  = (pre ++ (delete_task task_id rest).1, (delete_task task_id rest).2).
Proof.
  induction 1 as [|t pre Ht _ IH]; cbn [app delete_task].
  - destruct (delete_task _ rest); reflexivity.
  - destruct (Z.eqb_spec (id t) task_id); [contradiction|]. rewrite IH. reflexivity.
Qed.

(** X28: a missing task is not found, by any handler.  When no stored task
    has the identifier, [read_task], [update_task] and [delete_task] all
    answer 404 with the same detail and leave the store as it is. *)
Theorem missing_task_is_not_found task_id updated_task tasks_db :
  Forall (fun t => id t <> task_id) tasks_db ->
  read_task task_id tasks_db = inr (HTTPException 404 "Task not found")
  /\ update_task task_id updated_task tasks_db
     = (tasks_db, inr (HTTPException 404 "Task not found"))
  /\ delete_task task_id tasks_db = (tasks_db, Some (HTTPException 404 "Task not found")).
Proof.
  intros Hno. rewrite <- (app_nil_r tasks_db) at 1 2 4.
  rewrite read_task_skips, update_task_skips, delete_task_skips by exact Hno.
  cbn. rewrite app_nil_r. auto.
Qed.

(** X29: an update replaces the first match in place and keeps its
    creation time.  The entry takes every field from the request, its
    identifier included, except [created_at], which stays that of the
    stored task; the entries before and after are untouched, and the new
    entry is the response. *)
Theorem update_keeps_place_and_creation_time task_id updated_task pre old post :
  Forall (fun t => id t <> task_id) pre ->
  id old = task_id ->
  let data := {| id := id updated_task; title := title updated_task;
                 description := description updated_task;
                 completed := completed updated_task;
                 created_at := created_at old |} in
  update_task task_id updated_task (pre ++ old :: post) = (pre ++ data :: post, inl data).
Proof.
  intros Hpre Hold data. rewrite update_task_skips by exact Hpre.
  cbn [update_task]. rewrite (proj2 (Z.eqb_eq _ _) Hold). reflexivity.
Qed.

(** X30: a task created under an unused identifier is read back with its
    creation time, and deleting it restores the store.  [create_task]
    appends the task stamped with the current time, whatever [created_at]
    the request carried. *)
Theorem created_task_is_read_and_deleted now task tasks_db :
  Forall (fun t => id t <> id task) tasks_db ->
  let created := create_task now task tasks_db in
  created_at created.2 = Some now
  /\ read_tasks created.1 = tasks_db ++ [created.2]
  /\ read_task (id task) created.1 = inl created.2
  /\ delete_task (id task) created.1 = (tasks_db, None).
Proof.
  intros Hno created. subst created. unfold create_task, read_tasks. cbn [fst snd].
  rewrite read_task_skips, delete_task_skips by exact Hno.
  cbn [read_task delete_task stamped id created_at]. rewrite Z.eqb_refl.
  cbn [fst snd]. rewrite app_nil_r. auto.
Qed.

End TaskFacts.

(** * The further properties on concrete runs *)

Section ServerRuns.
Import Server Effects.
#[local] Existing Instance bare.

Lemma handler_touches_only_its_connection_witness :
  let r := _handle_client [Data (b "HELLO" ++ nl); Data (b "EXIT" ++ nl)]
             peer1 1%nat (accepted 1%nat) in
  (is_closed 0%nat r.1 = is_closed 0%nat (accepted 1%nat)
   /\ sent_on 0%nat r.1 = sent_on 0%nat (accepted 1%nat))
  /\ clients r.1 !! peer2 = clients (accepted 1%nat) !! peer2.
Proof.
  destruct (handler_touches_only_its_connection
              [Data (b "HELLO" ++ nl); Data (b "EXIT" ++ nl)] peer1 1%nat (accepted 1%nat))
    as (_ & _ & Hs & Hc).
  split; [apply Hs|apply Hc]; discriminate.
Defined.

Lemma welcome_is_sent_first_witness :
  let banner := b "MCP Server: Connected. Type 'HELP' for available commands." ++ nl in
  let gone := Some (u "[Errno 32] Broken pipe") in
  let reads := [ {| Faults.received := Data (b "HELLO" ++ nl); Faults.failure := None |} ] in
  let sent := Faults._handle_client None reads peer1 1%nat (accepted 1%nat) in
  let failed := Faults._handle_client gone reads peer1 1%nat (accepted 1%nat) in
  (sent_on 1%nat (accepted 1%nat) ++ [banner]) `prefix_of` sent_on 1%nat sent.1
  /\ (log (accepted 1%nat) ++ [Error_sending (OSError (u "[Errno 32] Broken pipe"))])
       `prefix_of` log failed.1.
Proof.
  split.
  - apply (welcome_is_sent_first None
             [ {| Faults.received := Data (b "HELLO" ++ nl); Faults.failure := None |} ]
             peer1 1%nat (accepted 1%nat)).
    reflexivity.
  - apply (welcome_is_sent_first (Some (u "[Errno 32] Broken pipe"))
             [ {| Faults.received := Data (b "HELLO" ++ nl); Faults.failure := None |} ]
             peer1 1%nat (accepted 1%nat)).
    reflexivity.
Defined.

(** The peer is gone before the handler runs: nothing is written, the
    failure is logged, and the empty read ends the connection. *)
Example welcome_to_a_peer_that_is_gone :
  let r := Faults._handle_client (Some (u "[Errno 32] Broken pipe"))
             [ {| Faults.received := Data []; Faults.failure := None |} ]
             peer1 1%nat (accepted 1%nat) in
  r.2 = Left
  /\ sent_on 1%nat r.1 = []
  /\ log r.1 = [Error_sending (OSError (u "[Errno 32] Broken pipe")); Info_disconnected peer1].
Proof. cbv zeta. repeat split; vm_compute; reflexivity. Qed.

Lemma registered_exactly_while_serving_witness :
  let waiting := _handle_client [Data (b "HELLO" ++ nl)] peer1 1%nat (accepted 1%nat) in
  let over := _handle_client [Data (b "EXIT" ++ nl)] peer1 1%nat (accepted 1%nat) in
  (clients waiting.1 !! peer1 = Some 1%nat
   /\ is_closed 1%nat waiting.1 = false /\ running waiting.1 = true)
  /\ (clients over.1 !! peer1 = None /\ is_closed 1%nat over.1 = true).
Proof.
  split.
  - apply (registered_exactly_while_serving
             [Data (b "HELLO" ++ nl)] peer1 1%nat (accepted 1%nat)).
    vm_compute. reflexivity.
  - apply (registered_exactly_while_serving
             [Data (b "EXIT" ++ nl)] peer1 1%nat (accepted 1%nat)).
    vm_compute. reflexivity.
Defined.

Lemma undecodable_read_is_reported_witness :
  let pre := [Data (b "HELLO" ++ nl)] in
  let st1 := (_handle_client pre peer1 1%nat (accepted 1%nat)).1 in
  let r := _handle_client (pre ++ Data [xc3] :: [Data (b "HELP" ++ nl)])
             peer1 1%nat (accepted 1%nat) in
  r.2 = Left
  /\ sent_on 1%nat r.1 = sent_on 1%nat st1 ++ [b "ERROR: " ++ nl]
  /\ dispatched r.1 = dispatched st1
  /\ is_closed 1%nat r.1 = true
  /\ clients r.1 !! peer1 = None.
Proof.
  apply (undecodable_read_is_reported [Data (b "HELLO" ++ nl)] [xc3] [Data (b "HELP" ++ nl)]).
  - vm_compute. reflexivity.
  - reflexivity.
  - reflexivity.
Defined.

Lemma reset_by_peer_is_silent_witness :
  let pre := [Data (b "HELLO" ++ nl)] in
  let st1 := (_handle_client pre peer1 1%nat (accepted 1%nat)).1 in
  let r := _handle_client
             (pre ++ Raise (ConnectionResetError (u "[Errno 104] Connection reset by peer"))
                  :: [Data (b "HELP" ++ nl)])
             peer1 1%nat (accepted 1%nat) in
  r.2 = Left
  /\ sent_on 1%nat r.1 = sent_on 1%nat st1
  /\ log r.1 = log st1 ++ [Info_disconnected peer1]
  /\ is_closed 1%nat r.1 = true
  /\ clients r.1 !! peer1 = None.
Proof.
  apply (reset_by_peer_is_silent [Data (b "HELLO" ++ nl)]
           (u "[Errno 104] Connection reset by peer") [Data (b "HELP" ++ nl)]).
  vm_compute. reflexivity.
Defined.

Lemma help_lists_the_commands_witness :
  dispatch (u "HELP") (u "me") 1%nat (accepted 1%nat)
  = write 1%nat help_payload (accepted 1%nat)
  /\ untouched (accepted 1%nat) (dispatch (u "HELP") (u "me") 1%nat (accepted 1%nat)).
Proof.
  apply (help_lists_the_commands (u "me") 1%nat (accepted 1%nat)). reflexivity.
Defined.


Lemma accept_errors_do_not_stop_the_server_witness :
  let env := {| bind_error := fun _ => None;
                accepts := [Accepted 1%nat peer1;
                            AcceptRaise (OSError (u "[Errno 24] Too many open files"));
                            Accepted 2%nat peer2] |} in
  let st := MCPServer "0.0.0.0" 5001 process in
  (start env st).2 = Waiting
  /\ running (start env st).1 = true
  /\ log (start env st).1
     = log st ++ [Info_started (host st) (port st); Info_waiting]
       ++ map accept_record (accepts env).
Proof.
  apply (accept_errors_do_not_stop_the_server
           {| bind_error := fun _ => None;
              accepts := [Accepted 1%nat peer1;
                          AcceptRaise (OSError (u "[Errno 24] Too many open files"));
                          Accepted 2%nat peer2] |}
           (MCPServer "0.0.0.0" 5001 process)); reflexivity.
Defined.


End ServerRuns.

Section ReceiveRuns.
Import Client.
#[local] Existing Instance bare.

Lemma end_of_stream_stops_the_loop_witness :
  let s1 := receive_loop (map Data [b "one" ++ nl ++ b "tw"; b "o" ++ nl ++ b "thr"]) initial in
  receive_loop (map Data [b "one" ++ nl ++ b "tw"; b "o" ++ nl ++ b "thr"]
                  ++ Data [] :: [Data (b "ee" ++ nl)]) initial
  = {| running := false; buffer := buffer s1; stdout := stdout s1 ++ [Disconnected] |}.
Proof.
  apply (end_of_stream_stops_the_loop
           [b "one" ++ nl ++ b "tw"; b "o" ++ nl ++ b "thr"]
           [u "one" ++ [LF] ++ u "tw"; u "o" ++ [LF] ++ u "thr"]).
  - reflexivity.
  - repeat constructor; discriminate.
  - repeat constructor.
Defined.

Lemma cutting_the_stream_does_not_matter_witness :
  receive_loop (map Data [b "HEL"; b "LO" ++ nl ++ b "by"; b "e"]) initial
  = receive_loop [Data (concat [b "HEL"; b "LO" ++ nl ++ b "by"; b "e"])] initial.
Proof.
  apply (cutting_the_stream_does_not_matter
           [b "HEL"; b "LO" ++ nl ++ b "by"; b "e"]
           [u "HEL"; u "LO" ++ [LF] ++ u "by"; u "e"]).
  - reflexivity.
  - discriminate.
  - repeat constructor; discriminate.
  - repeat constructor.
Defined.

Lemma no_newline_is_kept_witness :
  let r := _receive_messages
             [Data (b "one" ++ nl ++ b "two" ++ nl ++ b "thr"); Raise KeyboardInterrupt]
             initial in
  (LF ∉ buffer r) /\ Forall (fun l => LF ∉ l) (lines (stdout r)).
Proof.
  apply (no_newline_is_kept
           [Data (b "one" ++ nl ++ b "two" ++ nl ++ b "thr"); Raise KeyboardInterrupt] initial).
  constructor.
Defined.

End ReceiveRuns.

Section SessionRuns.
Import Session.
#[local] Existing Instance bare.

Lemma blank_line_sends_nothing_witness :
  command_loop (types (u "   ") :: [types (u "HELLO")]) (connected 0%nat)
  = command_loop [types (u "HELLO")] (print Prompt (connected 0%nat)).
Proof.
  apply (blank_line_sends_nothing (types (u "   ")) (u "   ")); reflexivity.
Defined.

Lemma session_puts_the_commands_on_the_wire_witness :
  let lines := [u "HELLO Bob"; u "  "; u " echo hi "] in
  exists h,
    main {| connect_error := None;
            turns := map types lines ++ types (u " Exit ") :: [types (u "HELP")] |}
      "localhost" 5001
    = ({| host := "localhost"; port := 5001; socket := None; running := false;
          sockets := {[ h := {| Server.closed := true;
                                Server.sent := payloads lines ++ [b "EXIT" ++ nl] |} ]};
          stdout := [Connecting_to "localhost" 5001; Connected_to "localhost" 5001; Type_help]
                    ++ replicate (S (length lines)) Prompt |},
       Returned 0).
Proof.
  apply (session_puts_the_commands_on_the_wire
           [u "HELLO Bob"; u "  "; u " echo hi "] (u " Exit ") [types (u "HELP")]).
  - repeat constructor; vm_compute; discriminate.
  - repeat constructor; eexists; vm_compute; reflexivity.
  - vm_compute. reflexivity.
Defined.

Lemma receiver_stop_ends_the_session_witness :
  let lines := [u "HELLO Bob"] in
  let t := {| receiver_stopped := true; entered := Typed (u "HELP");
              send_error := None; exit_error := None |} in
  exists h,
    main {| connect_error := None; turns := map types lines ++ t :: [types (u "EXIT")] |}
      "localhost" 5001
    = ({| host := "localhost"; port := 5001; socket := None; running := false;
          sockets := {[ h := {| Server.closed := true; Server.sent := payloads lines |} ]};
          stdout := [Connecting_to "localhost" 5001; Connected_to "localhost" 5001; Type_help]
                    ++ replicate (length lines) Prompt |},
       Returned 0).
Proof.
  apply (receiver_stop_ends_the_session [u "HELLO Bob"]
           {| receiver_stopped := true; entered := Typed (u "HELP");
              send_error := None; exit_error := None |} [types (u "EXIT")]).
  - repeat constructor; vm_compute; discriminate.
  - repeat constructor; eexists; vm_compute; reflexivity.
  - reflexivity.
Defined.

Lemma failed_connect_exits_with_1_witness :
  let e := ConnectionResetError (u "[Errno 111] Connection refused") in
  exists h,
    main {| connect_error := Some e; turns := [types (u "HELLO")] |} "localhost" 5001
    = ({| host := "localhost"; port := 5001; socket := Some h; running := false;
          sockets := {[ h := Server.open_socket ]};
          stdout := [Connecting_to "localhost" 5001; Failed_to_connect (exc_str e);
                     Failed_to_connect_at "localhost" 5001; Please_make_sure] |},
       Returned 1).
Proof.
  apply (failed_connect_exits_with_1
           {| connect_error := Some (ConnectionResetError (u "[Errno 111] Connection refused"));
              turns := [types (u "HELLO")] |}); reflexivity.
Defined.

Lemma exit_is_sent_in_upper_case_witness :
  command_loop (types (u " Exit ") :: [types (u "HELLO")]) (connected 0%nat)
  = (write 0%nat (b "EXIT" ++ nl) (print Prompt (connected 0%nat)), Left).
Proof.
  apply (exit_is_sent_in_upper_case (types (u " Exit ")) (u " Exit ")); reflexivity.
Defined.

Lemma end_of_input_says_exit_witness :
  let t := {| receiver_stopped := false; entered := EndOfFile;
              send_error := None; exit_error := None |} in
  command_loop (t :: [types (u "HELLO")]) (connected 0%nat)
  = (write 0%nat (b "EXIT" ++ nl) (print Disconnecting (print Prompt (connected 0%nat))), Left).
Proof.
  apply (end_of_input_says_exit
           {| receiver_stopped := false; entered := EndOfFile;
              send_error := None; exit_error := None |}); try reflexivity.
  left. reflexivity.
Defined.

Lemma failed_send_ends_the_loop_witness :
  let e := OSError (u "[Errno 32] Broken pipe") in
  let t := {| receiver_stopped := false; entered := Typed (u "HELLO");
              send_error := Some e; exit_error := None |} in
  command_loop (t :: [types (u "HELP")]) (connected 0%nat)
  = (failed_to_send (exc_str e) (print Prompt (connected 0%nat)), Left).
Proof.
  apply (failed_send_ends_the_loop
           {| receiver_stopped := false; entered := Typed (u "HELLO");
              send_error := Some (OSError (u "[Errno 32] Broken pipe")); exit_error := None |}
           (u "HELLO") (OSError (u "[Errno 32] Broken pipe")) [types (u "HELP")] 0%nat);
    try reflexivity.
  - vm_compute. discriminate.
  - eexists. vm_compute. reflexivity.
Defined.

Lemma disconnect_closes_and_forgets_witness :
  is_closed 0%nat (disconnect (connected 0%nat)) = true.
Proof.
  destruct (disconnect_closes_and_forgets (connected 0%nat)) as (_ & _ & Hc & _).
  apply Hc. reflexivity.
Defined.

Lemma nothing_is_sent_after_disconnect_witness :
  send_command None (u "HELLO") (disconnect (connected 0%nat))
  = (failed_to_send no_sendall (disconnect (connected 0%nat)), None).
Proof.
  apply (nothing_is_sent_after_disconnect None (u "HELLO") (connected 0%nat)).
  vm_compute. discriminate.
Defined.

Lemma main_leaves_nothing_open_witness :
  let env := {| connect_error := None;
                turns := [types (u "HELLO");
                          {| receiver_stopped := false;
                             entered := InputRaise KeyboardInterrupt;
                             send_error := None;
                             exit_error := Some KeyboardInterrupt |}] |} in
  let closed_down st :=
    socket st = None /\ running st = false /\ forall h, is_closed h st = true in
  match main env "localhost" 5001 with
  | (st, Returned code) => code = 0%Z /\ closed_down st
  | (st, Propagated e) => is_Exception e = false /\ closed_down st
  | (st, Waiting) =>
    running st = true /\ exists h, socket st = Some h /\ is_closed h st = false
  end.
Proof.
  apply (main_leaves_nothing_open
           {| connect_error := None;
              turns := [types (u "HELLO");
                        {| receiver_stopped := false;
                           entered := InputRaise KeyboardInterrupt;
                           send_error := None;
                           exit_error := Some KeyboardInterrupt |}] |}).
  reflexivity.
Defined.

End SessionRuns.

Section EndToEndRuns.
#[local] Existing Instance bare.


Lemma response_is_printed_as_a_line_witness :
  let data := b "Goodbye!" ++ nl in
  Server._send_response 1%nat (u "Goodbye!") (Server.accepted 1%nat)
  = Server.write 1%nat data (Server.accepted 1%nat)
  /\ Client.receive_loop (Client.Data data :: []) Client.initial
     = Client.receive_loop []
         {| Client.running := true; Client.buffer := [];
            Client.stdout := Client.stdout Client.initial ++ [Client.Line (u "Goodbye!")] |}.
Proof.
  apply (response_is_printed_as_a_line (u "Goodbye!") (b "Goodbye!" ++ nl));
    try reflexivity.
  - apply (bool_decide_eq_false_1 _). vm_compute. reflexivity.
  - vm_compute. lia.
Defined.


End EndToEndRuns.

Section TaskRuns.
Import Tasks.

Lemma missing_task_is_not_found_witness :
  let db := [ {| id := 1; title := u "a"; description := []; completed := false;
                 created_at := Some 10%Z |} ] in
  let request := {| id := 2; title := u "b"; description := []; completed := true;
                    created_at := None |} in
  read_task 2 db = inr (HTTPException 404 "Task not found")
  /\ update_task 2 request db = (db, inr (HTTPException 404 "Task not found"))
  /\ delete_task 2 db = (db, Some (HTTPException 404 "Task not found")).
Proof.
  apply (missing_task_is_not_found 2
           {| id := 2; title := u "b"; description := []; completed := true;
              created_at := None |}).
  repeat constructor. discriminate.
Defined.

Lemma update_keeps_place_and_creation_time_witness :
  let first := {| id := 1; title := u "a"; description := []; completed := false;
                  created_at := Some 10%Z |} in
  let old := {| id := 2; title := u "b"; description := []; completed := false;
                created_at := Some 20%Z |} in
  let twin := {| id := 2; title := u "c"; description := []; completed := false;
                 created_at := Some 30%Z |} in
  let request := {| id := 7; title := u "B"; description := u "new"; completed := true;
                    created_at := Some 99%Z |} in
  let data := {| id := 7; title := u "B"; description := u "new"; completed := true;
                 created_at := Some 20%Z |} in
  update_task 2 request ([first] ++ old :: [twin]) = ([first] ++ data :: [twin], inl data).
Proof.
  apply (update_keeps_place_and_creation_time 2
           {| id := 7; title := u "B"; description := u "new"; completed := true;
              created_at := Some 99%Z |}
           [ {| id := 1; title := u "a"; description := []; completed := false;
                created_at := Some 10%Z |} ]
           {| id := 2; title := u "b"; description := []; completed := false;
              created_at := Some 20%Z |}).
  - repeat constructor. discriminate.
  - reflexivity.
Defined.

Lemma created_task_is_read_and_deleted_witness :
  let db := [ {| id := 1; title := u "a"; description := []; completed := false;
                 created_at := Some 10%Z |} ] in
  let task := {| id := 2; title := u "b"; description := []; completed := false;
                 created_at := Some 99%Z |} in
  let created := create_task 20%Z task db in
  created_at created.2 = Some 20%Z
  /\ read_tasks created.1 = db ++ [created.2]
  /\ read_task (id task) created.1 = inl created.2
  /\ delete_task (id task) created.1 = (db, None).
Proof.
  apply (created_task_is_read_and_deleted 20%Z
           {| id := 2; title := u "b"; description := []; completed := false;
              created_at := Some 99%Z |}).
  repeat constructor. discriminate.
Defined.

End TaskRuns.
